(** * gomigrate: a shallow embedding of the migration engine

    The development follows the Go sources file by file:
    - [db.go] (and the older adapter file with the [...Sql] method names):
      the dialect adapters and the MySQL statement splitter;
    - [migration.go]: the [Migration] record, [Validate] and the
      directory loader [MigrationsFromPath];
    - [gomigrate.go]: the [Migrator] methods.

    Go strings are byte sequences and are modelled by [string] (one [ascii]
    per byte).  [uint64] ids are modelled by [N], Go's [int] by [Z] with the
    64-bit wrap-around written out where arithmetic is performed. *)

From Stdlib Require Import ZArith Ascii String List Sorting.Sorted Lia.
From stdpp Require Import base option list sorting gmap strings.

Local Open Scope Z_scope.

(* ===================================================================== *)
(** * Part 1: the pieces of Go's [strings] package used by the adapters  *)
(* ===================================================================== *)

Module GoStrings.

(** [len(s)] *)
Definition len (s : string) : nat := String.length s.

(** [s[n:]] for [n <= len(s)] (the callers below never slice past the end). *)
Fixpoint slice_from (n : nat) (s : string) : string :=
  match n, s with
  | O, _ => s
  | S n', String _ s' => slice_from n' s'
  | S _, EmptyString => EmptyString
  end.

(** [s[:n]] for [n <= len(s)]. *)
Fixpoint slice_to (n : nat) (s : string) : string :=
  match n, s with
  | O, _ => EmptyString
  | S n', String c s' => String c (slice_to n' s')
  | S _, EmptyString => EmptyString
  end.

(** [strings.HasPrefix(s, prefix)]:
    [len(s) >= len(prefix) && s[:len(prefix)] == prefix]. *)
Fixpoint HasPrefix (s prefix : string) {struct prefix} : bool :=
  match prefix, s with
  | EmptyString, _ => true
  | String _ _, EmptyString => false
  | String a prefix', String b s' => Ascii.eqb a b && HasPrefix s' prefix'
  end.

(** [strings.Index(s, sep)]: byte offset of the first occurrence of [sep],
    [None] standing for Go's [-1]. *)
Fixpoint Index (s sep : string) : option nat :=
  if HasPrefix s sep then Some O
  else match s with
       | EmptyString => None
       | String _ s' => S <$> Index s' sep
       end.

(** The cutting loop of [strings.genSplit] (with [sepSave = 0]): at most
    [cuts] times, cut [s] at the first occurrence of [sep]; the last element
    is whatever remains.  [sep] is non-empty here. *)
Fixpoint cut_loop (cuts : nat) (s sep : string) : list string :=
  match cuts with
  | O => [s]
  | S cuts' =>
      match Index s sep with
      | None => [s]
      | Some m => slice_to m s :: cut_loop cuts' (slice_from (m + len sep) s) sep
      end
  end.

(** [strings.Count(s, sep)] for non-empty [sep]: the number of
    non-overlapping occurrences.  Every occurrence consumes at least one
    byte, so [len s] rounds of the counting loop are enough. *)
Fixpoint count_loop (rounds : nat) (s sep : string) : nat :=
  match rounds with
  | O => O
  | S rounds' =>
      match Index s sep with
      | None => O
      | Some m => S (count_loop rounds' (slice_from (m + len sep) s) sep)
      end
  end.

Definition Count (s sep : string) : nat := count_loop (len s) s sep.

Section Split.

(** [strings.explode(s, n)] splits [s] into UTF-8 sequences; it is only
    reached with an empty separator and is left abstract. *)
Variable explode : string -> Z -> list string.

(** [strings.genSplit(s, sep, 0, n)]. *)
Definition genSplit (s sep : string) (n : Z) : list string :=
  if n =? 0 then []
  else if String.eqb sep "" then explode s n
  else
    let n1 := if n <? 0 then Z.of_nat (Count s sep) + 1 else n in
    let n2 := if n1 >? Z.of_nat (len s) + 1 then Z.of_nat (len s) + 1 else n1 in
    cut_loop (Z.to_nat (n2 - 1)) s sep.

(** [strings.SplitN(s, sep, n)] and [strings.Split(s, sep)]. *)
Definition SplitN (s sep : string) (n : Z) : list string := genSplit s sep n.
Definition Split (s sep : string) : list string := genSplit s sep (-1).

End Split.

(** [strings.Join(elems, sep)] *)
Fixpoint Join (elems : list string) (sep : string) : string :=
  match elems with
  | [] => EmptyString
  | [e] => e
  | e :: rest => e +:+ sep +:+ Join rest sep
  end.

(** The byte sequences that [unicode.IsSpace] accepts once decoded: the six
    ASCII spaces, U+0085 and U+00A0, and the code points with the
    White_Space property above Latin-1 (U+1680, U+2000..U+200A, U+2028,
    U+2029, U+202F, U+205F, U+3000), each in its only valid UTF-8 form. *)
Definition bytes (l : list nat) : string :=
  string_of_list_ascii (map ascii_of_nat l).

Definition space_encodings : list string :=
  map bytes
    ([ [9]; [10]; [11]; [12]; [13]; [32];
       [194; 133]; [194; 160];
       [225; 154; 128] ]
     ++ map (fun k => [226; 128; 128 + k]) (seq 0 11)
     ++ [ [226; 128; 168]; [226; 128; 169]; [226; 128; 175];
          [226; 129; 159]; [227; 128; 128] ])%nat.

Fixpoint string_rev (s : string) : string :=
  match s with
  | EmptyString => EmptyString
  | String c s' => string_rev s' +:+ String c EmptyString
  end.

(** One step of trimming: drop a leading white-space rune if there is one. *)
Definition strip_space (encs : list string) (s : string) : option string :=
  (fun e => slice_from (len e) s) <$> List.find (fun e => HasPrefix s e) encs.

Fixpoint trim_left_loop (rounds : nat) (encs : list string) (s : string) : string :=
  match rounds with
  | O => s
  | S rounds' =>
      match strip_space encs s with
      | Some s' => trim_left_loop rounds' encs s'
      | None => s
      end
  end.

(** [strings.TrimSpace(s)]: leading white-space runes are removed first, then
    trailing ones (a trailing rune is recognised on the reversed bytes). *)
Definition TrimSpace (s : string) : string :=
  let l := trim_left_loop (len s) space_encodings s in
  string_rev (trim_left_loop (len l) (map string_rev space_encodings) (string_rev l)).

End GoStrings.

(* ===================================================================== *)
(** * Part 2: the dialect adapters                                        *)
(* ===================================================================== *)

Import GoStrings.

(** The line feed, Go's ["\n"]. *)
Definition nl : string := String "010"%char EmptyString.

(** [type Migratable interface]: five SQL texts and the splitting policy. *)
Record Migratable := {
  SelectMigrationTableSql : string;
  CreateMigrationTableSql : string;
  GetMigrationSql : string;
  MigrationLogInsertSql : string;
  MigrationLogDeleteSql : string;
  GetMigrationCommands : string -> list string
}.

(** [Postgres.GetMigrationCommands] (also SQLite3 and MsSQL): the script is
    one statement. *)
Definition Postgres_GetMigrationCommands (sql : string) : list string := [sql].

Definition Postgres : Migratable := {|
  SelectMigrationTableSql :=
    "SELECT tablename FROM pg_catalog.pg_tables WHERE tablename = $1";
  CreateMigrationTableSql :=
    "CREATE TABLE gomigrate (
                  id           SERIAL       PRIMARY KEY,
                  migration_id BIGINT       UNIQUE NOT NULL
                )";
  GetMigrationSql := "SELECT migration_id FROM gomigrate WHERE migration_id = $1";
  MigrationLogInsertSql := "INSERT INTO gomigrate (migration_id) values ($1)";
  MigrationLogDeleteSql := "DELETE FROM gomigrate WHERE migration_id = $1";
  GetMigrationCommands := Postgres_GetMigrationCommands
|}.

(** [type CockroachDB struct { Postgres }] *)
Definition CockroachDB : Migratable := Postgres.

Definition Sqlite3 : Migratable := {|
  SelectMigrationTableSql :=
    "SELECT name FROM sqlite_master WHERE type = 'table' AND name = ?";
  CreateMigrationTableSql :=
    "CREATE TABLE gomigrate (
  id INTEGER PRIMARY KEY,
  migration_id INTEGER NOT NULL UNIQUE
)";
  GetMigrationSql := "SELECT migration_id FROM gomigrate WHERE migration_id = ?";
  MigrationLogInsertSql := "INSERT INTO gomigrate (migration_id) values (?)";
  MigrationLogDeleteSql := "DELETE FROM gomigrate WHERE migration_id = ?";
  GetMigrationCommands := fun sql => [sql]
|}.

Section MysqlFamily.

(** The two library functions the splitter calls that are not modelled
    byte by byte: [strings.explode] (empty separator) and
    [strconv.Unquote], [Some] standing for a nil error. *)
Variable explode : string -> Z -> list string.
Variable Unquote : string -> option string.

(** [Mysql.GetMigrationCommands] ([MySQL.GetMigrationCommands] in db.go has
    the same body). *)
Definition Mysql_GetMigrationCommands (sql : string) : list string :=
  let delimiter := ";" in
  if HasPrefix sql "delimiter " then
    let delimiterOffset := len "delimiter " in
    let contentSplit := SplitN explode (slice_from delimiterOffset sql) nl 2 in
    let delimiter := TrimSpace (default "" (contentSplit !! 0%nat)) in
    let sql := if (1 <? length contentSplit)%nat
               then default "" (contentSplit !! 1%nat) else "" in
    let delimiter := match Unquote delimiter with
                     | Some delimiterUnquoted => delimiterUnquoted
                     | None => delimiter
                     end in
    Split explode sql delimiter
  else Split explode sql delimiter.

Definition Mysql : Migratable := {|
  SelectMigrationTableSql :=
    "SELECT table_name FROM information_schema.tables WHERE table_name = ? AND table_schema = (SELECT DATABASE())";
  CreateMigrationTableSql :=
    "CREATE TABLE gomigrate (
                  id           INT          NOT NULL AUTO_INCREMENT,
                  migration_id BIGINT       NOT NULL UNIQUE,
                  PRIMARY KEY (id)
                )";
  GetMigrationSql := "SELECT migration_id FROM gomigrate WHERE migration_id = ?";
  MigrationLogInsertSql := "INSERT INTO gomigrate (migration_id) values (?)";
  MigrationLogDeleteSql := "DELETE FROM gomigrate WHERE migration_id = ?";
  GetMigrationCommands := Mysql_GetMigrationCommands
|}.

(** [type Mariadb struct { Mysql }] *)
Definition Mariadb : Migratable := Mysql.

(** ** The splitting policy as the specification words it *)

(** The first line of a script: the bytes before the first line feed, the
    whole script when there is none. *)
Definition first_line (script : string) : string :=
  match Index script nl with
  | Some m => slice_to m script
  | None => script
  end.

(** The script with its first line (and that line's line feed) removed. *)
Definition without_first_line (script : string) : string :=
  match Index script nl with
  | Some m => slice_from (S m) script
  | None => ""
  end.

(** "after trimming surrounding whitespace and, if it parses as a quoted
      literal, unquoting it". *)
Definition directive_delimiter (line : string) : string :=
  let trimmed := TrimSpace (slice_from (len "delimiter ") line) in
  match Unquote trimmed with
  | Some unquoted => unquoted
  | None => trimmed
  end.

Definition split_by_directive (script : string) : list string :=
  if HasPrefix (first_line script) "delimiter "
  then Split explode (without_first_line script)
                     (directive_delimiter (first_line script))
  else Split explode script ";".

End MysqlFamily.

(** The script of the delimiter example: first line [delimiter #], then
    two statements, each ended by [#]. *)
Definition directive_example : string :=
  "delimiter #" +:+ nl +:+ "CREATE TABLE t(x int)#CREATE TABLE u(y int)#".

(** Instances used to run the splitter.  [explode_bytes] cuts after every
    byte, which is what [strings.explode] does on ASCII text.
    [UnquotePlain] agrees with [strconv.Unquote] on the texts it accepts:
    back-quoted literals (carriage returns are dropped) and double-quoted
    ASCII literals without escape sequence, quote or line feed; it rejects
    every other text, in particular every text shorter than two bytes
    ([strconv.Unquote] accepts more: escape sequences, UTF-8 text,
    single-quoted runes). *)
Definition explode_bytes (s : string) (n : Z) : list string :=
  map (fun c => String c EmptyString) (list_ascii_of_string s).

Definition last_byte (s : string) : option ascii := last (list_ascii_of_string s).

Definition contains (s sub : string) : bool :=
  match Index s sub with Some _ => true | None => false end.

Definition UnquotePlain (s : string) : option string :=
  match s with
  | String q rest =>
      if decide (last_byte rest = Some q) then
        let inner := slice_to (len rest - 1) rest in
        if decide (q = "`"%char) then
          if contains inner "`" then None
          else Some (string_of_list_ascii
                       (List.filter (fun c => negb (Ascii.eqb c "013"%char))
                                    (list_ascii_of_string inner)))
        else if decide (q = "034"%char) then
          if contains inner (String q EmptyString) || contains inner (String "092"%char EmptyString)
             || contains inner nl
             || negb (forallb (fun c => (nat_of_ascii c <? 128)%nat)
                              (list_ascii_of_string inner))
          then None else Some inner
        else None
      else None
  | EmptyString => None
  end.

(* ===================================================================== *)
(** * Part 3: values, errors and the outside world                        *)
(* ===================================================================== *)

(** Errors that come from outside the package ([database/sql], the driver,
    the filesystem).  [ErrNoRows] is [sql.ErrNoRows]; the others are only
    told apart by a code. *)
Inductive exterr :=
| ErrNoRows
| ExtErr (code : N).

(** The values of Go's [error] that the package returns: its own sentinels
    ([errors.New]), [*ErrInvalidMigration], an [fmt.Errorf] wrapping, or an
    outside error passed through unchanged.  The loader refers to the
    invalid-pair sentinel as [ErrInvalidMigrationPair]; it is the one
    gomigrate.go declares as [InvalidMigrationPair]. *)
Inductive error :=
| InvalidMigrationFile
| InvalidMigrationPair
| InvalidMigrationType
| ErrDuplicateMigration
| ErrInvalidMigration (id : N) (name reason : string)
| Errorf (format : string) (cause : exterr)
| External (e : exterr).

(** [type migrationType string] *)
Definition migrationType := string.
Definition migrationTableName : string := "gomigrate".
Definition upMigration : migrationType := "up".
Definition downMigration : migrationType := "down".

(** Arguments of SQL statements and of log calls. *)
Inductive value :=
| VString (s : string)
| VUint64 (n : N)
| VInt (z : Z)
| VError (e : error).

Inductive LogMethod := Print | Printf | Println | Fatalf.

(** [sql.Result]: [RowsAffected()] gives a count or an error. *)
Inductive RowsAffected :=
| Rows (n : Z)
| RowsError (e : exterr).

(** [(sql.Result, error)] of [Tx.Exec]; the result may be nil. *)
Inductive exec_result :=
| ExecError (e : exterr)
| ExecResult (r : option RowsAffected).

(** What the engine does to the outside, in the order it happens: calls of
    the [Logger], and calls on the database handle, on the transaction or on
    a statement's result, each with the answer it got ([None] is a nil
    error). *)
Inductive Event :=
| Log (method : LogMethod) (format : string) (args : list value)
| DbQueryRow (query : string) (args : list value) (err : option exterr)
| DbExec (query : string) (args : list value) (err : option exterr)
| DbBegin (err : option exterr)
| TxExec (query : string) (args : list value) (r : exec_result)
| ResultRowsAffected (r : RowsAffected)
| TxRollback (err : option exterr)
| TxCommit (err : option exterr).

(** The database capability.  [DB] is the state of the database as the
    driver sees it (the open transaction included); every call may change it
    and answers from it.  [QueryRow] stands for [QueryRow(..).Scan(..)];
    [None] is a nil error. *)
Record Driver (DB : Type) := {
  drvQueryRow : string -> list value -> DB -> DB * option exterr;
  drvExec : string -> list value -> DB -> DB * option exterr;
  drvBegin : DB -> DB * option exterr;
  drvTxExec : string -> list value -> DB -> DB * exec_result;
  drvTxRollback : DB -> DB * option exterr;
  drvTxCommit : DB -> DB * option exterr
}.
Arguments drvQueryRow {DB}.
Arguments drvExec {DB}.
Arguments drvBegin {DB}.
Arguments drvTxExec {DB}.
Arguments drvTxRollback {DB}.
Arguments drvTxCommit {DB}.

(** The filesystem capability of the loader: [filepath.Glob] and
    [ioutil.ReadFile]. *)
Inductive fsresult (A : Type) :=
| FsOk (a : A)
| FsErr (e : exterr).
Arguments FsOk {A}.
Arguments FsErr {A}.

Record FileSystem := {
  Glob : string -> fsresult (list string);
  ReadFile : string -> fsresult string
}.

(** [type Logger interface].  The print methods only emit; [Fatalf] emits and
    then either ends the process (the standard [log.Logger] calls
    [os.Exit(1)]) or returns, as a caller-supplied implementation may. *)
Record Logger := { Fatalf_exits : bool }.
Definition stdLogger : Logger := {| Fatalf_exits := true |}.

(** Ways a call ends without returning. *)
Inductive halt :=
| IndexOutOfRange (index : Z) (length : nat)
| NilDereference
| OsExit (code : Z).

Record World (DB : Type) := { db : DB; trace : list Event }.
Arguments db {DB}.
Arguments trace {DB}.

Inductive Outcome (DB A : Type) :=
| Done (a : A) (w : World DB)
| Halted (h : halt) (w : World DB).
Arguments Done {DB A}.
Arguments Halted {DB A}.

(** The world in which an outcome leaves the process. *)
Definition world_of {DB A} (o : Outcome DB A) : World DB :=
  match o with Done _ w => w | Halted _ w => w end.

(** A computation that reads and changes the world and may halt. *)
Definition M (DB A : Type) : Type := World DB -> Outcome DB A.

Definition ret {DB A} (a : A) : M DB A := fun w => Done a w.

Definition bind {DB A B} (c : M DB A) (k : A -> M DB B) : M DB B :=
  fun w => match c w with
           | Done a w' => k a w'
           | Halted h w' => Halted h w'
           end.

Definition panic {DB A} (h : halt) : M DB A := fun w => Halted h w.

Declare Scope go_scope.
Delimit Scope go_scope with go.
Notation "x <- c ;; k" := (bind c (fun x => k))
  (at level 100, c at next level, right associativity) : go_scope.
Notation "c ;;; k" := (bind c (fun _ => k))
  (at level 100, right associativity) : go_scope.
Local Open Scope go_scope.

Definition emit {DB} (e : Event) : M DB unit :=
  fun w => Done tt {| db := db w; trace := trace w ++ [e] |}.

(** A driver call: the database moves on, the call is recorded with its
    answer. *)
Definition call {DB A} (e : A -> Event) (f : DB -> DB * A) : M DB A :=
  fun w => let r := f (db w) in
           Done (snd r) {| db := fst r; trace := trace w ++ [e (snd r)] |}.

Definition logPrint {DB} (msg : string) : M DB unit := emit (Log Print msg []).
Definition logPrintf {DB} (format : string) (args : list value) : M DB unit :=
  emit (Log Printf format args).
Definition logFatalf {DB} (l : Logger) (format : string) (args : list value) : M DB unit :=
  emit (Log Fatalf format args) ;;;
  if Fatalf_exits l then panic (OsExit 1) else ret tt.

(* ===================================================================== *)
(** * Part 4: migration.go                                                *)
(* ===================================================================== *)

(** Migration statuses ([iota]). *)
Definition Inactive : Z := 0.
Definition Active : Z := 1.

(** [type Migration struct] *)
Record Migration := {
  ID : N;
  Name : string;
  Status : Z;
  Up : string;
  Down : string;
  Source : string
}.

Definition set_Status (st : Z) (m : Migration) : Migration :=
  {| ID := ID m; Name := Name m; Status := st;
     Up := Up m; Down := Down m; Source := Source m |}.
Definition set_Up (sql : string) (m : Migration) : Migration :=
  {| ID := ID m; Name := Name m; Status := Status m;
     Up := sql; Down := Down m; Source := Source m |}.
Definition set_Down (sql : string) (m : Migration) : Migration :=
  {| ID := ID m; Name := Name m; Status := Status m;
     Up := Up m; Down := sql; Source := Source m |}.
Definition set_Source (src : string) (m : Migration) : Migration :=
  {| ID := ID m; Name := Name m; Status := Status m;
     Up := Up m; Down := Down m; Source := src |}.

(** [func (m *Migration) Validate() error] *)
Definition Validate (m : Migration) : option error :=
  if (ID m =? 0)%N then Some (ErrInvalidMigration (ID m) (Name m) "Id can't be zero")
  else if String.eqb (Name m) "" then
    Some (ErrInvalidMigration (ID m) (Name m) "Name can't be empty")
  else None.

(** A [*Migration] held by a [map[uint64]*Migration] is represented by the
    key under which the map holds it: the map is built once and never
    re-keyed, so reading or writing through the pointer is a lookup or an
    insert at that key. *)
Abbreviation ptr := N (only parsing).

(** The pointers a [range] over the map yields, in the order [order] Go
    happens to choose for this loop. *)
Definition range_map (order : list ptr) (migrations : gmap N Migration)
  : list (ptr * Migration) :=
  omap (fun p => (fun mig => (p, mig)) <$> migrations !! p) order.

Section Loader.

Context {DB : Type}.

(** [parseMigrationPath] is declared in a file that is not among the
    sources; the loader is given it: [None] is a non-nil error, [Some
    (num, migrationType, name)] the three results. *)
Variable parseMigrationPath : string -> option (N * migrationType * string).
Variable fs : FileSystem.

(** The path normalisation: [path[pathLength-1]] is read before anything
    else. *)
Definition normalize_path (migrationsPath : string) : M DB string :=
  let path := migrationsPath in
  let pathLength := len path in
  match last_byte path with
  | None => panic (IndexOutOfRange (Z.of_nat pathLength - 1) pathLength)
  | Some c => if decide (c = "/"%char) then ret path else ret (path +:+ "/")
  end.

(** The body of the loop over the glob matches: [inl] is an early return
    of the whole function. *)
Fixpoint load_matches (matches : list string) (migrations : gmap N Migration)
  : M DB (error + gmap N Migration) :=
  match matches with
  | [] => ret (inr migrations)
  | match_ :: rest =>
      match parseMigrationPath match_ with
      | None =>
          logPrintf "Invalid migration file found: %s\n" [VString match_] ;;;
          load_matches rest migrations
      | Some (num, migrationType, name) =>
          logPrintf "Migration file found: %s\n" [VString match_] ;;;
          match ReadFile fs match_ with
          | FsErr e =>
              logPrintf "Error reading migration: %s" [VString match_] ;;;
              ret (inl (External e))
          | FsOk sql =>
              match migrations !! num with
              | Some m =>
                  let m := set_Source (Source m +:+ " " +:+ match_) m in
                  let m := if String.eqb migrationType upMigration
                           then set_Up sql m else set_Down sql m in
                  load_matches rest (<[num := m]> migrations)
              | None =>
                  let migration :=
                    {| ID := num; Name := name; Source := match_;
                       Status := Inactive; Up := ""; Down := "" |} in
                  let migration := if String.eqb migrationType upMigration
                                   then set_Up sql migration
                                   else set_Down sql migration in
                  load_matches rest (<[num := migration]> migrations)
              end
          end
      end
  end.

(** The validation loop. *)
Fixpoint validate_all (ms : list (ptr * Migration)) : M DB (option error) :=
  match ms with
  | [] => ret None
  | (_, migration) :: rest =>
      match Validate migration with
      | Some _ =>
          logPrintf "Invalid migration from files: %s\n" [VString (Source migration)] ;;;
          ret (Some InvalidMigrationPair)
      | None => validate_all rest
      end
  end.

(** [func MigrationsFromPath(migrationsPath string, logger Logger)
    ([]*Migration, error)]; [order1] and [order2] are the orders of its two
    [range] loops over the map. *)
Definition MigrationsFromPath (order1 order2 : list ptr) (migrationsPath : string)
  : M DB (error + list Migration) :=
  path <- normalize_path migrationsPath ;;
  logPrintf "Migrations path: %s" [VString path] ;;;
  let pathGlob := path +:+ "*" in
  match Glob fs pathGlob with
  | FsErr err => ret (inl (Errorf "Error while globbing migrations: %v" err))
  | FsOk matches =>
      r <- load_matches matches ∅ ;;
      match r with
      | inl err => ret (inl err)
      | inr migrations =>
          err <- validate_all (range_map order1 migrations) ;;
          match err with
          | Some e => ret (inl e)
          | None =>
              logPrintf "Migrations file pairs found: %v\n"
                        [VInt (Z.of_nat (size migrations))] ;;;
              ret (inr (map snd (range_map order2 migrations)))
          end
      end
  end.

End Loader.

(* ===================================================================== *)
(** * Part 5: gomigrate.go                                                *)
(* ===================================================================== *)

(** [type Migrator struct]; the [DB] handle is the database of the world. *)
Record Migrator := {
  MigrationsPath : string;
  dbAdapter : Migratable;
  migrations : gmap N Migration;
  logger : Logger
}.

(** Writing through a migration pointer held by the map. *)
Definition store (p : ptr) (mig : Migration) (m : Migrator) : Migrator :=
  {| MigrationsPath := MigrationsPath m; dbAdapter := dbAdapter m;
     migrations := <[p := mig]> (migrations m); logger := logger m |}.

(** Go's [int] is taken to be 64 bits wide; [wrap_int] is the value an
    arithmetic result is reduced to. *)
Definition wrap_int (z : Z) : Z := (z + 2 ^ 63) mod 2 ^ 64 - 2 ^ 63.

(** [func NewMigratorWithMigrations(db, adapter, migrations)]: the loop over
    the given migrations, [inl] being the error return. *)
Fixpoint add_migrations (ms : list Migration) (acc : gmap N Migration)
  : error + gmap N Migration :=
  match ms with
  | [] => inr acc
  | m :: rest =>
      let m := set_Status Inactive m in
      match Validate m with
      | Some err => inl err
      | None =>
          match acc !! ID m with
          | Some _ => inl ErrDuplicateMigration
          | None => add_migrations rest (<[ID m := m]> acc)
          end
      end
  end.

Definition NewMigratorWithMigrations (adapter : Migratable) (ms : list Migration)
  : error + Migrator :=
  match add_migrations ms ∅ with
  | inl err => inl err
  | inr migs => inr {| MigrationsPath := ""; dbAdapter := adapter;
                       migrations := migs; logger := stdLogger |}
  end.

(** Modelled from the spec: [uint64slice], the [sort.Interface] that
    [Migrations] hands to [sort.Sort], is declared in a file that is not
    among the sources; the spec fixes the order of the collection as the
    ascending numeric order of the ids. *)
Definition sort_uint64slice (ids : list N) : list N := merge_sort N.le ids.

(** [func (m *Migrator) Migrations(status int) []*Migration]: the ids are
    collected (in whatever order the map yields them), sorted
    ([sort.Sort(uint64slice(ids))]) and filtered by status; [-1] selects
    all. *)
Definition sorted_ids (m : Migrator) : list ptr :=
  sort_uint64slice (map fst (map_to_list (migrations m))).

Definition has_status (status : Z) (m : Migrator) (id : ptr) : bool :=
  match migrations m !! id with
  | Some migration => (status =? -1) || (Status migration =? status)
  | None => false
  end.

Definition Migrations (status : Z) (m : Migrator) : list ptr :=
  List.filter (has_status status m) (sorted_ids m).

Section Engine.

Context {DB : Type}.
Variable drv : Driver DB.

Definition dbQueryRow (query : string) (args : list value) : M DB (option exterr) :=
  call (DbQueryRow query args) (drvQueryRow drv query args).
Definition dbExec (query : string) (args : list value) : M DB (option exterr) :=
  call (DbExec query args) (drvExec drv query args).
Definition dbBegin : M DB (option exterr) := call DbBegin (drvBegin drv).
Definition txExec (query : string) (args : list value) : M DB exec_result :=
  call (TxExec query args) (drvTxExec drv query args).
Definition txRollback : M DB (option exterr) := call TxRollback (drvTxRollback drv).
Definition txCommit : M DB (option exterr) := call TxCommit (drvTxCommit drv).

(** [func (m *Migrator) MigrationTableExists() (bool, error)] *)
Definition MigrationTableExists (m : Migrator) : M DB (bool * option error) :=
  err <- dbQueryRow (SelectMigrationTableSql (dbAdapter m))
                    [VString migrationTableName] ;;
  match err with
  | Some ErrNoRows =>
      logPrint "Migrations table not found" ;;;
      ret (false, None)
  | Some e =>
      logPrintf "Error checking for migration table: %v" [VError (External e)] ;;;
      ret (false, Some (External e))
  | None =>
      logPrint "Migrations table found" ;;;
      ret (true, None)
  end.

(** [func (m *Migrator) CreateMigrationsTable() error] *)
Definition CreateMigrationsTable (m : Migrator) : M DB (option error) :=
  err <- dbExec (CreateMigrationTableSql (dbAdapter m)) [] ;;
  match err with
  | Some e => logFatalf (logger m) "Error creating migrations table: %v"
                        [VError (External e)]
  | None => ret tt
  end ;;;
  logPrintf "Created migrations table: %s" [VString migrationTableName] ;;;
  ret None.

(** [func (m *Migrator) getMigrationStatuses() error]; [order] is the order
    of its [range] over the map. *)
Fixpoint status_loop (ps : list ptr) (m : Migrator) : M DB (option error * Migrator) :=
  match ps with
  | [] => ret (None, m)
  | p :: rest =>
      match migrations m !! p with
      | None => status_loop rest m
      | Some migration =>
          err <- dbQueryRow (GetMigrationSql (dbAdapter m)) [VUint64 (ID migration)] ;;
          match err with
          | Some ErrNoRows => status_loop rest m
          | Some e =>
              logPrintf "Error getting migration status for %s: %v"
                        [VString (Name migration); VError (External e)] ;;;
              ret (Some (External e), m)
          | None => status_loop rest (store p (set_Status Active migration) m)
          end
      end
  end.

Definition getMigrationStatuses (order : list ptr) (m : Migrator)
  : M DB (option error * Migrator) :=
  status_loop order m.

(** The error path shared by the three failures inside a transaction:
    roll back, and report the rollback's own failure if it has one. *)
Definition rollback_and_return (err : exterr) : M DB (option error) :=
  rollbackErr <- txRollback ;;
  match rollbackErr with
  | Some re =>
      logPrintf "Error rolling back transaction: %v" [VError (External re)] ;;;
      ret (Some (External re))
  | None => ret (Some (External err))
  end.

(** The loop over the commands of one script; [Some] is an early return
    of [ApplyMigration]. *)
Fixpoint exec_commands (commands : list string) : M DB (option error) :=
  match commands with
  | [] => ret None
  | cmd :: rest =>
      r <- txExec cmd [] ;;
      match r with
      | ExecError err =>
          logPrintf "Error executing migration: %v" [VError (External err)] ;;;
          rollback_and_return err
      | ExecResult None => exec_commands rest
      | ExecResult (Some result) =>
          emit (ResultRowsAffected result) ;;;
          match result with
          | RowsError err =>
              logPrintf "Error getting rows affected: %v" [VError (External err)] ;;;
              rollback_and_return err
          | Rows rowsAffected =>
              logPrintf "Rows affected: %v" [VInt rowsAffected] ;;;
              exec_commands rest
          end
      end
  end.

(** The script selected by the first [if] of [ApplyMigration]. *)
Definition select_script (migration : Migration) (mType : migrationType)
  : option string :=
  if String.eqb mType upMigration && negb (String.eqb (Up migration) "")
  then Some (Up migration)
  else if String.eqb mType downMigration && negb (String.eqb (Down migration) "")
  then Some (Down migration)
  else None.

(** [func (m *Migrator) ApplyMigration(migration *Migration, mType
    migrationType) error]: the migration is passed in and handed back, the
    second component being the pointee when the call returns. *)
Definition ApplyMigration (m : Migrator) (migration : Migration) (mType : migrationType)
  : M DB (option error * Migration) :=
  logPrintf "Applying migration: %s" [VString (Name migration)] ;;;
  match select_script migration mType with
  | None => ret (Some InvalidMigrationType, migration)
  | Some sql =>
      err <- dbBegin ;;
      match err with
      | Some e =>
          logPrintf "Error opening transaction: %v" [VError (External e)] ;;;
          ret (Some (External e), migration)
      | None =>
          let commands := GetMigrationCommands (dbAdapter m) sql in
          r <- exec_commands commands ;;
          match r with
          | Some e => ret (Some e, migration)
          | None =>
              r <- (if String.eqb mType upMigration
                    then txExec (MigrationLogInsertSql (dbAdapter m)) [VUint64 (ID migration)]
                    else txExec (MigrationLogDeleteSql (dbAdapter m)) [VUint64 (ID migration)]) ;;
              match r with
              | ExecError err =>
                  logPrintf "Error logging migration: %v" [VError (External err)] ;;;
                  e <- rollback_and_return err ;;
                  ret (e, migration)
              | ExecResult _ =>
                  err <- txCommit ;;
                  match err with
                  | Some e =>
                      logPrintf "Error commiting transaction: %v" [VError (External e)] ;;;
                      ret (Some (External e), migration)
                  | None =>
                      if String.eqb mType upMigration
                      then ret (None, set_Status Active migration)
                      else ret (None, set_Status Inactive migration)
                  end
              end
          end
      end
  end.

(** [m.ApplyMigration(p, mType)] for a pointer [p] taken from the map. *)
Definition apply_at (p : ptr) (mType : migrationType) (m : Migrator)
  : M DB (option error * Migrator) :=
  match migrations m !! p with
  | None => panic NilDereference
  | Some migration =>
      r <- ApplyMigration m migration mType ;;
      ret (fst r, store p (snd r) m)
  end.

(** The loop of [Migrate] over [m.Migrations(Inactive)]. *)
Fixpoint migrate_loop (ps : list ptr) (m : Migrator) : M DB (option error * Migrator) :=
  match ps with
  | [] => ret (None, m)
  | p :: rest =>
      r <- apply_at p upMigration m ;;
      match fst r with
      | Some err => ret (Some err, snd r)
      | None => migrate_loop rest (snd r)
      end
  end.

(** [func (m *Migrator) Migrate() error] *)
Definition Migrate (order : list ptr) (m : Migrator) : M DB (option error * Migrator) :=
  r <- MigrationTableExists m ;;
  match snd r with
  | Some err => ret (Some err, m)
  | None =>
      err <- (if negb (fst r) then CreateMigrationsTable m else ret None) ;;
      match err with
      | Some e => ret (Some e, m)
      | None =>
          r <- getMigrationStatuses order m ;;
          match fst r with
          | Some e => ret (Some e, snd r)
          | None => migrate_loop (Migrations Inactive (snd r)) (snd r)
          end
      end
  end.

(** The loop of [RollbackN]:
    [for i := len(migrations) - 1; i != lastMigration; i--].
    [k] is [i + 1]; the loop starts at a valid index and only counts
    down, so indexing goes wrong exactly when [i] reaches [-1]. *)
Fixpoint rollback_loop (migs : list ptr) (lastMigration : Z) (k : nat) (m : Migrator)
  : M DB (option error * Migrator) :=
  if Z.of_nat k - 1 =? lastMigration then ret (None, m)
  else
    match k with
    | O => panic (IndexOutOfRange (-1) (length migs))
    | S i =>
        match migs !! i with
        | None => panic (IndexOutOfRange (Z.of_nat i) (length migs))
        | Some p =>
            r <- apply_at p downMigration m ;;
            match fst r with
            | Some err => ret (Some err, snd r)
            | None => rollback_loop migs lastMigration i (snd r)
            end
        end
    end.

(** [func (m *Migrator) RollbackN(n int) error] *)
Definition RollbackN (order : list ptr) (n : Z) (m : Migrator)
  : M DB (option error * Migrator) :=
  r <- getMigrationStatuses order m ;;
  match fst r with
  | Some err => ret (Some err, snd r)
  | None =>
      let m := snd r in
      let migs := Migrations Active m in
      if (length migs =? 0)%nat then ret (None, m)
      else
        let lastMigration := wrap_int (Z.of_nat (length migs) - 1 - n) in
        rollback_loop migs lastMigration (length migs) m
  end.

(** [func (m *Migrator) Rollback() error] *)
Definition Rollback (order : list ptr) (m : Migrator) : M DB (option error * Migrator) :=
  RollbackN order 1 m.

(** [func (m *Migrator) RollbackAll() error] *)
Definition RollbackAll (order : list ptr) (m : Migrator) : M DB (option error * Migrator) :=
  let migs := Migrations Active m in
  RollbackN order (Z.of_nat (length migs)) m.

End Engine.

(* ===================================================================== *)
(** * Part 6: instances used to run the engine                            *)
(* ===================================================================== *)

(** ** File names *)

Definition strip_suffix (suffix s : string) : option string :=
  if HasPrefix (string_rev s) (string_rev suffix)
  then Some (slice_to (len s - len suffix) s) else None.

(** The last element of a slash-separated path. *)
Definition base_name (path : string) : string :=
  match Index (string_rev path) "/" with
  | Some m => slice_from (len path - m) path
  | None => path
  end.

Definition digit_value (c : ascii) : option N :=
  let n := N_of_ascii c in
  if (48 <=? n)%N && (n <=? 57)%N then Some (n - 48)%N else None.

Fixpoint decimal_loop (cs : list ascii) (acc : N) : option N :=
  match cs with
  | [] => Some acc
  | c :: rest =>
      match digit_value c with
      | Some d => decimal_loop rest (10 * acc + d)%N
      | None => None
      end
  end.

Definition parse_decimal (s : string) : option N :=
  match list_ascii_of_string s with
  | [] => None
  | cs => decimal_loop cs 0%N
  end.

(** Modelled from the spec: [parseMigrationPath], whose file is not among
    the sources.  The spec fixes the file-name contract
    [{id}_{name}_{up|down}.sql], [id] being a non-zero unsigned integer, and
    says that files not matching it are skipped. *)
Definition parseMigrationPath_spec (path : string)
  : option (N * migrationType * string) :=
  stem ← strip_suffix ".sql" (base_name path);
  '(body, mType) ← match strip_suffix "_up" stem with
                   | Some body => Some (body, upMigration)
                   | None => (fun body => (body, downMigration))
                               <$> strip_suffix "_down" stem
                   end;
  m ← Index body "_";
  num ← parse_decimal (slice_to m body);
  if (num =? 0)%N then None
  else Some (num, mType, slice_from (S m) body).

(** ** A reference database

    The metadata table as the adapters create it: a flag for its existence
    and the set of recorded ids (the column is UNIQUE), with a working copy
    for the open transaction.  A script command succeeds unless it is the
    text [FAIL]. *)
Record MemDB := {
  mem_table : bool;
  mem_rows : list N;
  mem_tx : list N
}.

Definition mem_empty : MemDB := {| mem_table := false; mem_rows := []; mem_tx := [] |}.

Definition memQueryRow (ad : Migratable) (query : string) (args : list value) (d : MemDB)
  : MemDB * option exterr :=
  if String.eqb query (SelectMigrationTableSql ad) then
    (d, if mem_table d then None else Some ErrNoRows)
  else if String.eqb query (GetMigrationSql ad) then
    match args with
    | [VUint64 id] =>
        if negb (mem_table d) then (d, Some (ExtErr 1))
        else if bool_decide (id ∈ mem_rows d) then (d, None)
        else (d, Some ErrNoRows)
    | _ => (d, Some (ExtErr 2))
    end
  else (d, Some (ExtErr 2)).

Definition memExec (ad : Migratable) (query : string) (args : list value) (d : MemDB)
  : MemDB * option exterr :=
  if String.eqb query (CreateMigrationTableSql ad) then
    if mem_table d then (d, Some (ExtErr 3))
    else ({| mem_table := true; mem_rows := []; mem_tx := [] |}, None)
  else (d, Some (ExtErr 2)).

Definition memBegin (d : MemDB) : MemDB * option exterr :=
  ({| mem_table := mem_table d; mem_rows := mem_rows d; mem_tx := mem_rows d |}, None).

Definition memTxExec (ad : Migratable) (query : string) (args : list value) (d : MemDB)
  : MemDB * exec_result :=
  let with_tx tx := {| mem_table := mem_table d; mem_rows := mem_rows d; mem_tx := tx |} in
  match args with
  | [VUint64 id] =>
      if String.eqb query (MigrationLogInsertSql ad) then
        if bool_decide (id ∈ mem_tx d) then (d, ExecError (ExtErr 4))
        else (with_tx (id :: mem_tx d), ExecResult (Some (Rows 1)))
      else if String.eqb query (MigrationLogDeleteSql ad) then
        (with_tx (List.filter (fun x => negb (x =? id)%N) (mem_tx d)),
         ExecResult (Some (Rows (if bool_decide (id ∈ mem_tx d) then 1 else 0))))
      else (d, ExecError (ExtErr 2))
  | _ =>
      if String.eqb query "FAIL" then (d, ExecError (ExtErr 5))
      else (d, ExecResult (Some (Rows 0)))
  end.

Definition memTxRollback (d : MemDB) : MemDB * option exterr :=
  ({| mem_table := mem_table d; mem_rows := mem_rows d; mem_tx := [] |}, None).

Definition memTxCommit (d : MemDB) : MemDB * option exterr :=
  ({| mem_table := mem_table d; mem_rows := mem_tx d; mem_tx := [] |}, None).

Definition memDriver (ad : Migratable) : Driver MemDB := {|
  drvQueryRow := memQueryRow ad;
  drvExec := memExec ad;
  drvBegin := memBegin;
  drvTxExec := memTxExec ad;
  drvTxRollback := memTxRollback;
  drvTxCommit := memTxCommit
|}.

(** A directory given by its listing: [Glob] answers the one pattern
    [dir/*] with the paths in the order given, [ReadFile] with the contents. *)
Definition dir_fs (dir : string) (files : list (string * string)) : FileSystem := {|
  Glob := fun pattern =>
    if String.eqb pattern (dir +:+ "/*")
    then FsOk (map (fun f => dir +:+ "/" +:+ fst f) files) else FsOk [];
  ReadFile := fun path =>
    match List.find (fun f => String.eqb (dir +:+ "/" +:+ fst f) path) files with
    | Some f => FsOk (snd f)
    | None => FsErr (ExtErr 6)
    end
|}.

(** The two migrations of the end-to-end example. *)
Definition users_migration : Migration :=
  {| ID := 1; Name := "users"; Status := Inactive;
     Up := "CREATE TABLE users()"; Down := "DROP TABLE users"; Source := "" |}.
Definition posts_migration : Migration :=
  {| ID := 2; Name := "posts"; Status := Inactive;
     Up := "CREATE TABLE posts()"; Down := "DROP TABLE posts"; Source := "" |}.

Definition example_migrator : Migrator :=
  {| MigrationsPath := ""; dbAdapter := Postgres;
     migrations := <[1%N := users_migration]> (<[2%N := posts_migration]> ∅);
     logger := stdLogger |}.

Definition fresh_world : World MemDB := {| db := mem_empty; trace := [] |}.

(** A database in which the metadata table already exists (so that creating
    it again fails), and the example migrator with a logger whose [Fatalf]
    returns. *)
Definition world_with_table : World MemDB :=
  {| db := {| mem_table := true; mem_rows := []; mem_tx := [] |}; trace := [] |}.

Definition returning_logger_migrator : Migrator :=
  {| MigrationsPath := ""; dbAdapter := Postgres;
     migrations := migrations example_migrator;
     logger := {| Fatalf_exits := false |} |}.

(** The example migrator and its database after a first [Migrate]. *)
Definition migrated_example : Migrator * World MemDB :=
  match Migrate (memDriver Postgres) [1%N; 2%N] example_migrator fresh_world with
  | Done r w => (snd r, w)
  | Halted _ w => (example_migrator, w)
  end.

(** The same after the status synchronisation that opens a rollback. *)
Definition synced_example : Migrator * World MemDB :=
  match getMigrationStatuses (memDriver Postgres) [1%N; 2%N]
          (fst migrated_example) (snd migrated_example) with
  | Done r w => (snd r, w)
  | Halted _ w => (fst migrated_example, w)
  end.

(* ===================================================================== *)
(** * Part 7: notions used to state the properties                        *)
(* ===================================================================== *)

(** The calls on the database in a trace: everything but the log. *)
Definition is_db_event (e : Event) : bool :=
  match e with Log _ _ _ => false | _ => true end.
Definition db_events (tr : list Event) : list Event := List.filter is_db_event tr.

(** The calls that belong to a transaction. *)
Definition is_tx_event (e : Event) : bool :=
  match e with
  | DbBegin _ | TxExec _ _ _ | ResultRowsAffected _ | TxRollback _ | TxCommit _ => true
  | _ => false
  end.

(** A statement that was accepted, or a row count that was delivered. *)
Definition clean (e : Event) : Prop :=
  match e with
  | TxExec _ _ (ExecResult _) => True
  | ResultRowsAffected (Rows _) => True
  | _ => False
  end.

(** A failure inside the transaction and the error it carried. *)
Inductive tx_failure : Event -> exterr -> Prop :=
| exec_failure query args err : tx_failure (TxExec query args (ExecError err)) err
| rows_failure err : tx_failure (ResultRowsAffected (RowsError err)) err.

(** The status a migration has after a committed application. *)
Definition applied_status (mType : migrationType) : Z :=
  if String.eqb mType upMigration then Active else Inactive.

(** The five ways one application can go, read off the database calls it
    made: the returned error and the migration afterwards. *)
Inductive apply_outcome (migration : Migration) (mType : migrationType)
  : list Event -> option error -> Migration -> Prop :=
| outcome_invalid_type :
    apply_outcome migration mType [] (Some InvalidMigrationType) migration
| outcome_begin_failed err :
    apply_outcome migration mType [DbBegin (Some err)] (Some (External err)) migration
| outcome_rolled_back steps failure err rollbackErr :
    Forall clean steps -> tx_failure failure err ->
    apply_outcome migration mType
      (DbBegin None :: steps ++ [failure; TxRollback rollbackErr])
      (Some (External (default err rollbackErr))) migration
| outcome_commit_failed steps err :
    Forall clean steps ->
    apply_outcome migration mType
      (DbBegin None :: steps ++ [TxCommit (Some err)])
      (Some (External err)) migration
| outcome_committed steps :
    Forall clean steps ->
    apply_outcome migration mType
      (DbBegin None :: steps ++ [TxCommit None])
      None (set_Status (applied_status mType) migration).

(** The script of the requested direction; a direction other than [up] and
    [down] has none. *)
Definition script_of (mType : migrationType) (migration : Migration) : option string :=
  if String.eqb mType upMigration then Some (Up migration)
  else if String.eqb mType downMigration then Some (Down migration)
  else None.

(** The first log line of every application. *)
Definition applying_line (migration : Migration) : Event :=
  Log Printf "Applying migration: %s" [VString (Name migration)].

(** An event outside every transaction. *)
Definition quiet (e : Event) : Prop := is_tx_event e = false.

(** [m'] is [m] after a status synchronisation: the same migrations, some of
    them now Active. *)
Definition synced_from (m m' : Migrator) : Prop :=
  dbAdapter m' = dbAdapter m /\ logger m' = logger m /\
  forall p,
    migrations m' !! p = migrations m !! p \/
    exists mig, migrations m !! p = Some mig /\
                migrations m' !! p = Some (set_Status Active mig).

(** No migration of [m] is Inactive. *)
Definition none_inactive (m : Migrator) : Prop :=
  forall p mig, migrations m !! p = Some mig -> Status mig <> Inactive.

(** The migrations at [ps] are applied one after the other, each call
    returning nil. *)
Inductive applies_all {DB} (drv : Driver DB) (mType : migrationType)
  : list ptr -> Migrator * World DB -> Migrator * World DB -> Prop :=
| applies_none s : applies_all drv mType [] s s
| applies_next p ps m w m1 w1 s' :
    apply_at drv p mType m w = Done (None, m1) w1 ->
    applies_all drv mType ps (m1, w1) s' ->
    applies_all drv mType (p :: ps) (m, w) s'.

(** The steps of [Migrate] before its loop: the table is looked for and
    created if missing, then the statuses are synchronised. *)
Definition Migrate_prepare {DB} (drv : Driver DB) (order : list ptr) (m : Migrator)
  : M DB (option error * Migrator) :=
  r <- MigrationTableExists drv m ;;
  match snd r with
  | Some err => ret (Some err, m)
  | None =>
      err <- (if negb (fst r) then CreateMigrationsTable drv m else ret None) ;;
      match err with
      | Some e => ret (Some e, m)
      | None => getMigrationStatuses drv order m
      end
  end.

(** The status recorded for [p], if [p] is a migration of [m]. *)
Definition status_at (m : Migrator) (p : ptr) : option Z :=
  Status <$> migrations m !! p.

(** The path as [MigrationsFromPath] normalises it: a slash is appended
    unless the path ends in one. *)
Definition with_slash (path : string) : string :=
  match last_byte path with
  | Some c => if decide (c = "/"%char) then path else path +:+ "/"
  | None => path
  end.

(** The script of a file stored in the direction its name gives. *)
Definition fill (mType : migrationType) (sql : string) (m : Migration) : Migration :=
  if String.eqb mType upMigration then set_Up sql m else set_Down sql m.

(** The migration created for the first file seen with an id. *)
Definition first_seen (num : N) (name file : string) : Migration :=
  {| ID := num; Name := name; Source := file;
     Status := Inactive; Up := ""; Down := "" |}.

(** The ids of the bookkeeping rows inserted, in the order of the trace. *)
Definition inserted_ids (ad : Migratable) (tr : list Event) : list N :=
  omap (fun e =>
          match e with
          | TxExec query [VUint64 id] (ExecResult _) =>
              if String.eqb query (MigrationLogInsertSql ad) then Some id else None
          | _ => None
          end) tr.

(** Every migration of [m] is held under its own id, as the constructors
    build the map. *)
Definition keyed_by_id (m : Migrator) : Prop :=
  forall p mig, migrations m !! p = Some mig -> ID mig = p.

(* ===================================================================== *)
(** * Part 7b: the remaining constructors and further notions             *)
(* ===================================================================== *)

(** [func NewMigratorWithLogger(db, adapter, migrationsPath, logger)]: the
    migrations are loaded from disk and handed to
    [NewMigratorWithMigrations]; the logger is installed afterwards. *)
Definition NewMigratorWithLogger {DB}
    (parseMigrationPath : string -> option (N * migrationType * string))
    (fs : FileSystem) (order1 order2 : list ptr)
    (adapter : Migratable) (migrationsPath : string) (lg : Logger)
  : M DB (error + Migrator) :=
  r <- MigrationsFromPath parseMigrationPath fs order1 order2 migrationsPath ;;
  match r with
  | inl err => ret (inl err)
  | inr loaded =>
      match NewMigratorWithMigrations adapter loaded with
      | inl err => ret (inl err)
      | inr m =>
          ret (inr {| MigrationsPath := MigrationsPath m; dbAdapter := dbAdapter m;
                      migrations := migrations m; logger := lg |})
      end
  end.

(** [func NewMigrator(db, adapter, migrationsPath)] *)
Definition NewMigrator {DB}
    (parseMigrationPath : string -> option (N * migrationType * string))
    (fs : FileSystem) (order1 order2 : list ptr)
    (adapter : Migratable) (migrationsPath : string)
  : M DB (error + Migrator) :=
  NewMigratorWithLogger parseMigrationPath fs order1 order2
                        adapter migrationsPath stdLogger.

(** What [Validate] accepts. *)
Definition well_formed (mig : Migration) : Prop :=
  ID mig <> 0%N /\ Name mig <> EmptyString.

(** The first migration of a list that carries the id. *)
Definition with_id (id : N) (ms : list Migration) : option Migration :=
  List.find (fun mig => (ID mig =? id)%N) ms.

(** The value a call returns, if it returns. *)
Definition returned {DB A} (o : Outcome DB A) : option A :=
  match o with Done a _ => Some a | Halted _ _ => None end.

(** The statements sent inside transactions, with their arguments, in the
    order of the trace. *)
Definition tx_statements (tr : list Event) : list (string * list value) :=
  omap (fun e => match e with
                 | TxExec query args _ => Some (query, args)
                 | _ => None
                 end) tr.

(** A status query of the synchronisation. *)
Definition is_status_query (ad : Migratable) (e : Event) : Prop :=
  match e with
  | DbQueryRow query [VUint64 _] _ => query = GetMigrationSql ad
  | _ => False
  end.

(** The pointers [RollbackN] goes through when asked for [n] of the Active
    migrations [migs]: the last [n], highest id first. *)
Definition rollback_order (n : nat) (migs : list ptr) : list ptr :=
  take n (rev migs).

(** A Migrator built anew over the database of the example after its
    [Migrate], once the statuses are synchronised: it held no Active
    migration before. *)
Definition fresh_synced_example : Migrator * World MemDB :=
  match getMigrationStatuses (memDriver Postgres) [1%N; 2%N]
          example_migrator (snd migrated_example) with
  | Done r w => (snd r, w)
  | Halted _ w => (example_migrator, w)
  end.

(** The statements one application sends inside its transaction when
    nothing fails: the commands the adapter cuts the script into, each
    without arguments, then the bookkeeping statement with the id. *)
Definition bookkeeping (ad : Migratable) (mType : migrationType) (migration : Migration)
  : string * list value :=
  (if String.eqb mType upMigration
   then MigrationLogInsertSql ad else MigrationLogDeleteSql ad,
   [VUint64 (ID migration)]).

Definition transaction_script (ad : Migratable) (mType : migrationType)
    (migration : Migration) (sql : string) : list (string * list value) :=
  map (fun cmd => (cmd, [])) (GetMigrationCommands ad sql)
  ++ [bookkeeping ad mType migration].

(** A commit was attempted. *)
Definition commit_attempted (tr : list Event) : Prop :=
  exists err, In (TxCommit err) tr.

(** What the loop of the loader keeps true of its map: every migration is
    held under its own id and is Inactive. *)
Definition loaded_ok (g : gmap N Migration) : Prop :=
  forall p mig, g !! p = Some mig -> ID mig = p /\ Status mig = Inactive.

(** The file system that lists only the files whose names
    [parseMigrationPath] accepts. *)
Definition parses (parseMigrationPath : string -> option (N * migrationType * string))
    (file : string) : bool :=
  match parseMigrationPath file with Some _ => true | None => false end.

Definition parseable_only (parseMigrationPath : string -> option (N * migrationType * string))
    (fs : FileSystem) : FileSystem := {|
  Glob := fun pattern =>
    match Glob fs pattern with
    | FsOk matches => FsOk (List.filter (parses parseMigrationPath) matches)
    | FsErr e => FsErr e
    end;
  ReadFile := ReadFile fs
|}.

(** A directory with three migration files of which the second cannot be
    read. *)
Definition unreadable_fs : FileSystem := {|
  Glob := fun _ => FsOk ["migs/1_a_up.sql"; "migs/2_b_up.sql"; "migs/3_c_up.sql"];
  ReadFile := fun path =>
    if String.eqb path "migs/2_b_up.sql" then FsErr (ExtErr 13) else FsOk "SELECT 1"
|}.

(** The two calls [Migrate] makes about the metadata table, with the answer
    of the database, and the events that belong to a transaction. *)
Definition table_lookup (ad : Migratable) (answer : option exterr) : Event :=
  DbQueryRow (SelectMigrationTableSql ad) [VString migrationTableName] answer.

Definition table_creation (ad : Migratable) (answer : option exterr) : Event :=
  DbExec (CreateMigrationTableSql ad) [] answer.

Definition in_transaction (e : Event) : Prop := is_tx_event e = true.

(** Every migration of [m] has the status [st]. *)
Definition all_status (st : Z) (m : Migrator) : Prop :=
  forall p mig, migrations m !! p = Some mig -> Status mig = st.

(** The errors the engine hands back: one of the database, passed through
    unchanged, or the refusal of a direction without a script. *)
Definition engine_error (e : error) : Prop :=
  e = InvalidMigrationType \/ exists x, e = External x.

(** The errors the loader hands back. *)
Definition loader_error (e : error) : Prop :=
  e = InvalidMigrationPair \/ (exists x, e = External x) \/
  exists x, e = Errorf "Error while globbing migrations: %v" x.

(** The error a call returned, if it returned one. *)
Definition returned_error {DB A} (o : Outcome DB (option error * A)) : option error :=
  match o with Done (e, _) _ => e | Halted _ _ => None end.

(* ===================================================================== *)
(** * Part 8: properties of the string functions and of the splitter      *)
(* ===================================================================== *)

Lemma len_slice_from n s : len (slice_from n s) = (len s - n)%nat.
Proof.
  unfold len. revert s; induction n as [|n IH]; intros [|c s]; simpl; try lia.
  apply IH.
Qed.

Lemma append_String c s t : String c s +:+ t = String c (s +:+ t).
Proof. reflexivity. Qed.

Lemma append_empty t : EmptyString +:+ t = t.
Proof. reflexivity. Qed.

Lemma HasPrefix_split s p :
  HasPrefix s p = true -> s = p +:+ slice_from (len p) s.
Proof.
  revert s; induction p as [|a p IH]; intros s H.
  - reflexivity.
  - destruct s as [|b s]; [discriminate|]. cbn in H.
    apply andb_prop in H as [Hc H]. apply Ascii.eqb_eq in Hc as ->.
    rewrite append_String. cbn. f_equal. apply IH, H.
Qed.

Lemma HasPrefix_app p s : HasPrefix (p +:+ s) p = true.
Proof.
  induction p as [|a p IH]; [destruct s; reflexivity|].
  rewrite append_String. cbn. rewrite Ascii.eqb_refl. exact IH.
Qed.

Lemma HasPrefix_slice_to m s p :
  HasPrefix (slice_to m s) p = true -> HasPrefix s p = true.
Proof.
  revert m s; induction p as [|a p IH]; intros m s H.
  - destruct s; reflexivity.
  - destruct m, s as [|b s]; simpl in *; try discriminate.
    apply andb_prop in H as [Hc H]. rewrite Hc. simpl. eapply IH, H.
Qed.

Lemma HasPrefix_empty_false p : p <> EmptyString -> HasPrefix EmptyString p = false.
Proof. destruct p; [congruence|reflexivity]. Qed.

Lemma HasPrefix_len s p : HasPrefix s p = true -> (len p <= len s)%nat.
Proof.
  unfold len. revert s; induction p as [|a p IH]; intros s H; simpl in *.
  - lia.
  - destruct s as [|b s]; [discriminate|].
    apply andb_prop in H as [_ H]. simpl. apply IH in H. lia.
Qed.

Lemma Index_Some_inv c s sep m :
  HasPrefix (String c s) sep = false ->
  Index (String c s) sep = Some m -> exists m', m = S m' /\ Index s sep = Some m'.
Proof.
  intros Hp H. simpl in H. rewrite Hp in H.
  destruct (Index s sep) as [m'|]; simpl in H; [|discriminate].
  exists m'. split; congruence.
Qed.

Lemma Index_occurrence s sep m :
  Index s sep = Some m ->
  s = slice_to m s +:+ sep +:+ slice_from (m + len sep) s /\ (m + len sep <= len s)%nat.
Proof.
  revert m; induction s as [|c s IH]; intros m H.
  - simpl in H. destruct (HasPrefix EmptyString sep) eqn:Hp; [|discriminate].
    injection H as <-. split; [exact (HasPrefix_split _ _ Hp)|].
    apply HasPrefix_len in Hp. simpl. exact Hp.
  - destruct (HasPrefix (String c s) sep) eqn:Hp.
    + simpl in H. rewrite Hp in H. injection H as <-.
      split; [exact (HasPrefix_split _ _ Hp)|].
      apply HasPrefix_len in Hp. simpl. exact Hp.
    + destruct (Index_Some_inv _ _ _ _ Hp H) as (m' & -> & H').
      destruct (IH _ H') as [E L]. split.
      * cbn [slice_to]. rewrite append_String. f_equal. exact E.
      * unfold len in *. simpl. lia.
Qed.

Lemma Index_before s sep m :
  sep <> EmptyString -> Index s sep = Some m -> Index (slice_to m s) sep = None.
Proof.
  intros Hne. revert m; induction s as [|c s IH]; intros m H.
  - destruct m; simpl; rewrite HasPrefix_empty_false; auto.
  - destruct (HasPrefix (String c s) sep) eqn:Hp.
    + simpl in H. rewrite Hp in H. injection H as <-. simpl.
      rewrite HasPrefix_empty_false; auto.
    + destruct (Index_Some_inv _ _ _ _ Hp H) as (m' & -> & H').
      cbn [slice_to Index].
      destruct (HasPrefix (String c (slice_to m' s)) sep) eqn:Hp'.
      * change (String c (slice_to m' s)) with (slice_to (S m') (String c s)) in Hp'.
        apply HasPrefix_slice_to in Hp'. congruence.
      * rewrite (IH _ H'). reflexivity.
Qed.

Lemma count_loop_le rounds s sep :
  sep <> EmptyString -> (count_loop rounds s sep <= len s)%nat.
Proof.
  intros Hne. revert s; induction rounds as [|r IH]; intros s; simpl; [lia|].
  destruct (Index s sep) as [m|] eqn:E; [|lia].
  destruct (Index_occurrence _ _ _ E) as [_ L].
  specialize (IH (slice_from (m + len sep) s)). rewrite len_slice_from in IH.
  assert (1 <= len sep)%nat by (destruct sep; [congruence|unfold len; simpl; lia]).
  lia.
Qed.

Lemma Join_cons e rest sep :
  rest <> [] -> Join (e :: rest) sep = e +:+ sep +:+ Join rest sep.
Proof. destruct rest; [congruence|reflexivity]. Qed.

Lemma cut_loop_nonempty k s sep : cut_loop k s sep <> [].
Proof. destruct k; simpl; [congruence|]. destruct (Index s sep); congruence. Qed.

Lemma cut_loop_count rounds s sep :
  sep <> EmptyString -> (len s <= rounds)%nat ->
  Join (cut_loop (count_loop rounds s sep) s sep) sep = s /\
  Forall (fun f => Index f sep = None) (cut_loop (count_loop rounds s sep) s sep).
Proof.
  intros Hne. revert s; induction rounds as [|r IH]; intros s L.
  - simpl. split; [reflexivity|]. constructor; [|constructor].
    destruct s; [|unfold len in L; simpl in L; lia].
    simpl. rewrite HasPrefix_empty_false; auto.
  - simpl. destruct (Index s sep) as [m|] eqn:E.
    + simpl. rewrite E.
      destruct (Index_occurrence _ _ _ E) as [Es Lm].
      assert (1 <= len sep)%nat by (destruct sep; [congruence|unfold len; simpl; lia]).
      destruct (IH (slice_from (m + len sep) s)) as [J F].
      { rewrite len_slice_from. lia. }
      split.
      * rewrite Join_cons by apply cut_loop_nonempty. rewrite J. symmetry. exact Es.
      * constructor; [exact (Index_before _ _ _ Hne E)|exact F].
    + simpl. split; [reflexivity|]. constructor; [exact E|constructor].
Qed.

Lemma Split_cut_loop explode s sep :
  sep <> EmptyString -> Split explode s sep = cut_loop (Count s sep) s sep.
Proof.
  intros Hne. unfold Split, genSplit. simpl.
  destruct (String.eqb_spec sep ""); [congruence|].
  pose proof (count_loop_le (len s) s sep Hne) as L. fold (Count s sep) in L.
  destruct (Z.gtb_spec (Z.of_nat (Count s sep) + 1) (Z.of_nat (len s) + 1)); [lia|].
  f_equal. lia.
Qed.

Lemma Split_sound explode s sep :
  sep <> EmptyString ->
  Join (Split explode s sep) sep = s /\
  Forall (fun f => Index f sep = None) (Split explode s sep).
Proof.
  intros Hne. rewrite Split_cut_loop by assumption.
  apply cut_loop_count; [assumption|]. unfold Count. lia.
Qed.

Lemma Index_skip_byte c s sep :
  HasPrefix (String c s) sep = false ->
  Index (String c s) sep = S <$> Index s sep.
Proof. intros H. cbn [Index]. rewrite H. reflexivity. Qed.

Section MysqlSplitter.

Variable explode : string -> Z -> list string.
Variable Unquote : string -> option string.

(** [strconv.Unquote] rejects every text shorter than two bytes (its first
    test). *)
Hypothesis Unquote_short : forall s, (len s < 2)%nat -> Unquote s = None.

Lemma SplitN_nl_2 rest :
  SplitN explode rest nl 2 =
  match Index rest nl with
  | Some m => [slice_to m rest; slice_from (S m) rest]
  | None => [rest]
  end.
Proof.
  unfold SplitN, genSplit. cbn [Z.eqb String.eqb nl Z.ltb Z.compare].
  destruct rest as [|c rest].
  - reflexivity.
  - assert (E : (if 2 >? Z.of_nat (len (String c rest)) + 1
                 then Z.of_nat (len (String c rest)) + 1 else 2) = 2).
    { destruct (Z.gtb_spec 2 (Z.of_nat (len (String c rest)) + 1)); [|reflexivity].
      unfold len in *. simpl String.length in *. lia. }
    rewrite E. change (Z.to_nat (2 - 1)) with 1%nat. cbn [cut_loop].
    destruct (Index (String c rest) _) as [m|]; [|reflexivity].
    change (len (String "010" "")) with 1%nat. rewrite Nat.add_1_r. reflexivity.
Qed.

Lemma directive_split_agrees sql :
  Mysql_GetMigrationCommands explode Unquote sql = split_by_directive explode Unquote sql.
Proof.
  unfold Mysql_GetMigrationCommands, split_by_directive.
  destruct (HasPrefix sql "delimiter ") eqn:Hp.
  - apply HasPrefix_split in Hp. set (rest := slice_from (len "delimiter ") sql) in *.
    rewrite SplitN_nl_2.
    assert (HI : Index sql nl = (fun m => 10 + m)%nat <$> Index rest nl).
    { rewrite Hp. unfold nl. repeat (rewrite append_String, Index_skip_byte by reflexivity).
      rewrite append_empty. destruct (Index rest _); reflexivity. }
    unfold first_line, without_first_line, directive_delimiter. rewrite HI.
    destruct (Index rest nl) as [m|] eqn:E; cbn [fmap option_fmap option_map].
    + assert (Hl : slice_to (10 + m) sql = "delimiter " +:+ slice_to m rest).
      { rewrite Hp at 1. reflexivity. }
      assert (Hr : slice_from (S (10 + m)) sql = slice_from (S m) rest).
      { rewrite Hp at 1. reflexivity. }
      rewrite Hl, Hr, HasPrefix_app.
      change (slice_from (len "delimiter ") ("delimiter " +:+ slice_to m rest))
        with (slice_to m rest).
      reflexivity.
    + rewrite Hp at 1. rewrite HasPrefix_app. fold rest. reflexivity.
  - assert (Hf : HasPrefix (first_line sql) "delimiter " = false).
    { unfold first_line. destruct (Index sql nl); [|exact Hp].
      destruct (HasPrefix (slice_to n sql) "delimiter ") eqn:E; [|reflexivity].
      apply HasPrefix_slice_to in E. congruence. }
    rewrite Hf. reflexivity.
Qed.

Lemma directive_example_split :
  Mysql_GetMigrationCommands explode Unquote directive_example =
  ["CREATE TABLE t(x int)"; "CREATE TABLE u(y int)"; ""].
Proof.
  unfold Mysql_GetMigrationCommands.
  change (HasPrefix directive_example "delimiter ") with true. cbv iota.
  rewrite SplitN_nl_2.
  change (slice_from (len "delimiter ") directive_example)
    with ("#" +:+ nl +:+ "CREATE TABLE t(x int)#CREATE TABLE u(y int)#").
  change (Index ("#" +:+ nl +:+ "CREATE TABLE t(x int)#CREATE TABLE u(y int)#") nl)
    with (Some 1%nat).
  cbv iota. cbn [lookup list_lookup default length Nat.ltb Nat.leb].
  change (TrimSpace (slice_to 1 ("#" +:+ nl +:+ "CREATE TABLE t(x int)#CREATE TABLE u(y int)#")))
    with "#".
  rewrite Unquote_short by (cbv; lia).
  rewrite Split_cut_loop by discriminate. vm_compute. reflexivity.
Qed.

(** C3: the MySQL-family splitter follows the delimiter directive as the
    specification words it: when the first line begins with the prefix
    [delimiter ] the rest of that line, trimmed and unquoted if it is a
    quoted literal, is the delimiter, the line is removed and the remaining
    text is split on that delimiter; otherwise the script is split on [;].
    Splitting on a non-empty delimiter cuts at every occurrence: the
    fragments joined by the delimiter give the text back and no fragment
    contains the delimiter.  The example script yields two non-empty
    statements (and an empty trailing fragment), none mentioning the
    directive. *)
Theorem Mysql_GetMigrationCommands_directive :
  (forall sql,
      Mysql_GetMigrationCommands explode Unquote sql
      = split_by_directive explode Unquote sql) /\
  (forall text delimiter, delimiter <> EmptyString ->
      Join (Split explode text delimiter) delimiter = text /\
      Forall (fun f => Index f delimiter = None) (Split explode text delimiter)) /\
  let statements := Mysql_GetMigrationCommands explode Unquote directive_example in
  statements = ["CREATE TABLE t(x int)"; "CREATE TABLE u(y int)"; ""] /\
  List.filter (fun f => negb (String.eqb f "")) statements
  = ["CREATE TABLE t(x int)"; "CREATE TABLE u(y int)"] /\
  Forall (fun f => contains f "delimiter" = false) statements.
Proof.
  split; [exact directive_split_agrees|].
  split; [intros text delimiter Hne; apply Split_sound; exact Hne|].
  cbv zeta. rewrite directive_example_split.
  split; [reflexivity|]. split; [reflexivity|].
  repeat constructor.
Qed.

End MysqlSplitter.

Lemma Mysql_GetMigrationCommands_directive_witness :
  (forall sql,
      Mysql_GetMigrationCommands explode_bytes UnquotePlain sql
      = split_by_directive explode_bytes UnquotePlain sql) /\
  (forall text delimiter, delimiter <> EmptyString ->
      Join (Split explode_bytes text delimiter) delimiter = text /\
      Forall (fun f => Index f delimiter = None) (Split explode_bytes text delimiter)) /\
  let statements := Mysql_GetMigrationCommands explode_bytes UnquotePlain directive_example in
  statements = ["CREATE TABLE t(x int)"; "CREATE TABLE u(y int)"; ""] /\
  List.filter (fun f => negb (String.eqb f "")) statements
  = ["CREATE TABLE t(x int)"; "CREATE TABLE u(y int)"] /\
  Forall (fun f => contains f "delimiter" = false) statements.
Proof.
  apply (Mysql_GetMigrationCommands_directive explode_bytes UnquotePlain).
  intros [|c [|c' s]] H; [reflexivity|reflexivity|].
  unfold len in H. simpl in H. lia.
Defined.

(** The splitter on a few more scripts: the prefix is case-sensitive and
    needs its space, a double-quoted delimiter is unquoted, and a script
    that is only the directive line yields one empty statement. *)
Lemma directive_examples :
  Mysql_GetMigrationCommands explode_bytes UnquotePlain
    ("DELIMITER #" +:+ nl +:+ "a#b;c") = ["DELIMITER #" +:+ nl +:+ "a#b"; "c"] /\
  Mysql_GetMigrationCommands explode_bytes UnquotePlain
    ("delimiter#" +:+ nl +:+ "a#b;c") = ["delimiter#" +:+ nl +:+ "a#b"; "c"] /\
  Mysql_GetMigrationCommands explode_bytes UnquotePlain
    ("delimiter " +:+ bytes [34; 47; 47; 34]%nat +:+ "  " +:+ nl +:+ "a;//b") = ["a;"; "b"] /\
  Mysql_GetMigrationCommands explode_bytes UnquotePlain "delimiter $$" = [""] /\
  Mysql_GetMigrationCommands explode_bytes UnquotePlain "a;b;" = ["a"; "b"; ""].
Proof. repeat split. Qed.

(* ===================================================================== *)
(** * Part 9: properties of [ApplyMigration]                              *)
(* ===================================================================== *)

(** Running a computation step by step. *)
Ltac run :=
  unfold logPrintf, logPrint, txExec, txRollback, txCommit, dbBegin, dbExec, dbQueryRow;
  unfold bind, call, emit, ret; cbn beta iota delta [db trace fst snd].

Lemma db_events_app tr1 tr2 : db_events (tr1 ++ tr2) = db_events tr1 ++ db_events tr2.
Proof. apply List.filter_app. Qed.

Lemma clean_not_failure e err : clean e -> tx_failure e err -> False.
Proof. intros Hc Hf. destruct Hf; exact Hc. Qed.

Lemma tx_failure_functional e err1 err2 :
  tx_failure e err1 -> tx_failure e err2 -> err1 = err2.
Proof. intros H1 H2. destruct H1; inversion H2; reflexivity. Qed.

Lemma in_transaction_calls (x : Event) steps tail :
  In x (DbBegin None :: steps ++ tail) ->
  x = DbBegin None \/ In x steps \/ In x tail.
Proof.
  intros [<-|H]; [left; reflexivity|].
  apply in_app_or in H. right. exact H.
Qed.

Lemma clean_in steps (x : Event) : Forall clean steps -> In x steps -> clean x.
Proof. rewrite List.Forall_forall. auto. Qed.

Lemma outcome_failure_rolled_back migration mType calls e migration' :
  apply_outcome migration mType calls e migration' ->
  forall failure err, In failure calls -> tx_failure failure err ->
    exists steps rollbackErr,
      calls = steps ++ [failure; TxRollback rollbackErr] /\
      e = Some (External (default err rollbackErr)).
Proof.
  intros H failure' err' Hin Hf'.
  destruct H as [|err|steps failure err rb Hc Hf|steps err Hc|steps Hc].
  - destruct Hin.
  - destruct Hin as [<-|[]]. inversion Hf'.
  - apply in_transaction_calls in Hin as [->|[Hin|[<-|[<-|[]]]]].
    + inversion Hf'.
    + destruct (clean_not_failure _ _ (clean_in _ _ Hc Hin) Hf').
    + exists (DbBegin None :: steps), rb. split; [reflexivity|].
      rewrite (tx_failure_functional _ _ _ Hf' Hf). reflexivity.
    + inversion Hf'.
  - apply in_transaction_calls in Hin as [->|[Hin|[<-|[]]]].
    + inversion Hf'.
    + destruct (clean_not_failure _ _ (clean_in _ _ Hc Hin) Hf').
    + inversion Hf'.
  - apply in_transaction_calls in Hin as [->|[Hin|[<-|[]]]].
    + inversion Hf'.
    + destruct (clean_not_failure _ _ (clean_in _ _ Hc Hin) Hf').
    + inversion Hf'.
Qed.

Lemma outcome_commit_failure migration mType calls e migration' :
  apply_outcome migration mType calls e migration' ->
  forall err, In (TxCommit (Some err)) calls ->
    e = Some (External err) /\ forall rollbackErr, ~ In (TxRollback rollbackErr) calls.
Proof.
  intros H err' Hin.
  destruct H as [|err|steps failure err rb Hc Hf|steps err Hc|steps Hc].
  - destruct Hin.
  - destruct Hin as [Hin|[]]. discriminate.
  - exfalso. apply in_transaction_calls in Hin as [Hin|[Hin|[Hin|[Hin|[]]]]].
    + discriminate.
    + exact (clean_in _ _ Hc Hin).
    + rewrite Hin in Hf. inversion Hf.
    + discriminate.
  - apply in_transaction_calls in Hin as [Hin|[Hin|[Hin|[]]]].
    + discriminate.
    + destruct (clean_in _ _ Hc Hin).
    + injection Hin as ->. split; [reflexivity|].
      intros rb Hrb. apply in_transaction_calls in Hrb as [Hrb|[Hrb|[Hrb|[]]]].
      * discriminate.
      * exact (clean_in _ _ Hc Hrb).
      * discriminate.
  - exfalso. apply in_transaction_calls in Hin as [Hin|[Hin|[Hin|[]]]].
    + discriminate.
    + exact (clean_in _ _ Hc Hin).
    + discriminate.
Qed.

Lemma outcome_status migration mType calls e migration' :
  apply_outcome migration mType calls e migration' ->
  (e <> None -> migration' = migration) /\
  (e = None ->
     migration' = set_Status (applied_status mType) migration /\
     exists steps, calls = steps ++ [TxCommit None]).
Proof.
  intros H. destruct H as [|err|steps failure err rb Hc Hf|steps err Hc|steps Hc];
    (split; [intros Hne|intros He]); try reflexivity; try discriminate.
  - congruence.
  - split; [reflexivity|]. exists (DbBegin None :: steps). reflexivity.
Qed.

(** What the five outcomes say about failures, rollbacks and the status. *)
Lemma apply_outcome_facts migration mType calls e migration' :
  apply_outcome migration mType calls e migration' ->
  (forall failure err, In failure calls -> tx_failure failure err ->
     exists steps rollbackErr,
       calls = steps ++ [failure; TxRollback rollbackErr] /\
       e = Some (External (default err rollbackErr))) /\
  (forall err, In (TxCommit (Some err)) calls ->
     e = Some (External err) /\ forall rollbackErr, ~ In (TxRollback rollbackErr) calls) /\
  (e <> None -> migration' = migration) /\
  (e = None ->
     migration' = set_Status (applied_status mType) migration /\
     exists steps, calls = steps ++ [TxCommit None]).
Proof.
  intros H. split; [exact (outcome_failure_rolled_back _ _ _ _ _ H)|].
  split; [exact (outcome_commit_failure _ _ _ _ _ H)|].
  exact (outcome_status _ _ _ _ _ H).
Qed.

Section ApplyFacts.

Context {DB : Type}.
Variable drv : Driver DB.

Lemma rollback_and_return_spec err (w : World DB) :
  let rb := drvTxRollback drv (db w) in
  exists logs,
    rollback_and_return drv err w
    = Done (Some (External (default err (snd rb))))
           {| db := fst rb; trace := trace w ++ TxRollback (snd rb) :: logs |}
    /\ db_events logs = [].
Proof.
  cbv zeta. unfold rollback_and_return. run.
  destruct (drvTxRollback drv (db w)) as [d [re|]]; cbn [db trace fst snd default].
  - eexists [_]. rewrite <- app_assoc. split; reflexivity.
  - exists []. split; reflexivity.
Qed.

Lemma exec_commands_spec commands : forall w : World DB,
  exists r w' rest,
    exec_commands drv commands w = Done r w' /\
    trace w' = trace w ++ rest /\
    ((r = None /\ Forall clean (db_events rest)) \/
     (exists steps failure err rollbackErr,
         db_events rest = steps ++ [failure; TxRollback rollbackErr] /\
         Forall clean steps /\ tx_failure failure err /\
         r = Some (External (default err rollbackErr)))).
Proof.
  induction commands as [|cmd rest IH]; intros w.
  - exists None, w, []. rewrite app_nil_r. split; [reflexivity|].
    split; [reflexivity|]. left. split; [reflexivity|constructor].
  - cbn [exec_commands]. run.
    destruct (drvTxExec drv cmd [] (db w)) as [d [err|[[n|err]|]]] eqn:E;
      cbn [db trace fst snd].
    + (* the statement fails *)
      destruct (rollback_and_return_spec err
                  {| db := d;
                     trace := (trace w ++ [TxExec cmd [] (ExecError err)])
                              ++ [Log Printf "Error executing migration: %v"
                                      [VError (External err)]] |})
        as (logs & -> & Hl).
      cbn [db trace]. eexists _, _, _. split; [reflexivity|].
      split; [cbn [trace]; rewrite <- !app_assoc; reflexivity|].
      right. exists [], (TxExec cmd [] (ExecError err)), err. eexists.
      split; [|split; [constructor|split; [constructor|reflexivity]]].
      cbn [app]. unfold db_events in *. cbn [List.filter is_db_event]. rewrite Hl. reflexivity.
    + (* a row count *)
      destruct (IH {| db := d;
                      trace := ((trace w ++ [TxExec cmd [] (ExecResult (Some (Rows n)))])
                                ++ [ResultRowsAffected (Rows n)])
                               ++ [Log Printf "Rows affected: %v" [VInt n]] |})
        as (r & w' & tl & -> & Ht & Hr).
      exists r, w'. eexists. split; [reflexivity|].
      split; [rewrite Ht; cbn [trace]; rewrite <- !app_assoc; reflexivity|].
      cbn [app]. unfold db_events in *. cbn [List.filter is_db_event].
      destruct Hr as [[-> Hc]|(steps & failure & e & rb & Hd & Hc & Hf & ->)].
      * left. split; [reflexivity|]. repeat (constructor; [exact I|]). exact Hc.
      * right. exists (TxExec cmd [] (ExecResult (Some (Rows n)))
                         :: ResultRowsAffected (Rows n) :: steps), failure, e, rb.
        rewrite Hd. split; [reflexivity|].
        split; [repeat (constructor; [exact I|]); exact Hc|]. split; [exact Hf|reflexivity].
    + (* the row count cannot be read *)
      destruct (rollback_and_return_spec err
                  {| db := d;
                     trace := ((trace w ++ [TxExec cmd [] (ExecResult (Some (RowsError err)))])
                               ++ [ResultRowsAffected (RowsError err)])
                              ++ [Log Printf "Error getting rows affected: %v"
                                      [VError (External err)]] |})
        as (logs & -> & Hl).
      cbn [db trace]. eexists _, _, _. split; [reflexivity|].
      split; [cbn [trace]; rewrite <- !app_assoc; reflexivity|].
      right. exists [TxExec cmd [] (ExecResult (Some (RowsError err)))],
               (ResultRowsAffected (RowsError err)), err. eexists.
      split; [|split; [repeat constructor|split; [constructor|reflexivity]]].
      cbn [app]. unfold db_events in *. cbn [List.filter is_db_event]. rewrite Hl. reflexivity.
    + (* a nil result *)
      destruct (IH {| db := d; trace := trace w ++ [TxExec cmd [] (ExecResult None)] |})
        as (r & w' & tl & -> & Ht & Hr).
      exists r, w'. eexists. split; [reflexivity|].
      split; [rewrite Ht; cbn [trace]; rewrite <- !app_assoc; reflexivity|].
      cbn [app]. unfold db_events in *. cbn [List.filter is_db_event].
      destruct Hr as [[-> Hc]|(steps & failure & e & rb & Hd & Hc & Hf & ->)].
      * left. split; [reflexivity|]. constructor; [exact I|exact Hc].
      * right. exists (TxExec cmd [] (ExecResult None) :: steps), failure, e, rb.
        rewrite Hd. split; [reflexivity|].
        split; [constructor; [exact I|exact Hc]|]. split; [exact Hf|reflexivity].
Qed.

Lemma ApplyMigration_run m migration mType (w : World DB) :
  match select_script migration mType with
  | None =>
      ApplyMigration drv m migration mType w
      = Done (Some InvalidMigrationType, migration)
             {| db := db w; trace := trace w ++ [applying_line migration] |}
  | Some sql =>
      let begun := DbBegin (snd (drvBegin drv (db w))) in
      exists e migration' w' rest,
        ApplyMigration drv m migration mType w = Done (e, migration') w' /\
        trace w' = trace w ++ applying_line migration :: begun :: rest /\
        apply_outcome migration mType (begun :: db_events rest) e migration' /\
        e <> Some InvalidMigrationType
  end.
Proof.
  unfold ApplyMigration, applying_line.
  destruct (select_script migration mType) as [sql|]; [|reflexivity].
  cbv zeta. run.
  destruct (drvBegin drv (db w)) as [d [err|]]; cbn [db trace fst snd].
  { eexists _, _, _, [_]. split; [reflexivity|].
    split; [rewrite <- !app_assoc; reflexivity|].
    split; [constructor|discriminate]. }
  set (w1 := {| db := d; trace := _ |}).
  destruct (exec_commands_spec (GetMigrationCommands (dbAdapter m) sql) w1)
    as (r & w2 & body & -> & Ht & Hr).
  destruct Hr as [[-> Hc]|(steps & failure & e & rb & Hd & Hc & Hf & ->)].
  2:{ (* a statement failed and the transaction was rolled back *)
      exists (Some (External (default e rb))), migration, w2, body.
      split; [reflexivity|].
      split; [rewrite Ht; unfold w1; cbn [trace]; rewrite <- !app_assoc; reflexivity|].
      split; [rewrite Hd; constructor; assumption|discriminate]. }
  (* all statements went through: the bookkeeping row *)
  assert (Hst : applied_status mType
                = if String.eqb mType upMigration then Active else Inactive)
    by reflexivity.
  set (logSql := if String.eqb mType upMigration
                 then MigrationLogInsertSql (dbAdapter m)
                 else MigrationLogDeleteSql (dbAdapter m)).
  assert (Hsql : logSql = if String.eqb mType upMigration
                          then MigrationLogInsertSql (dbAdapter m)
                          else MigrationLogDeleteSql (dbAdapter m)) by reflexivity.
  clearbody logSql.
  destruct (String.eqb mType upMigration); rewrite <- Hsql; clear Hsql.
  all: destruct (drvTxExec drv logSql [VUint64 (ID migration)] (db w2)) as [d3 [err|res]];
    cbn [db trace fst snd].
  1,3: match goal with |- context [rollback_and_return drv ?err ?w0] =>
      destruct (rollback_and_return_spec err w0) as (logs & -> & Hl) end.
  1,2: cbn [db trace fst snd];
      eexists _, _, _, _; (split; [reflexivity|]);
      (split; [cbn [trace]; rewrite Ht; unfold w1; cbn [trace];
               rewrite <- !app_assoc; reflexivity|]);
      (split; [|discriminate]);
      unfold db_events in *; rewrite !List.filter_app;
      cbn [List.filter is_db_event app]; rewrite Hl;
      apply (outcome_rolled_back migration mType (List.filter is_db_event body)
               (TxExec logSql [VUint64 (ID migration)] (ExecError err)) err);
      [exact Hc|constructor].
  (* commit *)
  all: destruct (drvTxCommit drv d3) as [d4 [err|]]; cbn [db trace fst snd].
  all: eexists _, _, _, _; (split; [reflexivity|]);
    (split; [cbn [trace]; rewrite Ht; unfold w1; cbn [trace];
             rewrite <- !app_assoc; reflexivity|]);
    (split; [|discriminate]);
    unfold db_events in *; rewrite !List.filter_app;
    cbn [List.filter is_db_event app]; rewrite ?app_nil_r;
    match goal with |- apply_outcome _ _ (_ :: ?l ++ [?x; ?y]) _ _ =>
      replace (l ++ [x; y]) with ((l ++ [x]) ++ [y])
        by (rewrite <- app_assoc; reflexivity) end.
  1,3: apply (outcome_commit_failed migration mType
             (List.filter is_db_event body
              ++ [TxExec logSql [VUint64 (ID migration)] (ExecResult res)]) err);
       apply Forall_app; split; [exact Hc|repeat constructor].
  all: rewrite <- Hst;
    apply (outcome_committed migration mType
             (List.filter is_db_event body
              ++ [TxExec logSql [VUint64 (ID migration)] (ExecResult res)]));
    apply Forall_app; split; [exact Hc|repeat constructor].
Qed.

Lemma ApplyMigration_status m migration mType (w : World DB) :
  exists e migration' w' rest,
    ApplyMigration drv m migration mType w = Done (e, migration') w' /\
    trace w' = trace w ++ rest /\
    (e <> None -> migration' = migration) /\
    (e = None -> migration' = set_Status (applied_status mType) migration).
Proof.
  pose proof (ApplyMigration_run m migration mType w) as H.
  destruct (select_script migration mType) as [sql|].
  - cbv zeta in H. destruct H as (e & migration' & w' & rest & E & Ht & Ho & _).
    exists e, migration', w'. eexists. split; [exact E|]. split; [exact Ht|].
    destruct (outcome_status _ _ _ _ _ Ho) as [H1 H2].
    split; [exact H1|]. intros He. exact (proj1 (H2 He)).
  - eexists _, _, _, [_]. split; [exact H|]. split; [reflexivity|].
    split; [reflexivity|discriminate].
Qed.

(** C4: once the transaction is open, a failed statement (or a row count
    that cannot be read) and a failed bookkeeping row are each followed by
    a rollback that ends the call, and the call returns the original error
    unless the rollback itself failed, whose error is then returned; a failed
    commit is returned as it is, with no rollback; the migration is left as it
    was whenever an error is returned, and its status is set (Active for up,
    Inactive for down) only when the last call is a successful commit. *)
Theorem ApplyMigration_failure_handling m migration mType (w : World DB) :
  exists e migration' w' rest,
    ApplyMigration drv m migration mType w = Done (e, migration') w' /\
    trace w' = trace w ++ rest /\
    let calls := db_events rest in
    apply_outcome migration mType calls e migration' /\
    (forall failure err, In failure calls -> tx_failure failure err ->
       exists steps rollbackErr,
         calls = steps ++ [failure; TxRollback rollbackErr] /\
         e = Some (External (default err rollbackErr))) /\
    (forall err, In (TxCommit (Some err)) calls ->
       e = Some (External err) /\ forall rollbackErr, ~ In (TxRollback rollbackErr) calls) /\
    (e <> None -> migration' = migration) /\
    (e = None ->
       migration' = set_Status (applied_status mType) migration /\
       exists steps, calls = steps ++ [TxCommit None]).
Proof.
  pose proof (ApplyMigration_run m migration mType w) as H.
  destruct (select_script migration mType) as [sql|].
  - cbv zeta in H. destruct H as (e & migration' & w' & rest & E & Ht & Ho & _).
    exists e, migration', w', (applying_line migration
                                 :: DbBegin (snd (drvBegin drv (db w))) :: rest).
    split; [exact E|]. split; [exact Ht|]. cbv zeta.
    assert (Hcalls : db_events (applying_line migration
                                  :: DbBegin (snd (drvBegin drv (db w))) :: rest)
                     = DbBegin (snd (drvBegin drv (db w))) :: db_events rest) by reflexivity.
    rewrite Hcalls. split; [exact Ho|]. exact (apply_outcome_facts _ _ _ _ _ Ho).
  - eexists _, _, _, [_]. split; [exact H|]. split; [reflexivity|]. cbv zeta.
    change (db_events [applying_line migration]) with (@nil Event).
    split; [constructor|]. apply apply_outcome_facts. constructor.
Qed.

Lemma select_script_of migration mType :
  select_script migration mType
  = match script_of mType migration with
    | Some script => if String.eqb script "" then None else Some script
    | None => None
    end.
Proof.
  unfold select_script, script_of.
  destruct (String.eqb mType upMigration) eqn:Eup; cbn [andb].
  - destruct (String.eqb (Up migration) "") eqn:E; cbn [negb]; [|reflexivity].
    apply String.eqb_eq in Eup as ->. reflexivity.
  - destruct (String.eqb mType downMigration); cbn [andb]; [|reflexivity].
    destruct (String.eqb (Down migration) ""); reflexivity.
Qed.

(** C7: for the directions up and down, [ApplyMigration] returns the
    invalid-migration-type error exactly when the script of the requested
    direction is empty, and then it has made no call on the database (its
    only effect is the log line); when the script is not empty its first
    call on the database opens a transaction and the error it may return is
    another one.  A direction that is neither up nor down is refused the
    same way. *)
Theorem ApplyMigration_invalid_type m migration mType (w : World DB) :
  let o := ApplyMigration drv m migration mType w in
  let refused :=
    o = Done (Some InvalidMigrationType, migration)
             {| db := db w; trace := trace w ++ [applying_line migration] |} in
  match script_of mType migration with
  | Some script =>
      if String.eqb script ""
      then refused
      else exists e migration' w' rest,
          o = Done (e, migration') w' /\
          trace w' = trace w ++ applying_line migration
                             :: DbBegin (snd (drvBegin drv (db w))) :: rest /\
          e <> Some InvalidMigrationType
  | None => refused
  end.
Proof.
  cbv zeta. pose proof (ApplyMigration_run m migration mType w) as H.
  rewrite select_script_of in H.
  destruct (script_of mType migration) as [script|]; [|exact H].
  destruct (String.eqb script ""); [exact H|].
  cbv zeta in H. destruct H as (e & migration' & w' & rest & E & Ht & _ & Hne).
  exists e, migration', w', rest. auto.
Qed.

End ApplyFacts.

(* ===================================================================== *)
(** * Part 10: properties of the Migrator methods                         *)
(* ===================================================================== *)

Lemma map_is_fmap {A B} (f : A -> B) (l : list A) : map f l = f <$> l.
Proof. reflexivity. Qed.

Lemma wrap_int_small z : - 2 ^ 63 <= z < 2 ^ 63 -> wrap_int z = z.
Proof. intros H. unfold wrap_int. rewrite Z.mod_small; lia. Qed.

Lemma synced_from_refl m : synced_from m m.
Proof. repeat split. intros p. left. reflexivity. Qed.

Lemma set_Status_twice a b mig : set_Status a (set_Status b mig) = set_Status a mig.
Proof. reflexivity. Qed.

Lemma synced_from_trans m1 m2 m3 :
  synced_from m1 m2 -> synced_from m2 m3 -> synced_from m1 m3.
Proof.
  intros (Ha & Hl & H12) (Ha' & Hl' & H23).
  split; [congruence|]. split; [congruence|]. intros p.
  destruct (H23 p) as [E|(mig & E2 & E3)], (H12 p) as [E'|(mig' & E1 & E2')].
  - left. congruence.
  - right. exists mig'. split; congruence.
  - right. exists mig. split; congruence.
  - right. exists mig'. split; [exact E1|].
    rewrite E3. rewrite E2' in E2. injection E2 as <-. reflexivity.
Qed.

Lemma synced_from_store m p mig :
  migrations m !! p = Some mig -> synced_from m (store p (set_Status Active mig) m).
Proof.
  intros H. repeat split. intros q. cbn [store migrations].
  destruct (decide (p = q)) as [<-|Hne].
  - right. exists mig. split; [exact H|]. apply lookup_insert_eq.
  - left. apply lookup_insert_ne. exact Hne.
Qed.

Lemma synced_none_inactive m m' :
  synced_from m m' -> none_inactive m -> none_inactive m'.
Proof.
  intros (_ & _ & H) Hn p mig' E.
  destruct (H p) as [E'|(mig & E1 & E2)].
  - apply (Hn p). congruence.
  - rewrite E in E2. injection E2 as ->. discriminate.
Qed.

Lemma store_same m p mig :
  migrations m !! p = Some mig -> store p mig m = m.
Proof.
  intros H. destruct m as [path ad migs lg]. unfold store. cbn in *.
  f_equal. apply insert_id. exact H.
Qed.

(** ** The sorted list of pointers *)

Lemma sorted_ids_In m p : In p (sorted_ids m) <-> is_Some (migrations m !! p).
Proof.
  unfold sorted_ids, sort_uint64slice.
  rewrite <- list_elem_of_In, merge_sort_Permutation, map_is_fmap.
  rewrite list_elem_of_fmap. split.
  - intros ([q mig] & -> & H). apply elem_of_map_to_list in H. cbn. eauto.
  - intros [mig H]. exists (p, mig). split; [reflexivity|].
    apply elem_of_map_to_list. exact H.
Qed.

Lemma sorted_ids_NoDup m : NoDup (sorted_ids m).
Proof.
  unfold sorted_ids, sort_uint64slice. rewrite merge_sort_Permutation, map_is_fmap.
  apply NoDup_fst_map_to_list.
Qed.

Lemma StronglySorted_le_lt (l : list N) :
  StronglySorted N.le l -> NoDup l -> StronglySorted N.lt l.
Proof.
  induction 1 as [|x l Hs IH Hall]; intros Hnd; [constructor|].
  apply NoDup_cons in Hnd as [Hx Hnd]. constructor; [exact (IH Hnd)|].
  rewrite List.Forall_forall in *. intros y Hy.
  specialize (Hall y Hy). assert (x <> y).
  { intros ->. apply Hx. apply list_elem_of_In. exact Hy. }
  lia.
Qed.

Lemma StronglySorted_filter_lt (f : N -> bool) (l : list N) :
  StronglySorted N.lt l -> StronglySorted N.lt (List.filter f l).
Proof.
  induction 1 as [|x l Hs IH Hall]; cbn; [constructor|].
  destruct (f x); [|exact IH]. constructor; [exact IH|].
  rewrite List.Forall_forall in *. intros y Hy.
  apply List.filter_In in Hy as [Hy _]. exact (Hall y Hy).
Qed.

Lemma sorted_ids_sorted m : StronglySorted N.lt (sorted_ids m).
Proof.
  apply StronglySorted_le_lt; [|apply sorted_ids_NoDup].
  unfold sorted_ids, sort_uint64slice. apply StronglySorted_merge_sort; apply _.
Qed.

Lemma Migrations_sorted status m : StronglySorted N.lt (Migrations status m).
Proof. apply StronglySorted_filter_lt, sorted_ids_sorted. Qed.

Lemma Migrations_In status m p :
  In p (Migrations status m) <-> has_status status m p = true.
Proof.
  unfold Migrations. rewrite List.filter_In, sorted_ids_In. split; [tauto|].
  intros H. split; [|exact H]. unfold has_status in H.
  destruct (migrations m !! p); [eauto|discriminate].
Qed.

Lemma Migrations_In_status status m p :
  status <> -1 ->
  In p (Migrations status m) <->
  exists mig, migrations m !! p = Some mig /\ Status mig = status.
Proof.
  intros Hs. rewrite Migrations_In. unfold has_status.
  destruct (migrations m !! p) as [mig|].
  - destruct (Z.eqb_spec status (-1)); [contradiction|]. cbn [orb].
    destruct (Z.eqb_spec (Status mig) status).
    + split; [eauto|reflexivity].
    + split; [discriminate|]. intros (mig' & E & E'). congruence.
  - split; [discriminate|]. intros (mig' & E & _). discriminate.
Qed.

Lemma Migrations_In_key status m p :
  In p (Migrations status m) -> is_Some (migrations m !! p).
Proof.
  intros H. apply Migrations_In in H. unfold has_status in H.
  destruct (migrations m !! p); [eauto|discriminate].
Qed.

Lemma none_inactive_Migrations m : none_inactive m -> Migrations Inactive m = [].
Proof.
  intros Hn. destruct (Migrations Inactive m) as [|p l] eqn:E; [reflexivity|].
  assert (Hin : In p (Migrations Inactive m)) by (rewrite E; left; reflexivity).
  apply Migrations_In_status in Hin as (mig & Em & Es); [|discriminate].
  destruct (Hn p mig Em Es).
Qed.

(** ** The map is keyed by the ids *)

Lemma add_migrations_keyed ms : forall acc migs,
  (forall p mig, acc !! p = Some mig -> ID mig = p) ->
  add_migrations ms acc = inr migs ->
  forall p mig, migs !! p = Some mig -> ID mig = p.
Proof.
  induction ms as [|m ms IH]; intros acc migs Hacc H; cbn [add_migrations] in H.
  - injection H as <-. exact Hacc.
  - destruct (Validate (set_Status Inactive m)); [discriminate|].
    destruct (acc !! ID (set_Status Inactive m)) eqn:E; [discriminate|].
    refine (IH _ _ _ H). intros p mig Hp.
    apply lookup_insert_Some in Hp as [[<- <-]|[_ Hp]]; [reflexivity|exact (Hacc _ _ Hp)].
Qed.

Lemma NewMigratorWithMigrations_keyed adapter ms m :
  NewMigratorWithMigrations adapter ms = inr m -> keyed_by_id m.
Proof.
  unfold NewMigratorWithMigrations. destruct (add_migrations ms ∅) as [e|migs] eqn:E;
    [discriminate|].
  intros [= <-]. intros p mig Hp. cbn [migrations] in Hp.
  eapply (add_migrations_keyed ms ∅ migs); [|exact E|exact Hp].
  intros q mig' Hq. rewrite lookup_empty in Hq. discriminate.
Qed.

Lemma synced_keyed m m' : synced_from m m' -> keyed_by_id m -> keyed_by_id m'.
Proof.
  intros (_ & _ & H) Hk p mig' E.
  destruct (H p) as [E'|(mig & E1 & E2)].
  - apply (Hk p). congruence.
  - rewrite E in E2. injection E2 as ->. exact (Hk p mig E1).
Qed.

Section MigratorFacts.

Context {DB : Type}.
Variable drv : Driver DB.

Lemma MigrationTableExists_spec m (w : World DB) :
  exists r w' rest,
    MigrationTableExists drv m w = Done r w' /\
    trace w' = trace w ++ rest /\ Forall quiet rest.
Proof.
  unfold MigrationTableExists. run.
  destruct (drvQueryRow drv _ _ (db w)) as [d [[|code]|]]; cbn [db trace fst snd];
    eexists _, _, [_; _]; (split; [reflexivity|]);
    (split; [rewrite <- app_assoc; reflexivity|repeat constructor]).
Qed.

Lemma CreateMigrationsTable_run m (w : World DB) :
  let answer := drvExec drv (CreateMigrationTableSql (dbAdapter m)) [] (db w) in
  let called := trace w ++ [DbExec (CreateMigrationTableSql (dbAdapter m)) [] (snd answer)] in
  let created := Log Printf "Created migrations table: %s" [VString migrationTableName] in
  CreateMigrationsTable drv m w =
  match snd answer with
  | None => Done None {| db := fst answer; trace := called ++ [created] |}
  | Some e =>
      let fatal := Log Fatalf "Error creating migrations table: %v" [VError (External e)] in
      if Fatalf_exits (logger m)
      then Halted (OsExit 1) {| db := fst answer; trace := called ++ [fatal] |}
      else Done None {| db := fst answer; trace := (called ++ [fatal]) ++ [created] |}
  end.
Proof.
  cbv zeta. unfold CreateMigrationsTable, logFatalf. run.
  destruct (drvExec drv _ _ (db w)) as [d [e|]]; cbn [db trace fst snd]; [|reflexivity].
  unfold panic. destruct (Fatalf_exits (logger m)); reflexivity.
Qed.

Lemma CreateMigrationsTable_spec m (w : World DB) :
  exists rest,
    trace (world_of (CreateMigrationsTable drv m w)) = trace w ++ rest /\
    Forall quiet rest /\
    forall err w', CreateMigrationsTable drv m w <> Done (Some err) w'.
Proof.
  rewrite CreateMigrationsTable_run. cbv zeta.
  destruct (drvExec drv _ _ (db w)) as [d [e|]]; cbn [fst snd].
  - destruct (Fatalf_exits (logger m)); cbn [world_of trace].
    + eexists [_; _]. split; [rewrite <- app_assoc; reflexivity|].
      split; [repeat constructor|discriminate].
    + eexists [_; _; _]. split; [rewrite <- !app_assoc; reflexivity|].
      split; [repeat constructor|discriminate].
  - eexists [_; _]. cbn [world_of trace].
    split; [rewrite <- app_assoc; reflexivity|].
    split; [repeat constructor|discriminate].
Qed.

Lemma status_loop_spec ps : forall m (w : World DB),
  exists r m' w' rest,
    status_loop drv ps m w = Done (r, m') w' /\
    trace w' = trace w ++ rest /\ Forall quiet rest /\
    synced_from m m'.
Proof.
  induction ps as [|p ps IH]; intros m w.
  - exists None, m, w, []. rewrite app_nil_r.
    split; [reflexivity|]. split; [reflexivity|].
    split; [constructor|apply synced_from_refl].
  - cbn [status_loop]. destruct (migrations m !! p) as [migration|] eqn:Ep; [|apply IH].
    run. destruct (drvQueryRow drv _ _ (db w)) as [d [[|code]|]] eqn:Eq;
      cbn [db trace fst snd].
    + match goal with |- context [status_loop drv ps m ?w0] =>
        destruct (IH m w0) as (r & m' & w' & rest & -> & Ht & Hq & Hs) end.
      eexists r, m', w', (_ :: rest). split; [reflexivity|].
      split; [rewrite Ht; cbn [trace]; rewrite <- app_assoc; reflexivity|].
      split; [constructor; [reflexivity|exact Hq]|exact Hs].
    + eexists _, _, _, [_; _]. split; [reflexivity|].
      split; [cbn [trace]; rewrite <- app_assoc; reflexivity|].
      split; [repeat constructor|apply synced_from_refl].
    + match goal with |- context [status_loop drv ps ?m0 ?w0] =>
        destruct (IH m0 w0) as (r & m' & w' & rest & -> & Ht & Hq & Hs) end.
      eexists r, m', w', (_ :: rest). split; [reflexivity|].
      split; [rewrite Ht; cbn [trace]; rewrite <- app_assoc; reflexivity|].
      split; [constructor; [reflexivity|exact Hq]|].
      eapply synced_from_trans; [apply synced_from_store; exact Ep|exact Hs].
Qed.

(** ** One application through a pointer of the map *)

Lemma apply_at_spec p mType m (w : World DB) mig :
  migrations m !! p = Some mig ->
  exists e w' rest,
    trace w' = trace w ++ rest /\
    ((e <> None /\ apply_at drv p mType m w = Done (e, m) w') \/
     (e = None /\
      apply_at drv p mType m w
      = Done (None, store p (set_Status (applied_status mType) mig) m) w')).
Proof.
  intros Hp. unfold apply_at. rewrite Hp. unfold bind.
  destruct (ApplyMigration_status drv m mig mType w)
    as (e & mig' & w' & rest & -> & Ht & Hf & Hs).
  exists e, w', rest. split; [exact Ht|]. unfold ret. cbn [fst snd].
  destruct e as [err|].
  - left. split; [discriminate|].
    assert (mig' = mig) as -> by (apply Hf; discriminate).
    rewrite store_same by exact Hp. reflexivity.
  - right. split; [reflexivity|].
    assert (mig' = set_Status (applied_status mType) mig) as -> by (apply Hs; reflexivity).
    reflexivity.
Qed.

Lemma apply_at_success p mType m (w : World DB) m1 w1 :
  apply_at drv p mType m w = Done (None, m1) w1 ->
  exists mig, migrations m !! p = Some mig /\
              m1 = store p (set_Status (applied_status mType) mig) m.
Proof.
  intros H. destruct (migrations m !! p) as [mig|] eqn:Hp.
  - exists mig. split; [reflexivity|].
    destruct (apply_at_spec p mType m w mig Hp) as (e & w' & rest & _ & [[Hne E]|[-> E]]).
    + rewrite E in H. congruence.
    + rewrite E in H. congruence.
  - unfold apply_at in H. rewrite Hp in H. discriminate.
Qed.

Lemma applies_all_keeps_gen mType ps (s s' : Migrator * World DB) :
  applies_all drv mType ps s s' ->
  (forall q, ~ In q ps -> migrations (fst s') !! q = migrations (fst s) !! q) /\
  (forall q, In q ps ->
     exists mig, migrations (fst s') !! q = Some mig /\
                 Status mig = applied_status mType) /\
  (forall q, is_Some (migrations (fst s') !! q) <-> is_Some (migrations (fst s) !! q)).
Proof.
  induction 1 as [s|p ps m0 w0 m1 w1 s' Happ Hrest IH].
  - split; [reflexivity|]. split; [intros q []|reflexivity].
  - destruct IH as (Hout & Hin & Hdom).
    destruct (apply_at_success _ _ _ _ _ _ Happ) as (mig & Hp & ->).
    cbn [fst store migrations] in *.
    split; [|split].
    + intros q Hq. rewrite Hout by (intros Hq'; apply Hq; right; exact Hq').
      apply lookup_insert_ne. intros ->. apply Hq. left. reflexivity.
    + intros q [<-|Hq]; [|exact (Hin q Hq)].
      destruct (in_dec N.eq_dec p ps) as [Hps|Hps]; [exact (Hin p Hps)|].
      rewrite (Hout p Hps). rewrite lookup_insert_eq. eexists. split; reflexivity.
    + intros q. rewrite Hdom. destruct (decide (p = q)) as [E|Hne].
      * subst q. rewrite lookup_insert_eq, Hp. split; eauto.
      * rewrite lookup_insert_ne by exact Hne. reflexivity.
Qed.

Lemma applies_all_keeps mType ps (m : Migrator) (w : World DB) m2 w2 :
  applies_all drv mType ps (m, w) (m2, w2) ->
  (forall q, ~ In q ps -> migrations m2 !! q = migrations m !! q) /\
  (forall q, In q ps ->
     exists mig, migrations m2 !! q = Some mig /\ Status mig = applied_status mType) /\
  (forall q, is_Some (migrations m2 !! q) <-> is_Some (migrations m !! q)).
Proof. intros H. exact (applies_all_keeps_gen _ _ _ _ H). Qed.

(** ** The loop of [Migrate] *)

Lemma migrate_loop_spec ps : forall m (w : World DB),
  (forall p, In p ps -> is_Some (migrations m !! p)) ->
  exists applied rest m2 w2,
    ps = applied ++ rest /\
    applies_all drv upMigration applied (m, w) (m2, w2) /\
    match rest with
    | [] => migrate_loop drv ps m w = Done (None, m2) w2
    | p :: _ =>
        exists e w3,
          apply_at drv p upMigration m2 w2 = Done (Some e, m2) w3 /\
          migrate_loop drv ps m w = Done (Some e, m2) w3
    end.
Proof.
  induction ps as [|p ps IH]; intros m w Hkeys.
  - exists [], [], m, w. split; [reflexivity|]. split; [constructor|reflexivity].
  - destruct (Hkeys p (or_introl eq_refl)) as [mig Hp].
    destruct (apply_at_spec p upMigration m w mig Hp)
      as (e & w' & rest & _ & [[Hne E]|[-> E]]).
    + destruct e as [err|]; [|congruence].
      exists [], (p :: ps), m, w. split; [reflexivity|]. split; [constructor|].
      exists err, w'. split; [exact E|].
      cbn [migrate_loop]. unfold bind. rewrite E. reflexivity.
    + set (m1 := store p (set_Status (applied_status upMigration) mig) m) in *.
      destruct (IH m1 w') as (applied & rest' & m2 & w2 & -> & Hall & Hrest).
      { intros q Hq. unfold m1. cbn [store migrations].
        destruct (decide (p = q)) as [<-|Hne].
        - rewrite lookup_insert_eq. eauto.
        - rewrite lookup_insert_ne by exact Hne. apply Hkeys. right. exact Hq. }
      exists (p :: applied), rest', m2, w2. split; [reflexivity|].
      split; [econstructor; [exact E|exact Hall]|].
      cbn [migrate_loop]. unfold bind. rewrite E. cbn [fst snd].
      exact Hrest.
Qed.

(** ** [Migrate] *)

Lemma Migrate_unfold order m (w : World DB) :
  Migrate drv order m w =
  match Migrate_prepare drv order m w with
  | Done (Some e, m1) w1 => Done (Some e, m1) w1
  | Done (None, m1) w1 => migrate_loop drv (Migrations Inactive m1) m1 w1
  | Halted h w1 => Halted h w1
  end.
Proof.
  unfold Migrate, Migrate_prepare, bind, ret.
  destruct (MigrationTableExists drv m w) as [[b [e|]] w'|h w']; cbn [fst snd];
    try reflexivity.
  destruct ((if negb b then CreateMigrationsTable drv m else fun w0 => Done None w0) w')
    as [[e|] w''|h w'']; try reflexivity.
  destruct (getMigrationStatuses drv order m w'') as [[[e|] m1] w1|h w1]; reflexivity.
Qed.

Lemma Migrate_prepare_spec order m (w : World DB) :
  exists rest,
    trace (world_of (Migrate_prepare drv order m w)) = trace w ++ rest /\
    Forall quiet rest /\
    forall r m' w', Migrate_prepare drv order m w = Done (r, m') w' -> synced_from m m'.
Proof.
  unfold Migrate_prepare, bind, ret.
  destruct (MigrationTableExists_spec m w) as ([b r] & w1 & rest1 & -> & Ht1 & Hq1).
  cbn [fst snd]. destruct r as [e|].
  { exists rest1. cbn [world_of]. split; [exact Ht1|]. split; [exact Hq1|].
    intros r m' w' [= <- <- <-]. apply synced_from_refl. }
  assert (Hc : exists rest2,
             trace (world_of ((if negb b then CreateMigrationsTable drv m
                               else fun w0 => Done None w0) w1)) = trace w1 ++ rest2 /\
             Forall quiet rest2).
  { destruct b; cbn [negb].
    - exists []. cbn [world_of]. rewrite app_nil_r. split; [reflexivity|constructor].
    - destruct (CreateMigrationsTable_spec m w1) as (rest2 & Ht2 & Hq2 & _). eauto. }
  destruct Hc as (rest2 & Ht2 & Hq2).
  destruct ((if negb b then CreateMigrationsTable drv m else fun w0 => Done None w0) w1)
    as [[e|] w2|h w2]; cbn [world_of] in *.
  - exists (rest1 ++ rest2). rewrite Ht2, Ht1, app_assoc.
    split; [reflexivity|]. split; [apply Forall_app; split; assumption|].
    intros r m' w' [= <- <- <-]. apply synced_from_refl.
  - unfold getMigrationStatuses.
    destruct (status_loop_spec order m w2) as (r & m' & w3 & rest3 & -> & Ht3 & Hq3 & Hs).
    exists (rest1 ++ rest2 ++ rest3). cbn [world_of].
    rewrite Ht3, Ht2, Ht1, !app_assoc. split; [reflexivity|].
    split; [repeat (apply Forall_app; split); assumption|].
    intros r' m'' w' [= <- <- <-]. exact Hs.
  - exists (rest1 ++ rest2). rewrite Ht2, Ht1, app_assoc.
    split; [reflexivity|]. split; [apply Forall_app; split; assumption|].
    discriminate.
Qed.

Lemma Migrate_success_none_inactive order m (w : World DB) m1 w1 :
  Migrate drv order m w = Done (None, m1) w1 -> none_inactive m1.
Proof.
  rewrite Migrate_unfold.
  destruct (Migrate_prepare drv order m w) as [[[e|] m0] w0|h w0]; try discriminate.
  intros Hloop.
  destruct (migrate_loop_spec (Migrations Inactive m0) m0 w0)
    as (applied & rest & m2 & w2 & Hpend & Hall & Hrest).
  { intros p. apply Migrations_In_key. }
  destruct rest as [|p rest].
  2:{ destruct Hrest as (e & w3 & _ & E). congruence. }
  rewrite app_nil_r in Hpend. subst applied.
  rewrite Hrest in Hloop. injection Hloop as -> ->.
  destruct (applies_all_keeps _ _ _ _ _ _ Hall) as (Hout & Hin & _).
  intros p mig Hp Hs.
  destruct (in_dec N.eq_dec p (Migrations Inactive m0)) as [Hi|Hi].
  - destruct (Hin p Hi) as (mig' & Hp' & Hs'). rewrite Hp in Hp'.
    injection Hp' as <-. rewrite Hs in Hs'. discriminate.
  - apply Hi. apply Migrations_In_status; [discriminate|].
    exists mig. rewrite <- (Hout p Hi). split; assumption.
Qed.

(** C6: after a [Migrate] that returned nil, no migration of the Migrator
    is Inactive, and a second [Migrate] (whatever the database has become in
    between and whatever it answers) applies nothing: every event it adds
    lies outside a transaction, so no transaction is opened, no script
    command is run and no bookkeeping row is inserted or deleted; the
    migrations it leaves are the same, at most marked Active again. *)
Theorem Migrate_twice_applies_nothing order1 order2 m (w : World DB) m1 w1 :
  Migrate drv order1 m w = Done (None, m1) w1 ->
  forall w2 : World DB,
    Migrations Inactive m1 = [] /\
    exists rest,
      trace (world_of (Migrate drv order2 m1 w2)) = trace w2 ++ rest /\
      Forall quiet rest /\
      forall e m2 w3, Migrate drv order2 m1 w2 = Done (e, m2) w3 ->
                      synced_from m1 m2 /\ Migrations Inactive m2 = [].
Proof.
  intros H w2. apply Migrate_success_none_inactive in H.
  split; [exact (none_inactive_Migrations _ H)|].
  rewrite Migrate_unfold.
  destruct (Migrate_prepare_spec order2 m1 w2) as (rest & Ht & Hq & Hs).
  exists rest.
  destruct (Migrate_prepare drv order2 m1 w2) as [[[e|] m2] w3|h w3];
    cbn [world_of] in *.
  - split; [exact Ht|]. split; [exact Hq|].
    intros e' m2' w3' [= <- <- <-]. specialize (Hs _ _ _ eq_refl).
    split; [exact Hs|]. apply none_inactive_Migrations.
    exact (synced_none_inactive _ _ Hs H).
  - specialize (Hs _ _ _ eq_refl).
    rewrite (none_inactive_Migrations m2 (synced_none_inactive _ _ Hs H)).
    cbn [migrate_loop ret world_of]. split; [exact Ht|]. split; [exact Hq|].
    intros e' m2' w3' [= <- <- <-]. split; [exact Hs|].
    apply none_inactive_Migrations. exact (synced_none_inactive _ _ Hs H).
  - split; [exact Ht|]. split; [exact Hq|]. discriminate.
Qed.

Lemma status_at_spec m p st :
  status_at m p = Some st <->
  exists mig, migrations m !! p = Some mig /\ Status mig = st.
Proof.
  unfold status_at. destruct (migrations m !! p) as [mig|]; cbn.
  - split; [intros [= <-]; eauto|intros (mig' & [= <-] & <-); reflexivity].
  - split; [discriminate|intros (mig' & E & _); discriminate].
Qed.

(** C5: once the table has been looked for (and created) and the statuses
    synchronised, [Migrate] goes through the migrations that are then
    Inactive, and only those, in strictly ascending id order, applying each
    in the up direction; it stops at the first application that returns an
    error and returns that error; the migrations applied before are Active
    in the Migrator (their transactions were committed), the others are
    left as they were. *)
Theorem Migrate_applies_inactive_ascending order m (w : World DB) :
  match Migrate_prepare drv order m w with
  | Halted h w1 => Migrate drv order m w = Halted h w1
  | Done (Some e, m1) w1 => Migrate drv order m w = Done (Some e, m1) w1
  | Done (None, m1) w1 =>
      let pending := Migrations Inactive m1 in
      StronglySorted N.lt pending /\
      (forall p, In p pending <-> status_at m1 p = Some Inactive) /\
      exists applied rest m2 w2,
        pending = applied ++ rest /\
        applies_all drv upMigration applied (m1, w1) (m2, w2) /\
        (forall p, In p applied -> status_at m2 p = Some Active) /\
        (forall p, In p rest -> migrations m2 !! p = migrations m1 !! p) /\
        match rest with
        | [] => Migrate drv order m w = Done (None, m2) w2
        | p :: _ =>
            exists e w3,
              apply_at drv p upMigration m2 w2 = Done (Some e, m2) w3 /\
              Migrate drv order m w = Done (Some e, m2) w3
        end
  end.
Proof.
  rewrite Migrate_unfold.
  destruct (Migrate_prepare drv order m w) as [[[e|] m1] w1|h w1]; try reflexivity.
  cbv zeta. split; [apply Migrations_sorted|].
  split.
  { intros p. rewrite status_at_spec. apply Migrations_In_status. discriminate. }
  destruct (migrate_loop_spec (Migrations Inactive m1) m1 w1)
    as (applied & rest & m2 & w2 & Hpend & Hall & Hrest).
  { intros p. apply Migrations_In_key. }
  exists applied, rest, m2, w2.
  destruct (applies_all_keeps _ _ _ _ _ _ Hall) as (Hout & Hin & _).
  split; [exact Hpend|]. split; [exact Hall|]. split; [|split; [|exact Hrest]].
  - intros p Hp. apply status_at_spec. exact (Hin p Hp).
  - intros p Hp. apply Hout. intros Hp'.
    pose proof (Migrations_sorted Inactive m1) as Hs. rewrite Hpend in Hs.
    assert (Hlt : (p < p)%N).
    { eapply (StronglySorted_app_1_elem_of N.lt applied rest);
        [exact Hs|apply list_elem_of_In; exact Hp'|apply list_elem_of_In; exact Hp]. }
    lia.
Qed.

(** ** [CreateMigrationsTable] *)

(** C2: what [CreateMigrationsTable] does with a failure of the creation
    statement.  It issues the fatal-level log call carrying the failure, and
    with a logger whose [Fatalf] ends the process the call stops there.
    With a logger whose [Fatalf] returns the function goes on: it logs that
    the table was created and returns nil.  The failure is never returned:
    the function has no [return err]. *)
Theorem CreateMigrationsTable_fatal_not_returned m (w : World DB) e :
  snd (drvExec drv (CreateMigrationTableSql (dbAdapter m)) [] (db w)) = Some e ->
  let d := fst (drvExec drv (CreateMigrationTableSql (dbAdapter m)) [] (db w)) in
  let failed := DbExec (CreateMigrationTableSql (dbAdapter m)) [] (Some e) in
  let fatal := Log Fatalf "Error creating migrations table: %v" [VError (External e)] in
  let created := Log Printf "Created migrations table: %s" [VString migrationTableName] in
  let o := CreateMigrationsTable drv m w in
  (Fatalf_exits (logger m) = true ->
   o = Halted (OsExit 1) {| db := d; trace := trace w ++ [failed; fatal] |}) /\
  (Fatalf_exits (logger m) = false ->
   o = Done None {| db := d; trace := trace w ++ [failed; fatal; created] |}) /\
  (forall err w', o <> Done (Some err) w').
Proof.
  intros He. cbv zeta.
  split; [|split].
  - intros Hx. rewrite CreateMigrationsTable_run. cbv zeta. rewrite He, Hx.
    rewrite <- app_assoc. reflexivity.
  - intros Hx. rewrite CreateMigrationsTable_run. cbv zeta. rewrite He, Hx.
    rewrite <- !app_assoc. reflexivity.
  - destruct (CreateMigrationsTable_spec m w) as (rest & _ & _ & H). exact H.
Qed.

(** ** [RollbackN] *)

Lemma rollback_loop_overrun migs lastMigration : forall k m (w : World DB),
  lastMigration < -1 -> (k <= length migs)%nat ->
  (forall p, In p migs -> is_Some (migrations m !! p)) ->
  match rollback_loop drv migs lastMigration k m w with
  | Done (None, _) _ => False
  | Done (Some _, _) _ => True
  | Halted h _ => h = IndexOutOfRange (-1) (length migs)
  end.
Proof.
  induction k as [|i IH]; intros m w Hlast Hk Hkeys; cbn [rollback_loop].
  - destruct (Z.eqb_spec (Z.of_nat 0 - 1) lastMigration); [lia|]. reflexivity.
  - destruct (Z.eqb_spec (Z.of_nat (S i) - 1) lastMigration); [lia|].
    destruct (lookup_lt_is_Some_2 migs i) as [p Hp]; [lia|]. rewrite Hp.
    assert (Hin : In p migs).
    { apply list_elem_of_In. eapply list_elem_of_lookup_2. exact Hp. }
    destruct (Hkeys p Hin) as [mig Hmig].
    unfold bind.
    destruct (apply_at_spec p downMigration m w mig Hmig)
      as (e & w' & rest & _ & [[Hne ->]|[-> ->]]); cbn [fst snd].
    + destruct e as [err|]; [exact I|congruence].
    + apply IH; [exact Hlast|lia|].
      intros q Hq. cbn [store migrations].
      destruct (decide (p = q)) as [E|Hne].
      * subst q. rewrite lookup_insert_eq. eauto.
      * rewrite lookup_insert_ne by exact Hne. exact (Hkeys q Hq).
Qed.

(** C1: what [RollbackN] does when asked for more migrations than are
    Active.  Once the statuses are synchronised and at least one migration is
    Active, a call with [n] above the number of Active migrations never
    returns nil: either an application fails and its error is returned, or,
    when every Active migration has been rolled back, the loop reads
    [migrations[-1]] and the call panics. *)
Theorem RollbackN_beyond_active_never_succeeds order n m (w : World DB) m1 w1 :
  getMigrationStatuses drv order m w = Done (None, m1) w1 ->
  Migrations Active m1 <> [] ->
  Z.of_nat (length (Migrations Active m1)) < n < 2 ^ 63 ->
  match RollbackN drv order n m w with
  | Done (None, _) _ => False
  | Done (Some _, _) _ => True
  | Halted h _ => h = IndexOutOfRange (-1) (length (Migrations Active m1))
  end.
Proof.
  intros Hsync Hne Hn. unfold RollbackN, bind. rewrite Hsync. cbn [fst snd].
  destruct (Nat.eqb_spec (length (Migrations Active m1)) 0) as [E|_].
  { destruct (Migrations Active m1); [congruence|discriminate]. }
  apply rollback_loop_overrun; [|lia|].
  - rewrite wrap_int_small; lia.
  - intros p. apply Migrations_In_key.
Qed.

End MigratorFacts.

(** The engine run on the reference database. *)

Lemma CreateMigrationsTable_fatal_not_returned_witness :
  (Fatalf_exits (logger returning_logger_migrator) = true ->
   CreateMigrationsTable (memDriver Postgres) returning_logger_migrator world_with_table
   = Halted (OsExit 1)
       {| db := db world_with_table;
          trace := [DbExec (CreateMigrationTableSql Postgres) [] (Some (ExtErr 3));
                    Log Fatalf "Error creating migrations table: %v"
                        [VError (External (ExtErr 3))]] |}) /\
  (Fatalf_exits (logger returning_logger_migrator) = false ->
   CreateMigrationsTable (memDriver Postgres) returning_logger_migrator world_with_table
   = Done None
       {| db := db world_with_table;
          trace := [DbExec (CreateMigrationTableSql Postgres) [] (Some (ExtErr 3));
                    Log Fatalf "Error creating migrations table: %v"
                        [VError (External (ExtErr 3))];
                    Log Printf "Created migrations table: %s"
                        [VString migrationTableName]] |}) /\
  (forall err w',
     CreateMigrationsTable (memDriver Postgres) returning_logger_migrator world_with_table
     <> Done (Some err) w').
Proof.
  refine (CreateMigrationsTable_fatal_not_returned (memDriver Postgres)
            returning_logger_migrator world_with_table (ExtErr 3) _).
  vm_compute. reflexivity.
Defined.

(** The failing run itself: the creation statement fails on a database that
    already holds the table.  With the standard logger the process ends;
    with a logger whose [Fatalf] returns the call reports the table as
    created and returns nil. *)
Lemma CreateMigrationsTable_failure_runs :
  snd (drvExec (memDriver Postgres) (CreateMigrationTableSql Postgres) []
               (db world_with_table)) = Some (ExtErr 3) /\
  CreateMigrationsTable (memDriver Postgres) example_migrator world_with_table
  = Halted (OsExit 1)
      {| db := db world_with_table;
         trace := [DbExec (CreateMigrationTableSql Postgres) [] (Some (ExtErr 3));
                   Log Fatalf "Error creating migrations table: %v"
                       [VError (External (ExtErr 3))]] |} /\
  CreateMigrationsTable (memDriver Postgres) returning_logger_migrator world_with_table
  = Done None
      {| db := db world_with_table;
         trace := [DbExec (CreateMigrationTableSql Postgres) [] (Some (ExtErr 3));
                   Log Fatalf "Error creating migrations table: %v"
                       [VError (External (ExtErr 3))];
                   Log Printf "Created migrations table: %s"
                       [VString migrationTableName]] |}.
Proof. repeat split. Qed.

Lemma Migrate_twice_applies_nothing_witness :
  Migrations Inactive (fst migrated_example) = [] /\
  exists rest,
    trace (world_of (Migrate (memDriver Postgres) [2%N; 1%N]
                             (fst migrated_example) (snd migrated_example)))
    = trace (snd migrated_example) ++ rest /\
    Forall quiet rest /\
    forall e m2 w3,
      Migrate (memDriver Postgres) [2%N; 1%N]
              (fst migrated_example) (snd migrated_example) = Done (e, m2) w3 ->
      synced_from (fst migrated_example) m2 /\ Migrations Inactive m2 = [].
Proof.
  apply (Migrate_twice_applies_nothing (memDriver Postgres) [1%N; 2%N] [2%N; 1%N]
           example_migrator fresh_world (fst migrated_example) (snd migrated_example)).
  vm_compute. reflexivity.
Defined.

Lemma RollbackN_beyond_active_witness :
  match RollbackN (memDriver Postgres) [1%N; 2%N] 3
                  (fst migrated_example) (snd migrated_example) with
  | Done (None, _) _ => False
  | Done (Some _, _) _ => True
  | Halted h _ => h = IndexOutOfRange (-1) 2
  end.
Proof.
  refine (RollbackN_beyond_active_never_succeeds (memDriver Postgres) [1%N; 2%N] 3
            (fst migrated_example) (snd migrated_example)
            (fst synced_example) (snd synced_example) _ _ _).
  - vm_compute. reflexivity.
  - vm_compute. discriminate.
  - vm_compute. split; reflexivity.
Defined.

(** The end-to-end example: [Migrate] records the ids 1 and 2, in that
    order, and leaves both migrations Active; [Rollback] then drops the row
    of 2 only. *)
Lemma example_end_to_end :
  inserted_ids Postgres (trace (snd migrated_example)) = [1%N; 2%N] /\
  mem_rows (db (snd migrated_example)) = [2%N; 1%N] /\
  Migrations Active (fst migrated_example) = [1%N; 2%N] /\
  match Rollback (memDriver Postgres) [1%N; 2%N]
                 (fst migrated_example) (snd migrated_example) with
  | Done (None, m) w => mem_rows (db w) = [1%N] /\ Migrations Active m = [1%N]
  | _ => False
  end.
Proof. vm_compute. repeat split. Qed.

(** The example migrator is the one the constructor builds, and a second
    Migrator built for the migrated database (all its statuses Inactive
    until synchronised) applies nothing either. *)
Lemma example_new_migrator :
  NewMigratorWithMigrations Postgres [users_migration; posts_migration]
  = inr example_migrator /\
  NewMigratorWithMigrations Postgres [users_migration; set_Status Active users_migration]
  = inl ErrDuplicateMigration /\
  List.filter is_tx_event
    (drop (length (trace (snd migrated_example)))
          (trace (world_of (Migrate (memDriver Postgres) [2%N; 1%N]
                                    example_migrator (snd migrated_example)))))
  = [].
Proof. vm_compute. repeat split. Qed.

(** The failing run itself: both Active migrations are rolled back (the
    table is left without rows), then the call panics. *)
Lemma RollbackN_beyond_active_panics :
  match RollbackN (memDriver Postgres) [1%N; 2%N] 3
                  (fst migrated_example) (snd migrated_example) with
  | Halted h w => h = IndexOutOfRange (-1) 2 /\ mem_rows (db w) = []
  | Done _ _ => False
  end.
Proof. vm_compute. split; reflexivity. Qed.

(* ===================================================================== *)
(** * Part 11: properties of the loader                                   *)
(* ===================================================================== *)

Lemma last_byte_nonempty c rest : is_Some (last_byte (String c rest)).
Proof.
  unfold last_byte. cbn [list_ascii_of_string].
  destruct (last (c :: list_ascii_of_string rest)) eqn:E; [eauto|].
  apply last_None in E. discriminate.
Qed.

Lemma range_map_Forall (P : Migration -> Prop) order (migs : gmap N Migration) :
  (forall p mig, migs !! p = Some mig -> P mig) ->
  Forall (fun pm => P (snd pm)) (range_map order migs).
Proof.
  intros H. apply List.Forall_forall. intros [p mig] Hin.
  apply list_elem_of_In in Hin. unfold range_map in Hin.
  apply list_elem_of_omap in Hin as (q & _ & Hq).
  destruct (migs !! q) as [mig'|] eqn:E; [|discriminate].
  injection Hq as <- <-. exact (H q mig' E).
Qed.

Section LoaderFacts.

Context {DB : Type}.
Variable parseMigrationPath : string -> option (N * migrationType * string).
Variable fs : FileSystem.

Lemma normalize_path_nonempty c rest (w : World DB) :
  normalize_path (String c rest) w = Done (with_slash (String c rest)) w.
Proof.
  unfold normalize_path, with_slash.
  destruct (last_byte_nonempty c rest) as [b ->].
  destruct (decide (b = "/"%char)); reflexivity.
Qed.

Lemma load_matches_total matches : forall migs (w : World DB),
  exists r w', load_matches parseMigrationPath fs matches migs w = Done r w'.
Proof.
  induction matches as [|f matches IH]; intros migs w; cbn [load_matches].
  - eauto.
  - destruct (parseMigrationPath f) as [[[num mType] name]|]; run; [|apply IH].
    destruct (ReadFile fs f) as [sql|e]; run; [|eauto].
    destruct (migs !! num); apply IH.
Qed.

Lemma validate_all_total ms : forall w : World DB,
  exists r w', validate_all ms w = Done r w'.
Proof.
  induction ms as [|[p mig] ms IH]; intros w; cbn [validate_all]; [eauto|].
  destruct (Validate mig); run; [eauto|apply IH].
Qed.

Lemma validate_all_valid ms (w : World DB) :
  Forall (fun pm => Validate (snd pm) = None) ms -> validate_all ms w = Done None w.
Proof.
  induction 1 as [|[p mig] ms Hv _ IH]; cbn [validate_all]; [reflexivity|].
  cbn [snd] in Hv. rewrite Hv. exact IH.
Qed.

(** C10: the path normalisation reads the last byte of the path before
    anything else.  For the empty path the index is [-1], out of range: the
    call panics at once, having logged nothing.  For every non-empty path
    the read is in bounds and the call returns. *)
Theorem MigrationsFromPath_path_indexing order1 order2 (w : World DB) :
  MigrationsFromPath parseMigrationPath fs order1 order2 "" w
  = Halted (IndexOutOfRange (-1) 0) w /\
  forall c rest,
    is_Some (last_byte (String c rest)) /\
    normalize_path (String c rest) w = Done (with_slash (String c rest)) w /\
    exists r w',
      MigrationsFromPath parseMigrationPath fs order1 order2 (String c rest) w
      = Done r w'.
Proof.
  split; [reflexivity|]. intros c rest.
  split; [apply last_byte_nonempty|]. split; [apply normalize_path_nonempty|].
  unfold MigrationsFromPath. unfold bind at 1. rewrite normalize_path_nonempty.
  run. destruct (Glob fs _) as [matches|e]; [|eauto].
  match goal with |- context [load_matches _ _ matches ∅ ?w0] =>
    destruct (load_matches_total matches ∅ w0) as ([err|migs] & w1 & ->) end; [eauto|].
  destruct (validate_all_total (range_map order1 migs) w1) as ([e|] & w2 & ->); eauto.
Qed.

(** Two files with the same id: one migration, named after the first. *)
Lemma MigrationsFromPath_same_id order1 path (w : World DB)
      f1 f2 num t1 t2 name1 name2 sql1 sql2 :
  path <> EmptyString ->
  Glob fs (with_slash path +:+ "*") = FsOk [f1; f2] ->
  parseMigrationPath f1 = Some (num, t1, name1) ->
  parseMigrationPath f2 = Some (num, t2, name2) ->
  ReadFile fs f1 = FsOk sql1 -> ReadFile fs f2 = FsOk sql2 ->
  num <> 0%N -> name1 <> EmptyString ->
  exists w',
    MigrationsFromPath parseMigrationPath fs order1 [num] path w
    = Done (inr [fill t2 sql2 (set_Source (f1 +:+ " " +:+ f2)
                                 (fill t1 sql1 (first_seen num name1 f1)))]) w'.
Proof.
  intros Hpath Hglob Hp1 Hp2 Hr1 Hr2 Hnum Hname.
  destruct path as [|c rest]; [congruence|].
  unfold MigrationsFromPath. unfold bind at 1. rewrite normalize_path_nonempty.
  run. rewrite Hglob. cbn [load_matches]. rewrite Hp1, Hp2. run.
  rewrite Hr1, Hr2, lookup_empty, lookup_insert_eq, insert_insert_eq.
  set (mig := if String.eqb t2 upMigration then _ else _).
  assert (Hmig : mig = fill t2 sql2 (set_Source (f1 +:+ " " +:+ f2)
                                       (fill t1 sql1 (first_seen num name1 f1))))
    by (unfold mig, fill, first_seen; destruct (String.eqb t1 upMigration); reflexivity).
  clearbody mig.
  assert (Hvalid : Validate mig = None).
  { rewrite Hmig. unfold fill, Validate.
    assert (Hid : forall mm, ID (if String.eqb t2 upMigration
                                 then set_Up sql2 mm else set_Down sql2 mm) = ID mm)
      by (intros mm; destruct (String.eqb t2 upMigration); reflexivity).
    assert (Hnm : forall mm, Name (if String.eqb t2 upMigration
                                   then set_Up sql2 mm else set_Down sql2 mm) = Name mm)
      by (intros mm; destruct (String.eqb t2 upMigration); reflexivity).
    rewrite Hid, Hnm. cbn [set_Source ID Name].
    destruct (String.eqb t1 upMigration); cbn [set_Up set_Down first_seen ID Name];
      (destruct (N.eqb_spec num 0); [contradiction|]);
      (destruct (String.eqb_spec name1 ""); [contradiction|reflexivity]). }
  rewrite validate_all_valid.
  2:{ apply (range_map_Forall (fun mm => Validate mm = None)). intros p mm Hp.
      apply lookup_insert_Some in Hp as [[_ <-]|[_ Hp]]; [exact Hvalid|].
      rewrite lookup_empty in Hp. discriminate. }
  run. unfold range_map. cbn [omap list_omap]. rewrite lookup_insert_eq.
  cbn [fmap option_fmap option_map map snd]. rewrite Hmig. eauto.
Qed.

(** Two files with different ids: two migrations. *)
Lemma MigrationsFromPath_two_ids order1 order2 path (w : World DB)
      f1 f2 num1 num2 t1 t2 name1 name2 sql1 sql2 :
  path <> EmptyString ->
  Glob fs (with_slash path +:+ "*") = FsOk [f1; f2] ->
  parseMigrationPath f1 = Some (num1, t1, name1) ->
  parseMigrationPath f2 = Some (num2, t2, name2) ->
  ReadFile fs f1 = FsOk sql1 -> ReadFile fs f2 = FsOk sql2 ->
  num1 <> num2 -> num1 <> 0%N -> num2 <> 0%N ->
  name1 <> EmptyString -> name2 <> EmptyString ->
  order2 ≡ₚ [num1; num2] ->
  exists l w',
    MigrationsFromPath parseMigrationPath fs order1 order2 path w = Done (inr l) w' /\
    l ≡ₚ [fill t1 sql1 (first_seen num1 name1 f1);
          fill t2 sql2 (first_seen num2 name2 f2)].
Proof.
  intros Hpath Hglob Hp1 Hp2 Hr1 Hr2 Hne Hn1 Hn2 Hm1 Hm2 Horder.
  destruct path as [|c rest]; [congruence|].
  unfold MigrationsFromPath. unfold bind at 1. rewrite normalize_path_nonempty.
  run. rewrite Hglob. cbn [load_matches]. rewrite Hp1, Hp2. run.
  rewrite Hr1, Hr2, lookup_empty, lookup_insert_ne, lookup_empty by exact Hne.
  set (A := if String.eqb t1 upMigration then set_Up sql1 _ else _).
  set (B := if String.eqb t2 upMigration then set_Up sql2 _ else _).
  assert (EA : A = fill t1 sql1 (first_seen num1 name1 f1)) by reflexivity.
  assert (EB : B = fill t2 sql2 (first_seen num2 name2 f2)) by reflexivity.
  rewrite <- EA, <- EB.
  assert (HA : Validate A = None).
  { unfold A, fill, Validate.
    destruct (String.eqb t1 upMigration); cbn [set_Up set_Down first_seen ID Name];
      (destruct (N.eqb_spec num1 0); [contradiction|]);
      (destruct (String.eqb_spec name1 ""); [contradiction|reflexivity]). }
  assert (HB : Validate B = None).
  { unfold B, fill, Validate.
    destruct (String.eqb t2 upMigration); cbn [set_Up set_Down first_seen ID Name];
      (destruct (N.eqb_spec num2 0); [contradiction|]);
      (destruct (String.eqb_spec name2 ""); [contradiction|reflexivity]). }
  clearbody A B.
  rewrite validate_all_valid.
  2:{ apply (range_map_Forall (fun mm => Validate mm = None)). intros p mm Hp.
      apply lookup_insert_Some in Hp as [[_ <-]|[_ Hp]]; [exact HB|].
      apply lookup_insert_Some in Hp as [[_ <-]|[_ Hp]]; [exact HA|].
      rewrite lookup_empty in Hp. discriminate. }
  run. eexists _, _. split; [reflexivity|].
  symmetry in Horder. apply Permutation_length_2_inv in Horder as [->| ->];
    unfold range_map; cbn [omap list_omap].
  - rewrite lookup_insert_eq, lookup_insert_ne, lookup_insert_eq by congruence.
    reflexivity.
  - rewrite lookup_insert_eq, lookup_insert_ne, lookup_insert_eq by congruence.
    cbn [fmap option_fmap option_map map snd]. apply Permutation_swap.
Qed.

End LoaderFacts.

(** C8: a directory that lists the two files [5_foo_up.sql] and
    [5_foo_down.sql] (in either order) loads as exactly one migration, with
    id 5, name [foo], both scripts taken from the respective files and a
    source made of the two paths joined by one space; a directory that
    lists [5_foo_up.sql] and [6_bar_down.sql] loads as two migrations.
    The file names are read by [parseMigrationPath], which is given. *)
Theorem MigrationsFromPath_pairs_by_id :
  (forall DB parse fs order1 path (w : World DB) f1 f2 up_sql down_sql,
      let up_file := with_slash path +:+ "5_foo_up.sql" in
      let down_file := with_slash path +:+ "5_foo_down.sql" in
      path <> EmptyString ->
      parse up_file = Some (5%N, upMigration, "foo") ->
      parse down_file = Some (5%N, downMigration, "foo") ->
      ReadFile fs up_file = FsOk up_sql ->
      ReadFile fs down_file = FsOk down_sql ->
      Glob fs (with_slash path +:+ "*") = FsOk [f1; f2] ->
      (f1 = down_file /\ f2 = up_file) \/ (f1 = up_file /\ f2 = down_file) ->
      exists w',
        MigrationsFromPath parse fs order1 [5%N] path w
        = Done (inr [{| ID := 5; Name := "foo"; Status := Inactive;
                        Up := up_sql; Down := down_sql;
                        Source := f1 +:+ " " +:+ f2 |}]) w') /\
  (forall DB parse fs order1 order2 path (w : World DB) up_sql down_sql,
      let up_file := with_slash path +:+ "5_foo_up.sql" in
      let down_file := with_slash path +:+ "6_bar_down.sql" in
      path <> EmptyString ->
      parse up_file = Some (5%N, upMigration, "foo") ->
      parse down_file = Some (6%N, downMigration, "bar") ->
      ReadFile fs up_file = FsOk up_sql ->
      ReadFile fs down_file = FsOk down_sql ->
      Glob fs (with_slash path +:+ "*") = FsOk [up_file; down_file] ->
      order2 ≡ₚ [5%N; 6%N] ->
      exists l w',
        MigrationsFromPath parse fs order1 order2 path w = Done (inr l) w' /\
        l ≡ₚ [{| ID := 5; Name := "foo"; Status := Inactive;
                 Up := up_sql; Down := ""; Source := up_file |};
              {| ID := 6; Name := "bar"; Status := Inactive;
                 Up := ""; Down := down_sql; Source := down_file |}]).
Proof.
  split.
  - intros DB parse fs order1 path w f1 f2 up_sql down_sql up_file down_file
           Hpath Hup Hdown Hru Hrd Hglob [[-> ->]|[-> ->]].
    + exact (MigrationsFromPath_same_id parse fs order1 path w down_file up_file
               5%N downMigration upMigration "foo" "foo" down_sql up_sql
               Hpath Hglob Hdown Hup Hrd Hru ltac:(discriminate) ltac:(discriminate)).
    + exact (MigrationsFromPath_same_id parse fs order1 path w up_file down_file
               5%N upMigration downMigration "foo" "foo" up_sql down_sql
               Hpath Hglob Hup Hdown Hru Hrd ltac:(discriminate) ltac:(discriminate)).
  - intros DB parse fs order1 order2 path w up_sql down_sql up_file down_file
           Hpath Hup Hdown Hru Hrd Hglob Horder.
    exact (MigrationsFromPath_two_ids parse fs order1 order2 path w up_file down_file
             5%N 6%N upMigration downMigration "foo" "bar" up_sql down_sql
             Hpath Hglob Hup Hdown Hru Hrd ltac:(discriminate) ltac:(discriminate)
             ltac:(discriminate) ltac:(discriminate) ltac:(discriminate) Horder).
Qed.

Lemma MigrationsFromPath_pairs_by_id_witness :
  (exists w',
      MigrationsFromPath parseMigrationPath_spec
        (dir_fs "migs" [("5_foo_down.sql", "DROP TABLE foo");
                        ("5_foo_up.sql", "CREATE TABLE foo()")])
        [5%N] [5%N] "migs" fresh_world
      = Done (inr [{| ID := 5; Name := "foo"; Status := Inactive;
                      Up := "CREATE TABLE foo()"; Down := "DROP TABLE foo";
                      Source := "migs/5_foo_down.sql migs/5_foo_up.sql" |}]) w') /\
  (exists l w',
      MigrationsFromPath parseMigrationPath_spec
        (dir_fs "migs" [("5_foo_up.sql", "CREATE TABLE foo()");
                        ("6_bar_down.sql", "DROP TABLE bar")])
        [5%N; 6%N] [6%N; 5%N] "migs" fresh_world
      = Done (inr l) w' /\
      l ≡ₚ [{| ID := 5; Name := "foo"; Status := Inactive;
               Up := "CREATE TABLE foo()"; Down := "";
               Source := "migs/5_foo_up.sql" |};
            {| ID := 6; Name := "bar"; Status := Inactive;
               Up := ""; Down := "DROP TABLE bar";
               Source := "migs/6_bar_down.sql" |}]).
Proof.
  split.
  - apply (proj1 MigrationsFromPath_pairs_by_id MemDB parseMigrationPath_spec
             (dir_fs "migs" [("5_foo_down.sql", "DROP TABLE foo");
                             ("5_foo_up.sql", "CREATE TABLE foo()")])
             [5%N] "migs" fresh_world
             "migs/5_foo_down.sql" "migs/5_foo_up.sql"
             "CREATE TABLE foo()" "DROP TABLE foo");
      try (vm_compute; reflexivity); [discriminate|].
    left. split; vm_compute; reflexivity.
  - apply (proj2 MigrationsFromPath_pairs_by_id MemDB parseMigrationPath_spec
             (dir_fs "migs" [("5_foo_up.sql", "CREATE TABLE foo()");
                             ("6_bar_down.sql", "DROP TABLE bar")])
             [5%N; 6%N] [6%N; 5%N] "migs" fresh_world
             "CREATE TABLE foo()" "DROP TABLE bar");
      try (vm_compute; reflexivity); [discriminate|].
    apply Permutation_swap.
Defined.

(** C9: what the loader does with two files of one id whose names differ.
    It does not compare the names: it returns, without error, one migration
    that carries the name of the file listed first and the scripts of both
    files. *)
Theorem MigrationsFromPath_keeps_mismatched_pair :
  forall DB parse fs order1 path (w : World DB)
         f1 f2 num t1 t2 name1 name2 sql1 sql2,
    path <> EmptyString ->
    Glob fs (with_slash path +:+ "*") = FsOk [f1; f2] ->
    parse f1 = Some (num, t1, name1) ->
    parse f2 = Some (num, t2, name2) ->
    ReadFile fs f1 = FsOk sql1 -> ReadFile fs f2 = FsOk sql2 ->
    num <> 0%N -> name1 <> EmptyString -> name1 <> name2 ->
    exists mig w',
      MigrationsFromPath parse fs order1 [num] path w = Done (inr [mig]) w' /\
      mig = fill t2 sql2 (set_Source (f1 +:+ " " +:+ f2)
                            (fill t1 sql1 (first_seen num name1 f1))) /\
      ID mig = num /\ Name mig = name1.
Proof.
  intros DB parse fs order1 path w f1 f2 num t1 t2 name1 name2 sql1 sql2
         Hpath Hglob Hp1 Hp2 Hr1 Hr2 Hnum Hname _.
  destruct (MigrationsFromPath_same_id parse fs order1 path w f1 f2 num t1 t2
              name1 name2 sql1 sql2 Hpath Hglob Hp1 Hp2 Hr1 Hr2 Hnum Hname) as [w' E].
  eexists _, w'. split; [exact E|]. split; [reflexivity|].
  unfold fill. destruct (String.eqb t2 upMigration), (String.eqb t1 upMigration);
    split; reflexivity.
Qed.

Lemma MigrationsFromPath_keeps_mismatched_pair_witness :
  exists mig w',
    MigrationsFromPath parseMigrationPath_spec
      (dir_fs "migs" [("5_bar_down.sql", "DROP TABLE t");
                      ("5_foo_up.sql", "CREATE TABLE t()")])
      [5%N] [5%N] "migs" fresh_world
    = Done (inr [mig]) w' /\
    mig = fill upMigration "CREATE TABLE t()"
            (set_Source ("migs/5_bar_down.sql" +:+ " " +:+ "migs/5_foo_up.sql")
               (fill downMigration "DROP TABLE t"
                  (first_seen 5%N "bar" "migs/5_bar_down.sql"))) /\
    ID mig = 5%N /\ Name mig = "bar".
Proof.
  apply (MigrationsFromPath_keeps_mismatched_pair MemDB parseMigrationPath_spec
           (dir_fs "migs" [("5_bar_down.sql", "DROP TABLE t");
                           ("5_foo_up.sql", "CREATE TABLE t()")])
           [5%N] "migs" fresh_world
           "migs/5_bar_down.sql" "migs/5_foo_up.sql" 5%N downMigration upMigration
           "bar" "foo" "DROP TABLE t" "CREATE TABLE t()");
    try (vm_compute; reflexivity); discriminate.
Defined.

(** The loader run on two files that share the id 5 and disagree on the
    name: one migration comes out, named after the file listed first, with
    the scripts of both files, and no error. *)
Lemma MigrationsFromPath_mismatched_names :
  match MigrationsFromPath parseMigrationPath_spec
          (dir_fs "migs" [("5_bar_down.sql", "DROP TABLE t");
                          ("5_foo_up.sql", "CREATE TABLE t()")])
          [5%N] [5%N] "migs" fresh_world with
  | Done r _ =>
      r = inr [{| ID := 5; Name := "bar"; Status := Inactive;
                  Up := "CREATE TABLE t()"; Down := "DROP TABLE t";
                  Source := "migs/5_bar_down.sql migs/5_foo_up.sql" |}]
  | Halted _ _ => False
  end.
Proof. vm_compute. reflexivity. Qed.

(* ===================================================================== *)
(** * Part 12: further properties                                         *)
(* ===================================================================== *)

(** ** [Validate] and [NewMigratorWithMigrations] *)

Lemma Validate_well_formed mig : Validate mig = None <-> well_formed mig.
Proof.
  unfold Validate, well_formed.
  destruct (N.eqb_spec (ID mig) 0); [split; [discriminate|tauto]|].
  destruct (String.eqb_spec (Name mig) ""); [split; [discriminate|tauto]|].
  tauto.
Qed.

Lemma well_formed_set_Status st mig : well_formed (set_Status st mig) <-> well_formed mig.
Proof. reflexivity. Qed.

Lemma with_id_None id ms : with_id id ms = None <-> ~ In id (map ID ms).
Proof.
  unfold with_id. induction ms as [|mig ms IH]; cbn [List.find map In]; [tauto|].
  destruct (N.eqb_spec (ID mig) id); [split; [discriminate|tauto]|].
  rewrite IH. tauto.
Qed.

Lemma add_migrations_spec ms : forall acc,
  match add_migrations ms acc with
  | inr migs =>
      Forall well_formed ms /\ NoDup (map ID ms) /\
      (forall mig, In mig ms -> acc !! ID mig = None) /\
      forall id, migs !! id = match with_id id ms with
                              | Some mig => Some (set_Status Inactive mig)
                              | None => acc !! id
                              end
  | inl err =>
      (Forall well_formed ms ->
       err = ErrDuplicateMigration /\
       ~ (NoDup (map ID ms) /\ forall mig, In mig ms -> acc !! ID mig = None)) /\
      (err <> ErrDuplicateMigration -> ~ Forall well_formed ms)
  end.
Proof.
  induction ms as [|m ms IH]; intros acc; cbn [add_migrations].
  - split; [constructor|]. split; [constructor|]. split; [intros mig []|reflexivity].
  - destruct (Validate (set_Status Inactive m)) as [err|] eqn:Ev.
    { assert (Hn : ~ well_formed m).
      { intros Hw. apply (well_formed_set_Status Inactive), Validate_well_formed in Hw.
        congruence. }
      split.
      - intros Hall. inversion Hall; subst. contradiction.
      - intros _ Hall. inversion Hall; subst. contradiction. }
    apply Validate_well_formed, well_formed_set_Status in Ev.
    change (ID (set_Status Inactive m)) with (ID m).
    destruct (acc !! ID m) as [old|] eqn:Eacc.
    { split; [|congruence]. intros _. split; [reflexivity|].
      intros [_ Hfree]. specialize (Hfree m (or_introl eq_refl)). congruence. }
    specialize (IH (<[ID m := set_Status Inactive m]> acc)).
    destruct (add_migrations ms _) as [err|migs].
    + destruct IH as [Hdup Hinv]. split.
      * intros Hall. inversion Hall as [|? ? _ Hms]; subst.
        destruct (Hdup Hms) as [-> Hno]. split; [reflexivity|].
        intros [Hnd Hfree]. apply Hno. cbn [map] in Hnd.
        apply NoDup_cons in Hnd as [Hm Hnd]. split; [exact Hnd|].
        intros mig Hmig. rewrite lookup_insert_ne.
        -- apply Hfree. right. exact Hmig.
        -- intros E. apply Hm. apply list_elem_of_In. rewrite E.
           apply in_map. exact Hmig.
      * intros Hne Hall. inversion Hall; subst. exact (Hinv Hne ltac:(assumption)).
    + destruct IH as (Hall & Hnd & Hfree & Hget).
      assert (Hm : ~ In (ID m) (map ID ms)).
      { intros Hin. apply in_map_iff in Hin as (mig & E & Hmig).
        specialize (Hfree mig Hmig). rewrite E, lookup_insert_eq in Hfree. discriminate. }
      split; [constructor; assumption|]. split.
      { cbn [map]. apply NoDup_cons. split; [|exact Hnd].
        intros Hin. apply Hm. apply list_elem_of_In. exact Hin. }
      split.
      { intros mig [<-|Hmig]; [exact Eacc|].
        specialize (Hfree mig Hmig).
        rewrite lookup_insert_ne in Hfree; [exact Hfree|].
        intros E. apply Hm. rewrite E. apply in_map. exact Hmig. }
      intros id. rewrite Hget. unfold with_id. cbn [List.find].
      destruct (N.eqb_spec (ID m) id) as [<-|Hne].
      * apply with_id_None in Hm. unfold with_id in Hm. rewrite Hm.
        apply lookup_insert_eq.
      * destruct (List.find _ ms); [reflexivity|]. apply lookup_insert_ne. exact Hne.
Qed.

(** X1: the constructor accepts a list exactly when every migration has a
    non-zero id and a non-empty name and no two share an id; the Migrator
    it builds holds each migration under its id with the status forced to
    Inactive, and nothing else; a well-formed list with a repeated id is
    refused as a duplicate. *)
Theorem NewMigratorWithMigrations_accepts adapter ms :
  ((exists m, NewMigratorWithMigrations adapter ms = inr m) <->
   (Forall well_formed ms /\ NoDup (map ID ms))) /\
  (forall m, NewMigratorWithMigrations adapter ms = inr m ->
     dbAdapter m = adapter /\
     forall id, migrations m !! id = set_Status Inactive <$> with_id id ms) /\
  (Forall well_formed ms ->
   (NewMigratorWithMigrations adapter ms = inl ErrDuplicateMigration
    <-> ~ NoDup (map ID ms))).
Proof.
  unfold NewMigratorWithMigrations.
  pose proof (add_migrations_spec ms ∅) as H.
  destruct (add_migrations ms ∅) as [err|migs].
  - destruct H as [Hdup Hinv]. split; [|split].
    + split; [intros [m E]; discriminate|].
      intros [Hall Hnd]. destruct (Hdup Hall) as [_ Hno]. exfalso. apply Hno.
      split; [exact Hnd|]. intros mig _. apply lookup_empty.
    + discriminate.
    + intros Hall. destruct (Hdup Hall) as [-> Hno]. split; [|reflexivity].
      intros _ Hnd. apply Hno. split; [exact Hnd|]. intros mig _. apply lookup_empty.
  - destruct H as (Hall & Hnd & _ & Hget). split; [|split].
    + split; [tauto|eauto].
    + intros m [= <-]. split; [reflexivity|]. intros id. cbn [migrations].
      rewrite Hget. destruct (with_id id ms); [reflexivity|apply lookup_empty].
    + intros _. split; [discriminate|]. intros Hno. contradiction.
Qed.

(** ** [Migrations] *)

Lemma Migrations_NoDup status m : NoDup (Migrations status m).
Proof.
  unfold Migrations. apply NoDup_ListNoDup, List.NoDup_filter, NoDup_ListNoDup.
  apply sorted_ids_NoDup.
Qed.

(** X2: [Migrations(status)] is strictly ascending (so free of duplicates)
    and lists exactly the ids of the map whose migration has the status;
    with [-1] it lists every id of the map. *)
Theorem Migrations_listing status m :
  StronglySorted N.lt (Migrations status m) /\
  NoDup (Migrations status m) /\
  forall p, In p (Migrations status m) <->
            exists mig, migrations m !! p = Some mig /\
                        (status = -1 \/ Status mig = status).
Proof.
  split; [apply Migrations_sorted|]. split; [apply Migrations_NoDup|].
  intros p. rewrite Migrations_In. unfold has_status.
  destruct (migrations m !! p) as [mig|].
  - destruct (Z.eqb_spec status (-1)) as [->|Hs]; cbn [orb].
    + split; [eauto|reflexivity].
    + destruct (Z.eqb_spec (Status mig) status) as [E|E].
      * split; [eauto|reflexivity].
      * split; [discriminate|]. intros (mig' & [= <-] & [?|?]); contradiction.
  - split; [discriminate|]. intros (mig' & E & _). discriminate.
Qed.

Section MoreMigratorFacts.

Context {DB : Type}.
Variable drv : Driver DB.

(** ** [getMigrationStatuses] *)

Lemma status_loop_queries ps : forall m (w : World DB),
  exists r m' w' rest,
    status_loop drv ps m w = Done (r, m') w' /\
    trace w' = trace w ++ rest /\
    Forall (is_status_query (dbAdapter m)) (db_events rest) /\
    r <> Some (External ErrNoRows).
Proof.
  induction ps as [|p ps IH]; intros m w.
  - exists None, m, w, []. rewrite app_nil_r.
    split; [reflexivity|]. split; [reflexivity|]. split; [constructor|discriminate].
  - cbn [status_loop]. destruct (migrations m !! p) as [migration|] eqn:Ep; [|apply IH].
    run. destruct (drvQueryRow drv _ _ (db w)) as [d [[|code]|]] eqn:Eq;
      cbn [db trace fst snd].
    + match goal with |- context [status_loop drv ps m ?w0] =>
        destruct (IH m w0) as (r & m' & w' & rest & -> & Ht & Hq & Hr) end.
      eexists r, m', w', (_ :: rest). split; [reflexivity|].
      split; [rewrite Ht; cbn [trace]; rewrite <- app_assoc; reflexivity|].
      split; [|exact Hr]. unfold db_events. cbn [List.filter is_db_event].
      constructor; [reflexivity|exact Hq].
    + eexists _, _, _, [_; _]. split; [reflexivity|].
      split; [cbn [trace]; rewrite <- app_assoc; reflexivity|].
      split; [|discriminate]. unfold db_events. cbn [List.filter is_db_event].
      constructor; [reflexivity|constructor].
    + match goal with |- context [status_loop drv ps ?m0 ?w0] =>
        destruct (IH m0 w0) as (r & m' & w' & rest & -> & Ht & Hq & Hr) end.
      eexists r, m', w', (_ :: rest). split; [reflexivity|].
      split; [rewrite Ht; cbn [trace]; rewrite <- app_assoc; reflexivity|].
      split; [|exact Hr]. unfold db_events. cbn [List.filter is_db_event].
      constructor; [reflexivity|exact Hq].
Qed.

(** X3: the status synchronisation always returns; its only calls on the
    database are status queries; it leaves the adapter, the logger and the
    set of migrations as they were and changes a migration only by marking
    it Active (it never marks one Inactive), also when it stops on an error;
    and a missing row is not an error: [sql.ErrNoRows] is never returned. *)
Theorem getMigrationStatuses_only_raises order m (w : World DB) :
  exists r m' w' rest,
    getMigrationStatuses drv order m w = Done (r, m') w' /\
    trace w' = trace w ++ rest /\
    Forall (is_status_query (dbAdapter m)) (db_events rest) /\
    synced_from m m' /\
    (forall p, status_at m p = Some Active -> status_at m' p = Some Active) /\
    r <> Some (External ErrNoRows).
Proof.
  unfold getMigrationStatuses.
  destruct (status_loop_queries order m w) as (r & m' & w' & rest & E & Ht & Hq & Hr).
  destruct (status_loop_spec drv order m w) as (r2 & m2 & w2 & rest2 & E2 & _ & _ & Hs).
  rewrite E in E2. injection E2 as <- <- <-.
  exists r, m', w', rest. repeat (split; [assumption|]). split; [|exact Hr].
  intros p Hp. destruct Hs as (_ & _ & Hs). unfold status_at in *.
  destruct (Hs p) as [->|(mig & E1 & ->)]; [exact Hp|reflexivity].
Qed.

(** ** [Migrate] never panics *)

Lemma migrate_loop_returns ps m (w : World DB) :
  (forall p, In p ps -> is_Some (migrations m !! p)) ->
  exists r w', migrate_loop drv ps m w = Done r w'.
Proof.
  intros Hk.
  destruct (migrate_loop_spec drv ps m w Hk) as (applied & rest & m2 & w2 & _ & _ & H).
  destruct rest as [|p rest]; [eauto|].
  destruct H as (e & w3 & _ & ->). eauto.
Qed.

(** X4: [Migrate] never panics.  The only way it does not return is the
    process exit of the logger's [Fatalf], which happens only when the
    metadata table was reported missing and the statement creating it
    failed. *)
Theorem Migrate_never_panics order m (w : World DB) :
  match Migrate drv order m w with
  | Done _ _ => True
  | Halted h w' =>
      h = OsExit 1 /\ Fatalf_exits (logger m) = true /\
      exists e, In (DbExec (CreateMigrationTableSql (dbAdapter m)) [] (Some e)) (trace w')
  end.
Proof.
  rewrite Migrate_unfold. unfold Migrate_prepare, bind, ret.
  destruct (MigrationTableExists_spec drv m w) as ([b r] & w1 & rest1 & -> & _ & _).
  cbn [fst snd]. destruct r as [e|]; [exact I|].
  destruct b; cbn [negb].
  - unfold getMigrationStatuses.
    destruct (status_loop_spec drv order m w1) as (r & m' & w3 & rest3 & -> & _ & _ & _).
    destruct r as [e|]; [exact I|].
    destruct (migrate_loop_returns (Migrations Inactive m') m' w3) as (r & w4 & ->);
      [intros p; apply Migrations_In_key|exact I].
  - rewrite CreateMigrationsTable_run. cbv zeta.
    destruct (drvExec drv _ _ (db w1)) as [d [e|]]; cbn [fst snd].
    + destruct (Fatalf_exits (logger m)).
      * split; [reflexivity|]. split; [reflexivity|]. exists e. cbn [trace].
        apply in_or_app. left. apply in_or_app. right. left. reflexivity.
      * unfold getMigrationStatuses.
        match goal with |- context [status_loop drv order m ?w0] =>
          destruct (status_loop_spec drv order m w0)
            as (r & m' & w3 & rest3 & -> & _ & _ & _) end.
        destruct r as [e'|]; [exact I|].
        destruct (migrate_loop_returns (Migrations Inactive m') m' w3) as (r & w4 & ->);
          [intros p; apply Migrations_In_key|exact I].
    + unfold getMigrationStatuses.
      match goal with |- context [status_loop drv order m ?w0] =>
        destruct (status_loop_spec drv order m w0)
          as (r & m' & w3 & rest3 & -> & _ & _ & _) end.
      destruct r as [e'|]; [exact I|].
      destruct (migrate_loop_returns (Migrations Inactive m') m' w3) as (r & w4 & ->);
        [intros p; apply Migrations_In_key|exact I].
Qed.

End MoreMigratorFacts.

(** ** [RollbackN], [Rollback] and [RollbackAll] *)

Lemma rollback_visit (migs : list N) i j p :
  migs !! i = Some p ->
  take (S j) (rev (take (S i) migs)) = p :: take j (rev (take i migs)).
Proof.
  intros H. rewrite (take_S_r migs i p H), rev_unit. reflexivity.
Qed.

Lemma rollback_order_all (migs : list N) :
  rollback_order (length migs) migs = rev migs.
Proof. unfold rollback_order. apply take_ge. rewrite length_rev. lia. Qed.

Lemma StronglySorted_rev_lt (l : list N) :
  StronglySorted N.lt l -> StronglySorted (fun a b => (b < a)%N) (rev l).
Proof.
  induction 1 as [|x l Hs IH Hall]; cbn [rev]; [constructor|].
  apply StronglySorted_app_2; [|exact IH|repeat constructor].
  intros a b Ha Hb. apply list_elem_of_In in Ha, Hb. destruct Hb as [<-|[]].
  rewrite List.Forall_forall in Hall. apply Hall. apply in_rev. exact Ha.
Qed.

Lemma rollback_order_descending n m :
  StronglySorted (fun a b => (b < a)%N) (rollback_order n (Migrations Active m)).
Proof.
  unfold rollback_order.
  pose proof (StronglySorted_rev_lt _ (Migrations_sorted Active m)) as H.
  rewrite <- (take_drop n (rev (Migrations Active m))) in H.
  exact (StronglySorted_app_1_l _ _ _ H).
Qed.

Lemma sorted_keep_NoDup (l : list N) k :
  StronglySorted N.lt l ->
  StronglySorted N.lt (take k l) /\ NoDup (take k l) /\
  forall p, In p (take k l) -> ~ In p (drop k l).
Proof.
  intros Hs. rewrite <- (take_drop k l) in Hs.
  split; [exact (StronglySorted_app_1_l _ _ _ Hs)|].
  assert (Hlt : forall a b, In a (take k l) -> In b (drop k l) -> (a < b)%N).
  { intros a b Ha Hb. eapply (StronglySorted_app_1_elem_of N.lt);
      [exact Hs|apply list_elem_of_In; exact Ha|apply list_elem_of_In; exact Hb]. }
  split.
  - apply StronglySorted_app_1_l in Hs. clear Hlt.
    induction Hs as [|x t Hs IH Hall]; [constructor|].
    apply NoDup_cons. split; [|exact IH].
    intros Hx. apply list_elem_of_In in Hx. rewrite List.Forall_forall in Hall.
    specialize (Hall x Hx). lia.
  - intros p Ha Hb. specialize (Hlt p p Ha Hb). lia.
Qed.

Section RollbackFacts.

Context {DB : Type}.
Variable drv : Driver DB.

Lemma store_keeps_keys p mig' m (q : N) mig :
  migrations m !! p = Some mig ->
  is_Some (migrations m !! q) -> is_Some (migrations (store p mig' m) !! q).
Proof.
  intros Hp Hq. cbn [store migrations]. destruct (decide (p = q)) as [E|Hne].
  - subst q. rewrite lookup_insert_eq. eauto.
  - rewrite lookup_insert_ne by exact Hne. exact Hq.
Qed.

(** The loop of [RollbackN] when its bound lies inside the list. *)
Lemma rollback_loop_within migs : forall k j m (w : World DB),
  (j <= k <= length migs)%nat ->
  (forall p, In p migs -> is_Some (migrations m !! p)) ->
  exists applied rest m2 w2,
    take j (rev (take k migs)) = applied ++ rest /\
    applies_all drv downMigration applied (m, w) (m2, w2) /\
    match rest with
    | [] => rollback_loop drv migs (Z.of_nat k - 1 - Z.of_nat j) k m w
            = Done (None, m2) w2
    | p :: _ =>
        exists e w3,
          apply_at drv p downMigration m2 w2 = Done (Some e, m2) w3 /\
          rollback_loop drv migs (Z.of_nat k - 1 - Z.of_nat j) k m w
          = Done (Some e, m2) w3
    end.
Proof.
  induction k as [|i IH]; intros j m w Hj Hkeys.
  - assert (j = 0)%nat as -> by lia. exists [], [], m, w.
    split; [reflexivity|]. split; [constructor|]. reflexivity.
  - destruct j as [|j].
    + exists [], [], m, w. split; [reflexivity|]. split; [constructor|].
      cbn [rollback_loop].
      destruct (Z.eqb_spec (Z.of_nat (S i) - 1) (Z.of_nat (S i) - 1 - Z.of_nat 0));
        [reflexivity|lia].
    + destruct (lookup_lt_is_Some_2 migs i) as [p Hp]; [lia|].
      rewrite (rollback_visit migs i j p Hp).
      assert (Hin : In p migs).
      { apply list_elem_of_In. eapply list_elem_of_lookup_2. exact Hp. }
      destruct (Hkeys p Hin) as [mig Hmig].
      assert (Hstep :
                 rollback_loop drv migs (Z.of_nat (S i) - 1 - Z.of_nat (S j)) (S i) m w
                 = match apply_at drv p downMigration m w with
                   | Done (Some err, m') w' => Done (Some err, m') w'
                   | Done (None, m') w' =>
                       rollback_loop drv migs (Z.of_nat i - 1 - Z.of_nat j) i m' w'
                   | Halted h w' => Halted h w'
                   end).
      { cbn [rollback_loop].
        destruct (Z.eqb_spec (Z.of_nat (S i) - 1) (Z.of_nat (S i) - 1 - Z.of_nat (S j)));
          [lia|].
        rewrite Hp. unfold bind.
        replace (Z.of_nat (S i) - 1 - Z.of_nat (S j)) with (Z.of_nat i - 1 - Z.of_nat j)
          by lia.
        destruct (apply_at drv p downMigration m w) as [[[e|] m'] w'|h w']; reflexivity. }
      rewrite Hstep. clear Hstep.
      destruct (apply_at_spec drv p downMigration m w mig Hmig)
        as (e & w' & rest & _ & [[Hne E]|[-> E]]).
      * destruct e as [err|]; [|congruence].
        exists [], (p :: take j (rev (take i migs))), m, w.
        split; [reflexivity|]. split; [constructor|].
        exists err, w'. rewrite E. split; reflexivity.
      * set (m1 := store p (set_Status (applied_status downMigration) mig) m) in *.
        destruct (IH j m1 w') as (applied & rest' & m2 & w2 & Hv & Hall & Hrest).
        { lia. }
        { intros q Hq. apply (store_keeps_keys p _ m q mig Hmig). exact (Hkeys q Hq). }
        exists (p :: applied), rest', m2, w2. rewrite Hv.
        split; [reflexivity|]. split; [econstructor; [exact E|exact Hall]|].
        rewrite E. exact Hrest.
Qed.

(** The loop when its bound is never met: below [-1] or above the start. *)
Lemma rollback_loop_never_meets migs lastMigration : forall k m (w : World DB),
  lastMigration < -1 \/ Z.of_nat k <= lastMigration ->
  (k <= length migs)%nat ->
  (forall p, In p migs -> is_Some (migrations m !! p)) ->
  match rollback_loop drv migs lastMigration k m w with
  | Done (None, _) _ => False
  | Done (Some _, _) _ => True
  | Halted h _ => h = IndexOutOfRange (-1) (length migs)
  end.
Proof.
  induction k as [|i IH]; intros m w Hlast Hk Hkeys; cbn [rollback_loop].
  - destruct (Z.eqb_spec (Z.of_nat 0 - 1) lastMigration); [lia|]. reflexivity.
  - destruct (Z.eqb_spec (Z.of_nat (S i) - 1) lastMigration); [lia|].
    destruct (lookup_lt_is_Some_2 migs i) as [p Hp]; [lia|]. rewrite Hp.
    assert (Hin : In p migs).
    { apply list_elem_of_In. eapply list_elem_of_lookup_2. exact Hp. }
    destruct (Hkeys p Hin) as [mig Hmig].
    unfold bind.
    destruct (apply_at_spec drv p downMigration m w mig Hmig)
      as (e & w' & rest & _ & [[Hne ->]|[-> ->]]); cbn [fst snd].
    + destruct e as [err|]; [exact I|congruence].
    + apply IH; [lia|lia|].
      intros q Hq. apply (store_keeps_keys p _ m q mig Hmig). exact (Hkeys q Hq).
Qed.

(** What a run of successful reversals leaves behind. *)
Lemma applies_all_down ps (m : Migrator) (w : World DB) m2 w2 :
  applies_all drv downMigration ps (m, w) (m2, w2) ->
  (forall p, In p ps -> status_at m2 p = Some Inactive) /\
  (forall p, ~ In p ps -> migrations m2 !! p = migrations m !! p).
Proof.
  intros H. destruct (applies_all_keeps drv _ _ _ _ _ _ H) as (Hout & Hin & _).
  split; [|exact Hout]. intros p Hp. apply status_at_spec. exact (Hin p Hp).
Qed.

(** The loop of [RollbackN] over the Active migrations of [m1] with a count
    inside that list. *)
Lemma rollback_count_spec (j : nat) m1 (w1 : World DB) :
  let active := Migrations Active m1 in
  (j <= length active)%nat ->
  exists reversed rest m2 w2,
    rollback_order j active = reversed ++ rest /\
    applies_all drv downMigration reversed (m1, w1) (m2, w2) /\
    (forall p, In p reversed -> status_at m2 p = Some Inactive) /\
    (forall p, ~ In p reversed -> migrations m2 !! p = migrations m1 !! p) /\
    match rest with
    | [] =>
        rollback_loop drv active (Z.of_nat (length active) - 1 - Z.of_nat j)
          (length active) m1 w1 = Done (None, m2) w2 /\
        Migrations Active m2 = take (length active - j) active
    | p :: _ =>
        exists e w3,
          apply_at drv p downMigration m2 w2 = Done (Some e, m2) w3 /\
          rollback_loop drv active (Z.of_nat (length active) - 1 - Z.of_nat j)
            (length active) m1 w1 = Done (Some e, m2) w3
    end.
Proof.
  intros active Hj.
  destruct (rollback_loop_within active (length active) j m1 w1)
    as (reversed & rest & m2 & w2 & Hv & Hall & Hrest).
  { lia. }
  { intros p. apply Migrations_In_key. }
  rewrite (take_ge active (length active)) in Hv by lia.
  fold (rollback_order j active) in Hv.
  destruct (applies_all_down _ _ _ _ _ Hall) as [Hin Hout].
  exists reversed, rest, m2, w2.
  split; [exact Hv|]. split; [exact Hall|]. split; [exact Hin|]. split; [exact Hout|].
  destruct rest as [|p rest]; [|exact Hrest].
  split; [exact Hrest|].
  (* the Active migrations left *)
  rewrite app_nil_r in Hv.
  set (keep := (length active - j)%nat).
  assert (Hrev : forall p, In p reversed <-> In p (drop keep active)).
  { intros p. rewrite <- Hv. unfold rollback_order, keep.
    rewrite firstn_rev, <- in_rev. reflexivity. }
  pose proof (sorted_keep_NoDup active keep (Migrations_sorted Active m1)) as (Hsk & Hnk & Hdis).
  apply (StronglySorted_unique_strong N.lt).
  - intros x y _ _ Hxy Hyx. exfalso. exact (N.lt_asymm _ _ Hxy Hyx).
  - apply Migrations_sorted.
  - exact Hsk.
  - apply NoDup_Permutation.
    + apply Migrations_NoDup.
    + exact Hnk.
    + intros p. rewrite !list_elem_of_In.
      rewrite (Migrations_In_status Active m2 p) by discriminate.
      rewrite <- status_at_spec. split.
      * intros Hp. assert (Hnr : ~ In p reversed).
        { intros Hr. rewrite (Hin p Hr) in Hp. discriminate. }
        assert (Ha : In p active).
        { apply (Migrations_In_status Active m1 p); [discriminate|].
          apply status_at_spec. unfold status_at in *. rewrite <- (Hout p Hnr). exact Hp. }
        rewrite <- (take_drop keep active) in Ha. apply in_app_or in Ha as [Ha|Ha];
          [exact Ha|]. exfalso. apply Hnr, Hrev. exact Ha.
      * intros Hp. assert (Hnr : ~ In p reversed).
        { intros Hr. apply Hrev in Hr. exact (Hdis p Hp Hr). }
        unfold status_at. rewrite (Hout p Hnr).
        assert (Ha : In p active).
        { rewrite <- (take_drop keep active). apply in_or_app. left. exact Hp. }
        apply (Migrations_In_status Active m1 p) in Ha; [|discriminate].
        apply status_at_spec in Ha. exact Ha.
Qed.

(** [RollbackN] once the statuses are synchronised: the early return, or the
    loop with the wrapped bound. *)
Lemma RollbackN_synced order n m (w : World DB) m1 w1 :
  getMigrationStatuses drv order m w = Done (None, m1) w1 ->
  RollbackN drv order n m w
  = match Migrations Active m1 with
    | [] => Done (None, m1) w1
    | _ :: _ =>
        rollback_loop drv (Migrations Active m1)
          (wrap_int (Z.of_nat (length (Migrations Active m1)) - 1 - n))
          (length (Migrations Active m1)) m1 w1
    end.
Proof.
  intros Hsync. unfold RollbackN, bind. rewrite Hsync. cbn [fst snd].
  destruct (Migrations Active m1); reflexivity.
Qed.

(** A synchronisation never shortens the list of Active migrations. *)
Lemma synced_active_grows m m1 :
  synced_from m m1 ->
  (length (Migrations Active m) <= length (Migrations Active m1))%nat.
Proof.
  intros (_ & _ & Hs). apply NoDup_incl_length.
  - apply NoDup_ListNoDup. apply Migrations_NoDup.
  - intros p Hp.
    apply (Migrations_In_status Active m p) in Hp; [|discriminate].
    apply (Migrations_In_status Active m1 p); [discriminate|].
    destruct Hp as (mig & Hmig & Hst).
    destruct (Hs p) as [E|(mig0 & H0 & H1)].
    + exists mig. rewrite E. split; [exact Hmig|exact Hst].
    + exists (set_Status Active mig0). split; [exact H1|reflexivity].
Qed.

(** X5: [RollbackN(n)] with [n] between 0 and the number of Active
    migrations (counted after the synchronisation) never panics.  It goes
    through the [n] Active migrations of highest id, highest first, applying
    each in the down direction, and stops at the first application that
    returns an error, which it returns.  The migrations reversed are
    Inactive in the Migrator afterwards, all others are untouched; when it
    returns nil the Active migrations left are the former ones without the
    last [n]. *)
Theorem RollbackN_within_active order n m (w : World DB) m1 w1 :
  getMigrationStatuses drv order m w = Done (None, m1) w1 ->
  Z.of_nat (length (Migrations Active m1)) < 2 ^ 63 ->
  0 <= n <= Z.of_nat (length (Migrations Active m1)) ->
  let active := Migrations Active m1 in
  let order_down := rollback_order (Z.to_nat n) active in
  StronglySorted (fun a b => (b < a)%N) order_down /\
  exists reversed rest m2 w2,
    order_down = reversed ++ rest /\
    applies_all drv downMigration reversed (m1, w1) (m2, w2) /\
    (forall p, In p reversed -> status_at m2 p = Some Inactive) /\
    (forall p, ~ In p reversed -> migrations m2 !! p = migrations m1 !! p) /\
    match rest with
    | [] =>
        RollbackN drv order n m w = Done (None, m2) w2 /\
        Migrations Active m2 = take (length active - Z.to_nat n) active
    | p :: _ =>
        exists e w3,
          apply_at drv p downMigration m2 w2 = Done (Some e, m2) w3 /\
          RollbackN drv order n m w = Done (Some e, m2) w3
    end.
Proof.
  intros Hsync Hlen Hn. cbv zeta. split; [apply rollback_order_descending|].
  rewrite (RollbackN_synced order n m w m1 w1 Hsync).
  destruct (rollback_count_spec (Z.to_nat n) m1 w1) as
    (reversed & rest & m2 & w2 & Hv & Hall & Hin & Hout & Hrest); [lia|].
  rewrite wrap_int_small by lia.
  replace (Z.of_nat (length (Migrations Active m1)) - 1 - Z.of_nat (Z.to_nat n))
    with (Z.of_nat (length (Migrations Active m1)) - 1 - n) in Hrest by lia.
  destruct (Migrations Active m1) as [|p0 tl] eqn:Eact.
  { (* nothing is Active: the early return *)
    unfold rollback_order in Hv. cbn [rev] in Hv. rewrite take_nil in Hv.
    destruct reversed; [|discriminate]. destruct rest; [|discriminate].
    inversion Hall; subst.
    exists [], [], m2, w2. unfold rollback_order. cbn [rev]. rewrite take_nil.
    split; [reflexivity|]. split; [constructor|].
    split; [intros p []|]. split; [reflexivity|].
    split; [reflexivity|]. rewrite take_nil. exact Eact. }
  exists reversed, rest, m2, w2.
  split; [exact Hv|]. split; [exact Hall|]. split; [exact Hin|]. split; [exact Hout|].
  exact Hrest.
Qed.

(** X6: [RollbackN] with a negative [n] never returns nil once some
    migration is Active: the bound [len(migrations) - 1 - n] is never met by
    the descending index, so every Active migration is applied in the down
    direction until one application returns an error, and if none does the
    loop reads [migrations[-1]] and the call panics. *)
Theorem RollbackN_negative_never_succeeds order n m (w : World DB) m1 w1 :
  getMigrationStatuses drv order m w = Done (None, m1) w1 ->
  Migrations Active m1 <> [] ->
  Z.of_nat (length (Migrations Active m1)) < 2 ^ 63 ->
  - 2 ^ 63 <= n < 0 ->
  match RollbackN drv order n m w with
  | Done (None, _) _ => False
  | Done (Some _, _) _ => True
  | Halted h _ => h = IndexOutOfRange (-1) (length (Migrations Active m1))
  end.
Proof.
  intros Hsync Hne Hlen Hn.
  rewrite (RollbackN_synced order n m w m1 w1 Hsync).
  destruct (Migrations Active m1) as [|p0 tl] eqn:Eact; [congruence|].
  rewrite <- Eact in *.
  apply rollback_loop_never_meets; [|lia|intros p; apply Migrations_In_key].
  set (len := Z.of_nat (length (Migrations Active m1))) in *.
  unfold wrap_int.
  destruct (Z_lt_ge_dec (len - 1 - n) (2 ^ 63)) as [Hs|Hb].
  - right. rewrite Z.mod_small by lia. lia.
  - left.
    replace (len - 1 - n + 2 ^ 63) with ((len - 1 - n - 2 ^ 63) + 1 * 2 ^ 64) by lia.
    rewrite Z.mod_add by lia. rewrite Z.mod_small by lia. lia.
Qed.

(** [Rollback] once the statuses are synchronised. *)
Lemma Rollback_synced order m (w : World DB) m1 w1 :
  getMigrationStatuses drv order m w = Done (None, m1) w1 ->
  Z.of_nat (length (Migrations Active m1)) < 2 ^ 63 ->
  Rollback drv order m w
  = match last (Migrations Active m1) with
    | None => Done (None, m1) w1
    | Some p => apply_at drv p downMigration m1 w1
    end.
Proof.
  intros Hsync Hlen. unfold Rollback.
  rewrite (RollbackN_synced order 1 m w m1 w1 Hsync).
  destruct (Migrations Active m1) as [|p0 tl] eqn:Eact; [reflexivity|].
  rewrite <- Eact in *.
  assert (Hl : (0 < length (Migrations Active m1))%nat) by (rewrite Eact; cbn; lia).
  rewrite wrap_int_small by lia.
  destruct (length (Migrations Active m1)) as [|i] eqn:El; [lia|].
  rewrite last_lookup, El. cbn [Nat.pred].
  destruct (lookup_lt_is_Some_2 (Migrations Active m1) i) as [p Hp]; [lia|].
  rewrite Hp. cbn [rollback_loop].
  destruct (Z.eqb_spec (Z.of_nat (S i) - 1) (Z.of_nat (S i) - 1 - 1)); [lia|].
  rewrite Hp. unfold bind.
  destruct (apply_at drv p downMigration m1 w1) as [[[e|] m'] w'|h w']; cbn [fst snd];
    try reflexivity.
  destruct i as [|i]; cbn [rollback_loop].
  - reflexivity.
  - destruct (Z.eqb_spec (Z.of_nat (S i) - 1) (Z.of_nat (S (S i)) - 1 - 1)); [|lia].
    reflexivity.
Qed.

(** X7: [Rollback] reverses exactly the Active migration of highest id:
    after the synchronisation it is one application of that migration in the
    down direction, whose result it returns; with no Active migration it
    returns nil and touches nothing.  It never panics. *)
Theorem Rollback_last_active order m (w : World DB) m1 w1 :
  getMigrationStatuses drv order m w = Done (None, m1) w1 ->
  Z.of_nat (length (Migrations Active m1)) < 2 ^ 63 ->
  Rollback drv order m w
  = match last (Migrations Active m1) with
    | None => Done (None, m1) w1
    | Some p => apply_at drv p downMigration m1 w1
    end /\
  exists r w', Rollback drv order m w = Done r w'.
Proof.
  intros Hsync Hlen. rewrite (Rollback_synced order m w m1 w1 Hsync Hlen).
  split; [reflexivity|].
  destruct (last (Migrations Active m1)) as [p|] eqn:El; [|eauto].
  assert (Hin : In p (Migrations Active m1)).
  { apply list_elem_of_In. rewrite last_lookup in El.
    eapply list_elem_of_lookup_2. exact El. }
  destruct (Migrations_In_key Active m1 p Hin) as [mig Hmig].
  destruct (apply_at_spec drv p downMigration m1 w1 mig Hmig)
    as (e & w' & rest & _ & [[_ ->]|[_ ->]]); eauto.
Qed.

(** X8: [RollbackAll] counts the Active migrations before the statuses are
    synchronised.  The count is never above the number of Active migrations
    after the synchronisation, so the call never panics, and it reverses that
    many migrations of highest id, highest first; the Active migrations of
    lower id that the Migrator did not know of stay applied.  A Migrator
    that knows of no Active migration reverses nothing. *)
Theorem RollbackAll_counts_before_sync order m (w : World DB) m1 w1 :
  getMigrationStatuses drv order m w = Done (None, m1) w1 ->
  Z.of_nat (length (Migrations Active m1)) < 2 ^ 63 ->
  let known := length (Migrations Active m) in
  let active := Migrations Active m1 in
  (known <= length active)%nat /\
  (known = 0%nat -> RollbackAll drv order m w = Done (None, m1) w1) /\
  exists reversed rest m2 w2,
    rollback_order known active = reversed ++ rest /\
    applies_all drv downMigration reversed (m1, w1) (m2, w2) /\
    match rest with
    | [] =>
        RollbackAll drv order m w = Done (None, m2) w2 /\
        Migrations Active m2 = take (length active - known) active
    | p :: _ =>
        exists e w3,
          apply_at drv p downMigration m2 w2 = Done (Some e, m2) w3 /\
          RollbackAll drv order m w = Done (Some e, m2) w3
    end.
Proof.
  intros Hsync Hlen. cbv zeta.
  assert (Hgrow : (length (Migrations Active m) <= length (Migrations Active m1))%nat).
  { apply synced_active_grows.
    destruct (status_loop_spec drv order m w) as (r & m' & w' & rest & E & _ & _ & Hs).
    unfold getMigrationStatuses in Hsync. rewrite Hsync in E.
    injection E as <- <- <-. exact Hs. }
  split; [exact Hgrow|].
  unfold RollbackAll.
  rewrite (RollbackN_synced order _ m w m1 w1 Hsync).
  destruct (rollback_count_spec (length (Migrations Active m)) m1 w1) as
    (reversed & rest & m2 & w2 & Hv & Hall & Hin & Hout & Hrest); [lia|].
  rewrite wrap_int_small by lia.
  destruct (Migrations Active m1) as [|p0 tl] eqn:Eact.
  { split; [reflexivity|].
    unfold rollback_order in Hv. cbn [rev] in Hv. rewrite take_nil in Hv.
    destruct reversed; [|discriminate]. destruct rest; [|discriminate].
    inversion Hall; subst.
    exists [], [], m2, w2. unfold rollback_order. cbn [rev]. rewrite take_nil.
    split; [reflexivity|]. split; [constructor|].
    split; [reflexivity|]. rewrite take_nil. exact Eact. }
  rewrite <- Eact in *. split.
  - intros H0. rewrite H0 in *. unfold rollback_order in Hv. rewrite take_0 in Hv.
    destruct reversed; [|discriminate]. destruct rest; [|discriminate].
    inversion Hall; subst. destruct Hrest as [Hrest _]. exact Hrest.
  - exists reversed, rest, m2, w2.
    split; [exact Hv|]. split; [exact Hall|]. exact Hrest.
Qed.

End RollbackFacts.

(** The rollbacks run on the reference database. *)

Lemma RollbackN_within_active_witness :
  StronglySorted (fun a b => (b < a)%N)
    (rollback_order (Z.to_nat 1) (Migrations Active (fst synced_example))) /\
  exists reversed rest m2 w2,
    rollback_order (Z.to_nat 1) (Migrations Active (fst synced_example))
    = reversed ++ rest /\
    applies_all (memDriver Postgres) downMigration reversed
      (fst synced_example, snd synced_example) (m2, w2) /\
    (forall p, In p reversed -> status_at m2 p = Some Inactive) /\
    (forall p, ~ In p reversed ->
       migrations m2 !! p = migrations (fst synced_example) !! p) /\
    match rest with
    | [] =>
        RollbackN (memDriver Postgres) [1%N; 2%N] 1
          (fst migrated_example) (snd migrated_example)
        = Done (None, m2) w2 /\
        Migrations Active m2
        = take (length (Migrations Active (fst synced_example)) - Z.to_nat 1)
               (Migrations Active (fst synced_example))
    | p :: _ =>
        exists e w3,
          apply_at (memDriver Postgres) p downMigration m2 w2 = Done (Some e, m2) w3 /\
          RollbackN (memDriver Postgres) [1%N; 2%N] 1
            (fst migrated_example) (snd migrated_example)
          = Done (Some e, m2) w3
    end.
Proof.
  refine (RollbackN_within_active (memDriver Postgres) [1%N; 2%N] 1
            (fst migrated_example) (snd migrated_example)
            (fst synced_example) (snd synced_example) _ _ _).
  - vm_compute. reflexivity.
  - vm_compute. reflexivity.
  - vm_compute. split; discriminate.
Defined.

Lemma RollbackN_negative_witness :
  match RollbackN (memDriver Postgres) [1%N; 2%N] (-1)
                  (fst migrated_example) (snd migrated_example) with
  | Done (None, _) _ => False
  | Done (Some _, _) _ => True
  | Halted h _ => h = IndexOutOfRange (-1) (length (Migrations Active (fst synced_example)))
  end.
Proof.
  refine (RollbackN_negative_never_succeeds (memDriver Postgres) [1%N; 2%N] (-1)
            (fst migrated_example) (snd migrated_example)
            (fst synced_example) (snd synced_example) _ _ _ _).
  - vm_compute. reflexivity.
  - vm_compute. discriminate.
  - vm_compute. reflexivity.
  - vm_compute. split; [discriminate|reflexivity].
Defined.

Lemma Rollback_last_active_witness :
  Rollback (memDriver Postgres) [1%N; 2%N] (fst migrated_example) (snd migrated_example)
  = match last (Migrations Active (fst synced_example)) with
    | None => Done (None, fst synced_example) (snd synced_example)
    | Some p => apply_at (memDriver Postgres) p downMigration
                         (fst synced_example) (snd synced_example)
    end /\
  exists r w',
    Rollback (memDriver Postgres) [1%N; 2%N] (fst migrated_example) (snd migrated_example)
    = Done r w'.
Proof.
  refine (Rollback_last_active (memDriver Postgres) [1%N; 2%N]
            (fst migrated_example) (snd migrated_example)
            (fst synced_example) (snd synced_example) _ _).
  - vm_compute. reflexivity.
  - vm_compute. reflexivity.
Defined.

Lemma RollbackAll_counts_before_sync_witness :
  (length (Migrations Active example_migrator)
   <= length (Migrations Active (fst fresh_synced_example)))%nat /\
  (length (Migrations Active example_migrator) = 0%nat ->
   RollbackAll (memDriver Postgres) [1%N; 2%N] example_migrator (snd migrated_example)
   = Done (None, fst fresh_synced_example) (snd fresh_synced_example)) /\
  exists reversed rest m2 w2,
    rollback_order (length (Migrations Active example_migrator))
      (Migrations Active (fst fresh_synced_example)) = reversed ++ rest /\
    applies_all (memDriver Postgres) downMigration reversed
      (fst fresh_synced_example, snd fresh_synced_example) (m2, w2) /\
    match rest with
    | [] =>
        RollbackAll (memDriver Postgres) [1%N; 2%N] example_migrator
          (snd migrated_example) = Done (None, m2) w2 /\
        Migrations Active m2
        = take (length (Migrations Active (fst fresh_synced_example))
                - length (Migrations Active example_migrator))
               (Migrations Active (fst fresh_synced_example))
    | p :: _ =>
        exists e w3,
          apply_at (memDriver Postgres) p downMigration m2 w2 = Done (Some e, m2) w3 /\
          RollbackAll (memDriver Postgres) [1%N; 2%N] example_migrator
            (snd migrated_example) = Done (Some e, m2) w3
    end.
Proof.
  refine (RollbackAll_counts_before_sync (memDriver Postgres) [1%N; 2%N]
            example_migrator (snd migrated_example)
            (fst fresh_synced_example) (snd fresh_synced_example) _ _).
  - vm_compute. reflexivity.
  - vm_compute. reflexivity.
Defined.

(** A Migrator built anew over a migrated database: both migrations are
    found Active by the synchronisation, and [RollbackAll] leaves both
    applied. *)
Lemma RollbackAll_fresh_migrator_example :
  Migrations Active example_migrator = [] /\
  match RollbackAll (memDriver Postgres) [1%N; 2%N] example_migrator
                    (snd migrated_example) with
  | Done (None, m) w =>
      Migrations Active m = [1%N; 2%N] /\ mem_rows (db w) = [2%N; 1%N]
  | _ => False
  end.
Proof. vm_compute. split; [reflexivity|split; reflexivity]. Qed.

(** ** The statements of one application *)

Lemma tx_statements_app tr1 tr2 :
  tx_statements (tr1 ++ tr2) = tx_statements tr1 ++ tx_statements tr2.
Proof.
  unfold tx_statements. induction tr1 as [|e tr1 IH]; [reflexivity|].
  cbn [app omap list_omap]. fold (@omap list _ Event). destruct e; cbn; rewrite ?IH; reflexivity.
Qed.

Lemma tx_statements_cons e tr :
  tx_statements (e :: tr)
  = match e with TxExec query args _ => [(query, args)] | _ => [] end
    ++ tx_statements tr.
Proof. destruct e; reflexivity. Qed.

Ltac statements :=
  repeat (rewrite tx_statements_app || rewrite tx_statements_cons);
  cbn beta iota delta [app].

Lemma tx_statements_logs logs : db_events logs = [] -> tx_statements logs = [].
Proof.
  unfold db_events, tx_statements. induction logs as [|e logs IH]; [reflexivity|].
  destruct e; cbn; try discriminate. exact IH.
Qed.

Lemma commit_logs logs : db_events logs = [] -> ~ commit_attempted logs.
Proof.
  intros H (err & Hin).
  assert (Hf : In (TxCommit err) (db_events logs)).
  { apply List.filter_In. split; [exact Hin|reflexivity]. }
  rewrite H in Hf. destruct Hf.
Qed.

Lemma commit_attempted_app tr1 tr2 :
  commit_attempted (tr1 ++ tr2) <-> commit_attempted tr1 \/ commit_attempted tr2.
Proof.
  unfold commit_attempted. split.
  - intros (err & H). apply in_app_or in H as [H|H]; eauto.
  - intros [(err & H)|(err & H)]; exists err; apply in_or_app; auto.
Qed.

Section StatementsOfAnApplication.

Context {DB : Type}.
Variable drv : Driver DB.

(** The loop over the commands sends them in order, each without arguments,
    up to the first that fails, and never commits. *)
Lemma exec_commands_statements commands : forall w : World DB,
  exists r w' rest,
    exec_commands drv commands w = Done r w' /\
    trace w' = trace w ++ rest /\
    ~ commit_attempted rest /\
    tx_statements rest `prefix_of` map (fun cmd => (cmd, [])) commands /\
    (r = None -> tx_statements rest = map (fun cmd => (cmd, [])) commands).
Proof.
  induction commands as [|cmd rest IH]; intros w.
  - exists None, w, []. rewrite app_nil_r. split; [reflexivity|].
    split; [reflexivity|]. split; [intros (err & [])|]. split; reflexivity.
  - cbn [exec_commands]. run.
    destruct (drvTxExec drv cmd [] (db w)) as [d [err|[[n|err]|]]] eqn:E;
      cbn [db trace fst snd].
    1,3: match goal with |- context [rollback_and_return drv ?err ?w0] =>
           destruct (rollback_and_return_spec drv err w0) as (logs & -> & Hl) end;
         cbn [db trace]; eexists _, _, _; (split; [reflexivity|]);
         (split; [cbn [trace]; rewrite <- !app_assoc; reflexivity|]);
         cbn [app]; split;
         [intros (e0 & [H|H]); [discriminate|];
          repeat (destruct H as [H|H]; [discriminate|]);
          exact (commit_logs logs Hl (ex_intro _ e0 H))
         |split; [|discriminate]];
         cbn [map]; unfold tx_statements; cbn [omap list_omap];
         fold (@omap list _ Event); fold (tx_statements logs);
         rewrite (tx_statements_logs logs Hl);
         apply prefix_cons, prefix_nil.
    all: match goal with |- context [exec_commands drv _ ?w0] =>
           destruct (IH w0) as (r & w' & tl & -> & Ht & Hnc & Hp & Hr) end;
         exists r, w'; eexists; (split; [reflexivity|]);
         (split; [rewrite Ht; cbn [trace]; rewrite <- !app_assoc; reflexivity|]);
         cbn [app]; split;
         [intros (e0 & [H|H]); [discriminate|];
          repeat (destruct H as [H|H]; [discriminate|]);
          exact (Hnc (ex_intro _ e0 H))
         |];
         cbn [map]; unfold tx_statements; cbn [omap list_omap];
         fold (@omap list _ Event); fold (tx_statements tl);
         (split; [apply prefix_cons; exact Hp|intros Hn; rewrite (Hr Hn); reflexivity]).
Qed.

(** X9: the statements [ApplyMigration] sends inside its transaction are, in
    this order, the commands the adapter cuts the selected script into, each
    without arguments, and then the bookkeeping statement (the insertion for
    [up], the deletion otherwise) with the id of the migration: what was sent
    is always a prefix of that list, a commit is attempted only after the
    whole list was sent, and a nil return means the whole list was sent and
    committed.  Without a script for the direction no statement is sent. *)
Theorem ApplyMigration_statements m migration mType (w : World DB) :
  exists e migration' w' rest,
    ApplyMigration drv m migration mType w = Done (e, migration') w' /\
    trace w' = trace w ++ rest /\
    match select_script migration mType with
    | None => tx_statements rest = [] /\ ~ commit_attempted rest
    | Some sql =>
        let script := transaction_script (dbAdapter m) mType migration sql in
        tx_statements rest `prefix_of` script /\
        (commit_attempted rest -> tx_statements rest = script) /\
        (e = None -> tx_statements rest = script /\ commit_attempted rest)
    end.
Proof.
  unfold ApplyMigration.
  destruct (select_script migration mType) as [sql|].
  2:{ run. eexists _, _, _, [_]. split; [reflexivity|]. split; [reflexivity|].
      split; [reflexivity|]. intros (err & [H|[]]). discriminate. }
  cbv zeta. run.
  destruct (drvBegin drv (db w)) as [d [err|]]; cbn [db trace fst snd].
  { eexists _, _, _, [_; _; _]. split; [reflexivity|].
    split; [rewrite <- !app_assoc; reflexivity|].
    split; [apply prefix_nil|].
    split; [intros (e0 & H); repeat (destruct H as [H|H]; [discriminate|]); destruct H|].
    discriminate. }
  set (w1 := {| db := d; trace := _ |}).
  destruct (exec_commands_statements (GetMigrationCommands (dbAdapter m) sql) w1)
    as (r & w2 & body & -> & Ht & Hnc & Hp & Hr).
  destruct r as [e|].
  { (* a command failed *)
    exists (Some e), migration, w2. eexists (_ :: _ :: body).
    split; [reflexivity|].
    split; [rewrite Ht; unfold w1; cbn [trace]; rewrite <- !app_assoc; reflexivity|].
    statements. unfold transaction_script.
    split; [apply prefix_app_r; exact Hp|].
    split; [|discriminate].
    intros (e0 & H). repeat (destruct H as [H|H]; [discriminate|]).
    exfalso. exact (Hnc (ex_intro _ e0 H)). }
  (* all commands went through: the bookkeeping statement *)
  specialize (Hr eq_refl).
  assert (Hbk : bookkeeping (dbAdapter m) mType migration
                = (if String.eqb mType upMigration
                   then MigrationLogInsertSql (dbAdapter m)
                   else MigrationLogDeleteSql (dbAdapter m), [VUint64 (ID migration)]))
    by reflexivity.
  unfold transaction_script. rewrite Hbk. clear Hbk.
  set (logSql := if String.eqb mType upMigration
                 then MigrationLogInsertSql (dbAdapter m)
                 else MigrationLogDeleteSql (dbAdapter m)).
  assert (Hsql : logSql = if String.eqb mType upMigration
                          then MigrationLogInsertSql (dbAdapter m)
                          else MigrationLogDeleteSql (dbAdapter m)) by reflexivity.
  clearbody logSql.
  destruct (String.eqb mType upMigration); rewrite <- Hsql; clear Hsql.
  all: destruct (drvTxExec drv logSql [VUint64 (ID migration)] (db w2)) as [d3 [err|res]];
    cbn [db trace fst snd].
  1,3: match goal with |- context [rollback_and_return drv ?err ?w0] =>
      destruct (rollback_and_return_spec drv err w0) as (logs & -> & Hl) end.
  1,2: cbn [db trace fst snd];
      eexists _, _, _, (_ :: _ :: body ++ _ :: _ :: _ :: logs); (split; [reflexivity|]);
      (split; [cbn [trace]; rewrite Ht; unfold w1; cbn [trace];
               rewrite <- !app_assoc; reflexivity|]);
      statements; rewrite (tx_statements_logs logs Hl), Hr;
      (split; [reflexivity|]); (split; [reflexivity|discriminate]).
  (* commit *)
  all: destruct (drvTxCommit drv d3) as [d4 [err|]]; cbn [db trace fst snd].
  all: eexists _, _, _, (_ :: _ :: body ++ _); (split; [reflexivity|]);
    (split; [cbn [trace]; rewrite Ht; unfold w1; cbn [trace];
             rewrite <- !app_assoc; reflexivity|]);
    statements; rewrite Hr;
    (split; [reflexivity|]); (split; [reflexivity|]);
    intros He; try discriminate He; (split; [reflexivity|]);
    exists None; right; right; apply in_or_app; right; right; left; reflexivity.
Qed.

End StatementsOfAnApplication.

(** ** The loader and the constructors that call it *)

Lemma range_map_In order (g : gmap N Migration) p mig :
  In (p, mig) (range_map order g) <-> In p order /\ g !! p = Some mig.
Proof.
  unfold range_map. rewrite <- !list_elem_of_In, list_elem_of_omap. split.
  - intros (q & Hq & E). destruct (g !! q) as [mig'|] eqn:Eg; [|discriminate].
    injection E as <- <-. split; [exact Hq|exact Eg].
  - intros [Hp E]. exists p. split; [exact Hp|].
    rewrite E. reflexivity.
Qed.

Lemma range_map_ids order (g : gmap N Migration) :
  loaded_ok g -> NoDup order -> NoDup (map ID (map snd (range_map order g))).
Proof.
  intros Hok. induction 1 as [|p order Hp Hnd IH]; [constructor|].
  unfold range_map. cbn [omap list_omap]. fold (@omap list _ N).
  fold (range_map order g).
  destruct (g !! p) as [mig|] eqn:E; cbn [fmap option_fmap option_map]; [|exact IH].
  cbn [map snd]. apply NoDup_cons. split; [|exact IH].
  intros Hin. apply Hp. apply list_elem_of_In in Hin. apply list_elem_of_In.
  apply in_map_iff in Hin as (mig' & Eid & Hin).
  apply in_map_iff in Hin as ([q mig''] & Es & Hin). cbn [snd] in Es. subst mig''.
  apply range_map_In in Hin as [Hq Eq].
  destruct (Hok q mig' Eq) as [Hid _]. destruct (Hok p mig E) as [Hid' _]. congruence.
Qed.

Lemma with_id_In ms mig :
  NoDup (map ID ms) -> In mig ms -> with_id (ID mig) ms = Some mig.
Proof.
  unfold with_id. induction ms as [|m ms IH]; intros Hnd Hin; [destruct Hin|].
  cbn [map] in Hnd. apply NoDup_cons in Hnd as [Hm Hnd]. cbn [List.find].
  destruct Hin as [->|Hin].
  - rewrite N.eqb_refl. reflexivity.
  - destruct (N.eqb_spec (ID m) (ID mig)) as [E|_]; [|exact (IH Hnd Hin)].
    exfalso. apply Hm. rewrite E. apply list_elem_of_In, in_map. exact Hin.
Qed.

Lemma with_id_Some id ms mig : with_id id ms = Some mig -> In mig ms /\ ID mig = id.
Proof.
  unfold with_id. intros H. apply List.find_some in H as [Hin E].
  split; [exact Hin|]. apply N.eqb_eq. exact E.
Qed.

Lemma set_Status_same mig : Status mig = Inactive -> set_Status Inactive mig = mig.
Proof. destruct mig. cbn. intros ->. reflexivity. Qed.

Section LoaderAndConstructors.

Context {DB : Type}.
Variable parseMigrationPath : string -> option (N * migrationType * string).
Variable fs : FileSystem.

Lemma load_matches_loaded_ok matches : forall g (w : World DB) g' w',
  loaded_ok g ->
  load_matches parseMigrationPath fs matches g w = Done (inr g') w' ->
  loaded_ok g'.
Proof.
  induction matches as [|f matches IH]; intros g w g' w' Hok; cbn [load_matches].
  - intros [= <- _]. exact Hok.
  - destruct (parseMigrationPath f) as [[[num mType] name]|]; run; [|apply IH; exact Hok].
    destruct (ReadFile fs f) as [sql|e]; run; [|discriminate].
    destruct (g !! num) as [old|] eqn:E; apply IH; intros p mig Hp;
      apply lookup_insert_Some in Hp as [[<- <-]|[_ Hp]]; try exact (Hok p mig Hp).
    + destruct (Hok num old E) as [Hid Hst].
      destruct (String.eqb mType upMigration); cbn; split; assumption.
    + destruct (String.eqb mType upMigration); cbn; split; reflexivity.
Qed.

Lemma validate_all_None ms : forall (w w' : World DB),
  validate_all ms w = Done None w' ->
  Forall (fun pm => Validate (snd pm) = None) ms.
Proof.
  induction ms as [|[p mig] ms IH]; intros w w'; cbn [validate_all]; [constructor|].
  destruct (Validate mig) eqn:E; run; [discriminate|].
  intros H. constructor; [exact E|exact (IH _ _ H)].
Qed.

(** A successful load: the list returned is the second range over a map in
    which every migration is under its id, Inactive, and valid where the
    first range went. *)
Lemma MigrationsFromPath_loaded order1 order2 path (w : World DB) loaded w' :
  MigrationsFromPath parseMigrationPath fs order1 order2 path w = Done (inr loaded) w' ->
  exists g,
    loaded_ok g /\
    Forall (fun pm => Validate (snd pm) = None) (range_map order1 g) /\
    loaded = map snd (range_map order2 g).
Proof.
  unfold MigrationsFromPath. unfold bind at 1.
  destruct path as [|c rest]; [discriminate|].
  rewrite normalize_path_nonempty. run.
  destruct (Glob fs _) as [matches|e]; [|discriminate].
  match goal with |- context [load_matches _ _ matches ∅ ?w0] =>
    destruct (load_matches parseMigrationPath fs matches ∅ w0) as [[err|g] w1|h w1] eqn:El
  end; try discriminate.
  apply load_matches_loaded_ok in El; [|intros p mig Hp; rewrite lookup_empty in Hp; discriminate].
  destruct (validate_all (range_map order1 g) w1) as [[e|] w2|h w2] eqn:Ev;
    try discriminate.
  apply validate_all_None in Ev.
  intros [= <- _]. exists g. split; [exact El|]. split; [exact Ev|reflexivity].
Qed.

(** X10: the checks of the constructor never reject what the loader
    returns.  Whenever [MigrationsFromPath] succeeds (the two ranges over
    its map each going through ids without repetition, the second within
    the first), [NewMigratorWithLogger] succeeds too: the Migrator carries
    the adapter and the logger given and holds exactly the loaded
    migrations, each under its id and unchanged.  Its errors and its panic
    are those of the loader. *)
Theorem NewMigratorWithLogger_accepts_loaded order1 order2 adapter path lg (w : World DB) :
  NoDup order2 -> incl order2 order1 ->
  match MigrationsFromPath parseMigrationPath fs order1 order2 path w with
  | Done (inr loaded) w' =>
      exists m,
        NewMigratorWithLogger parseMigrationPath fs order1 order2 adapter path lg w
        = Done (inr m) w' /\
        dbAdapter m = adapter /\ logger m = lg /\
        forall id mig, migrations m !! id = Some mig <-> In mig loaded /\ ID mig = id
  | Done (inl err) w' =>
      NewMigratorWithLogger parseMigrationPath fs order1 order2 adapter path lg w
      = Done (inl err) w'
  | Halted h w' =>
      NewMigratorWithLogger parseMigrationPath fs order1 order2 adapter path lg w
      = Halted h w'
  end.
Proof.
  intros Hnd Hincl. unfold NewMigratorWithLogger, bind.
  destruct (MigrationsFromPath parseMigrationPath fs order1 order2 path w)
    as [[err|loaded] w'|h w'] eqn:E; [reflexivity| |reflexivity].
  destruct (MigrationsFromPath_loaded _ _ _ _ _ _ E) as (g & Hok & Hval & ->).
  set (loaded := map snd (range_map order2 g)).
  assert (Hids : NoDup (map ID loaded)) by (apply range_map_ids; assumption).
  assert (Hin : forall mig, In mig loaded -> exists p, In p order2 /\ g !! p = Some mig).
  { intros mig Hmig. apply in_map_iff in Hmig as ([p mig'] & Es & Hmig).
    cbn [snd] in Es. subst mig'. apply range_map_In in Hmig. eauto. }
  assert (Hwf : Forall well_formed loaded).
  { apply List.Forall_forall. intros mig Hmig. destruct (Hin mig Hmig) as (p & Hp & Eg).
    apply Validate_well_formed. rewrite List.Forall_forall in Hval.
    apply (Hval (p, mig)). apply range_map_In. split; [apply Hincl; exact Hp|exact Eg]. }
  unfold NewMigratorWithMigrations.
  pose proof (add_migrations_spec loaded ∅) as H.
  destruct (add_migrations loaded ∅) as [err|migs].
  { destruct H as [Hdup _]. destruct (Hdup Hwf) as [_ Hno]. exfalso. apply Hno.
    split; [exact Hids|]. intros mig _. apply lookup_empty. }
  destruct H as (_ & _ & _ & Hget). unfold ret.
  eexists. split; [reflexivity|]. cbn [dbAdapter logger migrations].
  split; [reflexivity|]. split; [reflexivity|].
  intros id mig. rewrite Hget. split.
  - destruct (with_id id loaded) as [mig0|] eqn:Ew;
      [|rewrite lookup_empty; discriminate].
    intros [= <-]. apply with_id_Some in Ew as [Hmig Hid].
    destruct (Hin mig0 Hmig) as (p & _ & Eg). destruct (Hok p mig0 Eg) as [_ Hst].
    rewrite (set_Status_same mig0 Hst). split; [exact Hmig|exact Hid].
  - intros [Hmig <-]. rewrite (with_id_In loaded mig Hids Hmig).
    destruct (Hin mig Hmig) as (p & _ & Eg). destruct (Hok p mig Eg) as [_ Hst].
    rewrite (set_Status_same mig Hst). reflexivity.
Qed.

(** ** Files the loader passes over, files it cannot read *)

Lemma load_matches_filter matches : forall g (w1 w2 : World DB),
  returned (load_matches parseMigrationPath fs
              (List.filter (parses parseMigrationPath) matches) g w1)
  = returned (load_matches parseMigrationPath fs matches g w2).
Proof.
  induction matches as [|f matches IH]; intros g w1 w2; [reflexivity|].
  cbn [List.filter]. unfold parses at 1.
  destruct (parseMigrationPath f) as [[[num mType] name]|] eqn:E.
  - cbn [load_matches]. rewrite E. run.
    destruct (ReadFile fs f) as [sql|e]; run; [|reflexivity].
    destruct (g !! num); apply IH.
  - cbn [load_matches]. rewrite E. run. apply IH.
Qed.

Lemma validate_all_returned ms : forall (w1 w2 : World DB),
  returned (validate_all ms w1) = returned (validate_all ms w2).
Proof.
  induction ms as [|[p mig] ms IH]; intros w1 w2; cbn [validate_all]; [reflexivity|].
  destruct (Validate mig); run; [reflexivity|apply IH].
Qed.

(** X11: the files whose names [parseMigrationPath] does not accept play no
    part in the result of the loader: it returns (or panics) as it does on
    the same directory listing without them. *)
Theorem MigrationsFromPath_ignores_unparseable order1 order2 path (w : World DB) :
  returned (MigrationsFromPath parseMigrationPath fs order1 order2 path w)
  = returned (MigrationsFromPath parseMigrationPath
                (parseable_only parseMigrationPath fs) order1 order2 path w).
Proof.
  unfold MigrationsFromPath, bind.
  destruct path as [|c rest]; [reflexivity|].
  rewrite !normalize_path_nonempty. run. cbn [Glob parseable_only].
  destruct (Glob fs _) as [matches|e]; [|reflexivity].
  match goal with
  | |- context [load_matches _ _ matches ∅ ?wa] =>
      match goal with
      | |- context [load_matches _ ?fs' (List.filter ?f matches) ∅ ?wb] =>
          pose proof (load_matches_filter matches ∅ wb wa) as H;
          change (load_matches parseMigrationPath fs' (List.filter f matches) ∅ wb)
            with (load_matches parseMigrationPath fs (List.filter f matches) ∅ wb);
          destruct (load_matches parseMigrationPath fs (List.filter f matches) ∅ wb)
            as [[e1|g1] w1|h1 w1];
          destruct (load_matches parseMigrationPath fs matches ∅ wa)
            as [[e2|g2] w2|h2 w2]
      end
  end; cbn [returned] in H; try discriminate H; try reflexivity.
  - injection H as <-. reflexivity.
  - injection H as <-.
    pose proof (validate_all_returned (range_map order1 g1) w1 w2) as Hv.
    destruct (validate_all (range_map order1 g1) w1) as [[e1|] w1'|h1 w1'];
      destruct (validate_all (range_map order1 g1) w2) as [[e2|] w2'|h2 w2'];
      cbn [returned] in Hv; try discriminate Hv; try reflexivity.
    injection Hv as <-. reflexivity.
Qed.

(** X12: a migration file that cannot be read ends the load: when the files
    listed before it are passed over or readable, the loader returns the
    error of the read, and nothing of the files read before or listed
    after. *)
Theorem MigrationsFromPath_read_error order1 order2 path (w : World DB)
    before file after e :
  path <> EmptyString ->
  Glob fs (with_slash path +:+ "*") = FsOk (before ++ file :: after) ->
  Forall (fun f => parseMigrationPath f = None \/ exists sql, ReadFile fs f = FsOk sql)
         before ->
  parseMigrationPath file <> None ->
  ReadFile fs file = FsErr e ->
  returned (MigrationsFromPath parseMigrationPath fs order1 order2 path w)
  = Some (inl (External e)).
Proof.
  intros Hpath Hglob Hbefore Hparse Hread.
  destruct path as [|c rest]; [congruence|].
  unfold MigrationsFromPath. unfold bind at 1. rewrite normalize_path_nonempty.
  run. rewrite Hglob. clear Hglob.
  match goal with |- context [load_matches _ _ _ ∅ ?w0] => generalize w0 end.
  generalize (∅ : gmap N Migration).
  induction Hbefore as [|f before Hf _ IH]; intros g w0; cbn [app load_matches].
  - destruct (parseMigrationPath file) as [[[num mType] name]|]; [|congruence].
    run. rewrite Hread. reflexivity.
  - destruct Hf as [Hf|[sql Hf]].
    + rewrite Hf. run. apply IH.
    + destruct (parseMigrationPath f) as [[[num mType] name]|]; run; [|apply IH].
      rewrite Hf. destruct (g !! num); apply IH.
Qed.

End LoaderAndConstructors.

(** The loader and the constructor run on directories given by their
    listing. *)

Lemma NewMigratorWithLogger_accepts_loaded_witness :
  match MigrationsFromPath parseMigrationPath_spec
          (dir_fs "migs" [("5_foo_up.sql", "CREATE TABLE foo()");
                          ("6_bar_down.sql", "DROP TABLE bar")])
          [5%N; 6%N] [6%N; 5%N] "migs" fresh_world with
  | Done (inr loaded) w' =>
      exists m,
        NewMigratorWithLogger parseMigrationPath_spec
          (dir_fs "migs" [("5_foo_up.sql", "CREATE TABLE foo()");
                          ("6_bar_down.sql", "DROP TABLE bar")])
          [5%N; 6%N] [6%N; 5%N] Postgres "migs" {| Fatalf_exits := false |} fresh_world
        = Done (inr m) w' /\
        dbAdapter m = Postgres /\ logger m = {| Fatalf_exits := false |} /\
        forall id mig, migrations m !! id = Some mig <-> In mig loaded /\ ID mig = id
  | Done (inl err) w' =>
      NewMigratorWithLogger parseMigrationPath_spec
        (dir_fs "migs" [("5_foo_up.sql", "CREATE TABLE foo()");
                        ("6_bar_down.sql", "DROP TABLE bar")])
        [5%N; 6%N] [6%N; 5%N] Postgres "migs" {| Fatalf_exits := false |} fresh_world
      = Done (inl err) w'
  | Halted h w' =>
      NewMigratorWithLogger parseMigrationPath_spec
        (dir_fs "migs" [("5_foo_up.sql", "CREATE TABLE foo()");
                        ("6_bar_down.sql", "DROP TABLE bar")])
        [5%N; 6%N] [6%N; 5%N] Postgres "migs" {| Fatalf_exits := false |} fresh_world
      = Halted h w'
  end.
Proof.
  refine (NewMigratorWithLogger_accepts_loaded parseMigrationPath_spec
            (dir_fs "migs" [("5_foo_up.sql", "CREATE TABLE foo()");
                            ("6_bar_down.sql", "DROP TABLE bar")])
            [5%N; 6%N] [6%N; 5%N] Postgres "migs" {| Fatalf_exits := false |}
            fresh_world _ _).
  - apply (bool_decide_unpack _). vm_compute. exact I.
  - intros x [<-|[<-|[]]]; simpl; auto.
Defined.

Lemma MigrationsFromPath_read_error_witness :
  returned (MigrationsFromPath parseMigrationPath_spec unreadable_fs
              [1%N; 2%N; 3%N] [1%N; 2%N; 3%N] "migs" fresh_world)
  = Some (inl (External (ExtErr 13))).
Proof.
  refine (MigrationsFromPath_read_error parseMigrationPath_spec unreadable_fs
            [1%N; 2%N; 3%N] [1%N; 2%N; 3%N] "migs" fresh_world
            ["migs/1_a_up.sql"] "migs/2_b_up.sql" ["migs/3_c_up.sql"] (ExtErr 13)
            _ _ _ _ _).
  - discriminate.
  - reflexivity.
  - constructor; [|constructor]. right. exists "SELECT 1". reflexivity.
  - vm_compute. discriminate.
  - reflexivity.
Defined.

(** A directory with a file that is no migration next to the two files of
    migration 5: the stray file changes nothing of what is loaded. *)
Lemma MigrationsFromPath_stray_file_example :
  returned (MigrationsFromPath parseMigrationPath_spec
              (dir_fs "migs" [("5_foo_down.sql", "DROP TABLE foo");
                              ("README.md", "notes");
                              ("5_foo_up.sql", "CREATE TABLE foo()")])
              [5%N] [5%N] "migs" fresh_world)
  = Some (inr [{| ID := 5; Name := "foo"; Status := Inactive;
                  Up := "CREATE TABLE foo()"; Down := "DROP TABLE foo";
                  Source := "migs/5_foo_down.sql migs/5_foo_up.sql" |}]).
Proof. vm_compute. reflexivity. Qed.

(** ** The calls of [Migrate] on the database *)

Lemma apply_outcome_in_transaction migration mType calls e migration' :
  apply_outcome migration mType calls e migration' -> Forall in_transaction calls.
Proof.
  assert (Hclean : forall steps, Forall clean steps -> Forall in_transaction steps).
  { intros steps H. apply List.Forall_forall. intros x Hx.
    rewrite List.Forall_forall in H. specialize (H x Hx).
    destruct x as [| | | |? ? []|[]| |]; try destruct H; reflexivity. }
  intros H. destruct H as [|err|steps failure err rb Hc Hf|steps err Hc|steps Hc].
  - constructor.
  - repeat constructor.
  - constructor; [reflexivity|]. apply Forall_app. split; [exact (Hclean _ Hc)|].
    destruct Hf; repeat constructor.
  - constructor; [reflexivity|]. apply Forall_app. split; [exact (Hclean _ Hc)|].
    repeat constructor.
  - constructor; [reflexivity|]. apply Forall_app. split; [exact (Hclean _ Hc)|].
    repeat constructor.
Qed.

Section CallsOfMigrate.

Context {DB : Type}.
Variable drv : Driver DB.

Lemma ApplyMigration_in_transaction m migration mType (w : World DB) :
  exists r w' rest,
    ApplyMigration drv m migration mType w = Done r w' /\
    trace w' = trace w ++ rest /\
    Forall in_transaction (db_events rest).
Proof.
  pose proof (ApplyMigration_run drv m migration mType w) as H.
  destruct (select_script migration mType) as [sql|].
  - cbv zeta in H. destruct H as (e & migration' & w' & rest & E & Ht & Ho & _).
    eexists _, w', _. split; [exact E|]. split; [exact Ht|].
    apply apply_outcome_in_transaction in Ho. exact Ho.
  - eexists _, _, [_]. split; [exact H|]. split; [reflexivity|constructor].
Qed.

Lemma migrate_loop_in_transaction ps : forall m (w : World DB),
  (forall p, In p ps -> is_Some (migrations m !! p)) ->
  exists r w' rest,
    migrate_loop drv ps m w = Done r w' /\
    trace w' = trace w ++ rest /\
    Forall in_transaction (db_events rest).
Proof.
  induction ps as [|p ps IH]; intros m w Hkeys; cbn [migrate_loop].
  - exists (None, m), w, []. rewrite app_nil_r.
    split; [reflexivity|]. split; [reflexivity|constructor].
  - destruct (Hkeys p (or_introl eq_refl)) as [mig Hp].
    unfold apply_at, bind. rewrite Hp.
    destruct (ApplyMigration_in_transaction m mig upMigration w)
      as ([e mig'] & w1 & rest1 & E & Ht1 & Hq1).
    rewrite E. unfold ret. cbn [fst snd].
    destruct e as [err|].
    + eexists _, w1, rest1. split; [reflexivity|]. split; [exact Ht1|exact Hq1].
    + destruct (IH (store p mig' m) w1) as (r & w2 & rest2 & E2 & Ht2 & Hq2).
      { intros q Hq. apply (store_keeps_keys p _ m q mig Hp). apply Hkeys. right. exact Hq. }
      exists r, w2, (rest1 ++ rest2). split; [exact E2|].
      split; [rewrite Ht2, Ht1, app_assoc; reflexivity|].
      rewrite db_events_app. apply Forall_app. split; assumption.
Qed.

(** After the table: the status queries, then the transactions. *)
Lemma Migrate_after_table order m (w : World DB) :
  exists r w' rest queries transactions,
    (r0 <- getMigrationStatuses drv order m ;;
     match fst r0 with
     | Some e => ret (Some e, snd r0)
     | None => migrate_loop drv (Migrations Inactive (snd r0)) (snd r0)
     end) w = Done r w' /\
    trace w' = trace w ++ rest /\
    db_events rest = queries ++ transactions /\
    Forall (is_status_query (dbAdapter m)) queries /\
    Forall in_transaction transactions.
Proof.
  unfold bind, getMigrationStatuses.
  destruct (status_loop_queries drv order m w) as (r & m' & w1 & rest1 & -> & Ht1 & Hq1 & _).
  cbn [fst snd]. destruct r as [e|].
  - eexists _, w1, rest1, (db_events rest1), []. split; [reflexivity|].
    split; [exact Ht1|]. rewrite app_nil_r. split; [reflexivity|].
    split; [exact Hq1|constructor].
  - destruct (migrate_loop_in_transaction (Migrations Inactive m') m' w1)
      as (r & w2 & rest2 & -> & Ht2 & Hq2); [intros p; apply Migrations_In_key|].
    eexists r, w2, (rest1 ++ rest2), (db_events rest1), (db_events rest2).
    split; [reflexivity|]. split; [rewrite Ht2, Ht1, app_assoc; reflexivity|].
    split; [apply db_events_app|]. split; [exact Hq1|exact Hq2].
Qed.

(** X13: the calls [Migrate] makes on the database follow one order: first
    the lookup of the metadata table; then, exactly when the lookup reported
    no row, the statement that creates the table; then the status queries,
    one migration id each; then nothing but transactions.  When the lookup
    fails with another error, [Migrate] returns that error and makes no
    further call. *)
Theorem Migrate_call_order order m (w : World DB) :
  let ad := dbAdapter m in
  let found :=
    snd (drvQueryRow drv (SelectMigrationTableSql ad) [VString migrationTableName] (db w)) in
  exists rest creation queries transactions,
    trace (world_of (Migrate drv order m w)) = trace w ++ rest /\
    db_events rest = table_lookup ad found :: creation ++ queries ++ transactions /\
    match found with
    | Some ErrNoRows => exists answer, creation = [table_creation ad answer]
    | Some e =>
        creation = [] /\ queries = [] /\ transactions = [] /\
        exists w', Migrate drv order m w = Done (Some (External e), m) w'
    | None => creation = []
    end /\
    Forall (is_status_query ad) queries /\
    Forall in_transaction transactions.
Proof.
  cbv zeta. unfold Migrate, MigrationTableExists. run.
  destruct (drvQueryRow drv _ _ (db w)) as [d [[|code]|]]; cbn [db trace fst snd negb].
  - (* no row: the table is created *)
    rewrite CreateMigrationsTable_run. cbv zeta. cbn [db trace].
    destruct (drvExec drv _ _ d) as [d2 [e|]]; cbn [fst snd].
    + destruct (Fatalf_exits (logger m)).
      * eexists [_; _; _; _], [_], [], []. cbn [world_of trace].
        split; [rewrite <- !app_assoc; reflexivity|]. split; [reflexivity|].
        split; [eexists; reflexivity|]. split; constructor.
      * match goal with |- context [getMigrationStatuses drv order m ?w0] =>
          destruct (Migrate_after_table order m w0)
            as (r & w' & rest & queries & transactions & E & Ht & Hd & Hq & Htx) end.
        unfold bind, ret in E. rewrite E. cbn [world_of].
        eexists (_ :: _ :: _ :: _ :: _ :: rest), [_], queries, transactions.
        split; [rewrite Ht; cbn [trace]; rewrite <- !app_assoc; reflexivity|].
        split; [unfold db_events in *; cbn [List.filter is_db_event app];
                rewrite Hd; reflexivity|].
        split; [eexists; reflexivity|]. split; assumption.
    + match goal with |- context [getMigrationStatuses drv order m ?w0] =>
        destruct (Migrate_after_table order m w0)
          as (r & w' & rest & queries & transactions & E & Ht & Hd & Hq & Htx) end.
      unfold bind, ret in E. rewrite E. cbn [world_of].
      eexists (_ :: _ :: _ :: _ :: rest), [_], queries, transactions.
      split; [rewrite Ht; cbn [trace]; rewrite <- !app_assoc; reflexivity|].
      split; [unfold db_events in *; cbn [List.filter is_db_event app];
              rewrite Hd; reflexivity|].
      split; [eexists; reflexivity|]. split; assumption.
  - (* the lookup failed *)
    eexists [_; _], [], [], []. cbn [world_of trace].
    split; [rewrite <- !app_assoc; reflexivity|]. split; [reflexivity|].
    split; [|split; constructor].
    split; [reflexivity|]. split; [reflexivity|]. split; [reflexivity|].
    eexists. reflexivity.
  - (* the table exists *)
    match goal with |- context [getMigrationStatuses drv order m ?w0] =>
      destruct (Migrate_after_table order m w0)
        as (r & w' & rest & queries & transactions & E & Ht & Hd & Hq & Htx) end.
    unfold bind, ret in E. rewrite E. cbn [world_of].
    eexists (_ :: _ :: rest), [], queries, transactions.
    split; [rewrite Ht; cbn [trace]; rewrite <- !app_assoc; reflexivity|].
    split; [unfold db_events in *; cbn [List.filter is_db_event app];
            rewrite Hd; reflexivity|].
    split; [reflexivity|]. split; assumption.
Qed.

End CallsOfMigrate.

(** ** From the constructor through [Migrate] to [RollbackAll] *)

Lemma NewMigratorWithMigrations_inactive adapter ms m :
  NewMigratorWithMigrations adapter ms = inr m -> all_status Inactive m.
Proof.
  unfold NewMigratorWithMigrations. pose proof (add_migrations_spec ms ∅) as H.
  destruct (add_migrations ms ∅) as [err|migs]; [discriminate|].
  intros [= <-] p mig. cbn [migrations]. destruct H as (_ & _ & _ & Hget).
  rewrite Hget. destruct (with_id p ms) as [mig0|].
  - intros [= <-]. reflexivity.
  - rewrite lookup_empty. discriminate.
Qed.

Lemma synced_same_keys m m' p :
  synced_from m m' -> is_Some (migrations m' !! p) <-> is_Some (migrations m !! p).
Proof.
  intros (_ & _ & H). destruct (H p) as [->|(mig & -> & ->)]; [reflexivity|].
  split; eauto.
Qed.

Lemma synced_all_active m m' : synced_from m m' -> all_status Active m -> all_status Active m'.
Proof.
  intros (_ & _ & H) Ha p mig' E. destruct (H p) as [E'|(mig & _ & E2)].
  - apply (Ha p). congruence.
  - rewrite E in E2. injection E2 as ->. reflexivity.
Qed.

Lemma all_active_Migrations m m' :
  synced_from m m' -> all_status Active m ->
  length (Migrations Active m') = length (Migrations Active m).
Proof.
  intros Hs Ha. apply Nat.le_antisymm; [|apply synced_active_grows; exact Hs].
  apply NoDup_incl_length; [apply NoDup_ListNoDup, Migrations_NoDup|].
  intros p Hp. apply Migrations_In_key in Hp.
  apply (synced_same_keys m m' p Hs) in Hp. destruct Hp as [mig Hmig].
  apply (Migrations_In_status Active m p); [discriminate|].
  exists mig. split; [exact Hmig|exact (Ha p mig Hmig)].
Qed.

Section Lifecycle.

Context {DB : Type}.
Variable drv : Driver DB.

(** A [Migrate] that returns nil on a Migrator whose migrations are all
    Inactive or Active leaves all of them Active. *)
Lemma Migrate_success_all_active order m (w : World DB) m1 w1 :
  (forall p mig, migrations m !! p = Some mig ->
                 Status mig = Inactive \/ Status mig = Active) ->
  Migrate drv order m w = Done (None, m1) w1 ->
  all_status Active m1 /\
  forall p, is_Some (migrations m1 !! p) <-> is_Some (migrations m !! p).
Proof.
  intros Htwo H. rewrite Migrate_unfold in H.
  destruct (Migrate_prepare_spec drv order m w) as (_ & _ & _ & Hs).
  destruct (Migrate_prepare drv order m w) as [[[e|] m0] w0|h w0]; try discriminate.
  specialize (Hs _ _ _ eq_refl).
  destruct (migrate_loop_spec drv (Migrations Inactive m0) m0 w0)
    as (applied & rest & m2 & w2 & Hpend & Hall & Hrest).
  { intros p. apply Migrations_In_key. }
  destruct rest as [|p rest].
  2:{ destruct Hrest as (e & w3 & _ & E). congruence. }
  rewrite app_nil_r in Hpend. subst applied.
  rewrite Hrest in H. injection H as -> ->.
  destruct (applies_all_keeps drv _ _ _ _ _ _ Hall) as (Hout & Hin & Hdom).
  split.
  - intros p mig Hp.
    destruct (in_dec N.eq_dec p (Migrations Inactive m0)) as [Hi|Hi].
    + destruct (Hin p Hi) as (mig' & Hp' & Hst). rewrite Hp in Hp'.
      injection Hp' as <-. exact Hst.
    + rewrite (Hout p Hi) in Hp.
      assert (Hne : Status mig <> Inactive).
      { intros E. apply Hi. apply Migrations_In_status; [discriminate|]. eauto. }
      destruct Hs as (_ & _ & Hs). destruct (Hs p) as [E|(mig0 & _ & E)].
      * rewrite E in Hp. destruct (Htwo p mig Hp); [contradiction|assumption].
      * rewrite E in Hp. injection Hp as <-. reflexivity.
  - intros p. rewrite Hdom. apply synced_same_keys. exact Hs.
Qed.

(** A [RollbackAll] that returns nil on a Migrator whose migrations are all
    Active leaves all of them Inactive. *)
Lemma RollbackAll_success_all_inactive order m (w : World DB) m2 w2 :
  all_status Active m ->
  Z.of_nat (length (Migrations Active m)) < 2 ^ 63 ->
  RollbackAll drv order m w = Done (None, m2) w2 ->
  all_status Inactive m2 /\
  forall p, is_Some (migrations m2 !! p) <-> is_Some (migrations m !! p).
Proof.
  intros Ha Hlen H. unfold RollbackAll in H.
  destruct (status_loop_spec drv order m w) as (r & m1 & w1 & rest & E & _ & _ & Hs).
  fold (getMigrationStatuses drv order m w) in E.
  destruct r as [err|].
  { unfold RollbackN, bind in H. rewrite E in H. discriminate. }
  rewrite (RollbackN_synced drv order _ m w m1 w1 E) in H.
  pose proof (all_active_Migrations m m1 Hs Ha) as Hl.
  pose proof (synced_all_active m m1 Hs Ha) as Ha1.
  destruct (rollback_count_spec drv (length (Migrations Active m1)) m1 w1) as
    (reversed & rest' & m2' & w2' & Hv & Hall & Hin & Hout & Hrest); [lia|].
  rewrite rollback_order_all in Hv.
  rewrite <- Hl in H. rewrite wrap_int_small in H by lia.
  replace (Z.of_nat (length (Migrations Active m1)) - 1
           - Z.of_nat (length (Migrations Active m1))) with (-1) in * by lia.
  destruct (applies_all_keeps drv _ _ _ _ _ _ Hall) as (_ & _ & Hdom).
  destruct (Migrations Active m1) as [|p0 tl] eqn:Eact.
  - (* no migration at all *)
    injection H as <- <-. split.
    + intros p mig Hp. exfalso.
      assert (Hi : In p (Migrations Active m1)).
      { apply Migrations_In_status; [discriminate|]. exists mig.
        split; [exact Hp|exact (Ha1 p mig Hp)]. }
      rewrite Eact in Hi. destruct Hi.
    + intros p. apply synced_same_keys. exact Hs.
  - rewrite <- Eact in *.
    destruct rest' as [|q rest'].
    2:{ destruct Hrest as (e & w3 & _ & E'). rewrite E' in H. discriminate. }
    destruct Hrest as [E' _]. rewrite E' in H. injection H as <- <-.
    rewrite app_nil_r in Hv. split.
    + intros p mig Hp.
      assert (Hk : is_Some (migrations m1 !! p)) by (apply Hdom; eauto).
      destruct Hk as [mig1 Hmig1].
      assert (Hi : In p reversed).
      { rewrite <- Hv. apply in_rev. rewrite rev_involutive.
        apply Migrations_In_status; [discriminate|]. exists mig1.
        split; [exact Hmig1|exact (Ha1 p mig1 Hmig1)]. }
      specialize (Hin p Hi). apply status_at_spec in Hin as (mig' & Hp' & Hst).
      rewrite Hp in Hp'. injection Hp' as <-. exact Hst.
    + intros p. rewrite Hdom. apply synced_same_keys. exact Hs.
Qed.

(** X14: the statuses over the life of a Migrator.  The constructor makes
    every migration Inactive; a [Migrate] that returns nil leaves every one
    Active; a [RollbackAll] on that Migrator that returns nil leaves every
    one Inactive again, with no migration gained or lost on the way. *)
Theorem Migrate_then_RollbackAll adapter ms m order1 order2 (w w' : World DB)
    m1 w1 m2 w2 :
  NewMigratorWithMigrations adapter ms = inr m ->
  Migrate drv order1 m w = Done (None, m1) w1 ->
  Z.of_nat (length (Migrations Active m1)) < 2 ^ 63 ->
  RollbackAll drv order2 m1 w' = Done (None, m2) w2 ->
  Migrations Active m1 = Migrations (-1) m /\
  Migrations Inactive m2 = Migrations (-1) m /\
  forall p, In p (map ID ms) ->
    status_at m p = Some Inactive /\
    status_at m1 p = Some Active /\
    status_at m2 p = Some Inactive.
Proof.
  intros Hnew Hmig Hlen Hroll.
  pose proof (NewMigratorWithMigrations_inactive adapter ms m Hnew) as H0.
  destruct (Migrate_success_all_active order1 m w m1 w1) as [H1 Hd1];
    [intros p mig Hp; left; exact (H0 p mig Hp)|exact Hmig|].
  destruct (RollbackAll_success_all_inactive order2 m1 w' m2 w2 H1 Hlen Hroll)
    as [H2 Hd2].
  assert (Hlist : forall st ma, all_status st ma -> st <> -1 ->
            (forall p, is_Some (migrations ma !! p) <-> is_Some (migrations m !! p)) ->
            Migrations st ma = Migrations (-1) m).
  { intros st ma Hst Hne Hd. apply (StronglySorted_unique_strong N.lt).
    - intros x y _ _ Hxy Hyx. exfalso. exact (N.lt_asymm _ _ Hxy Hyx).
    - apply Migrations_sorted.
    - apply Migrations_sorted.
    - apply NoDup_Permutation; [apply Migrations_NoDup|apply Migrations_NoDup|].
      intros p. rewrite !list_elem_of_In.
      rewrite (Migrations_In_status st ma p Hne), (Migrations_In (-1) m p).
      unfold has_status. split.
      + intros (mig & Hp & _). destruct (proj1 (Hd p) (mk_is_Some _ _ Hp)) as [mig0 ->].
        reflexivity.
      + intros Hp. destruct (migrations m !! p) as [mig0|] eqn:E; [|discriminate].
        destruct (proj2 (Hd p) (mk_is_Some _ _ E)) as [mig' Hmig'].
        exists mig'. split; [exact Hmig'|exact (Hst p mig' Hmig')]. }
  split; [apply Hlist; [exact H1|discriminate|exact Hd1]|].
  split; [apply Hlist; [exact H2|discriminate|intros p; rewrite Hd2; apply Hd1]|].
  intros p Hp.
  assert (Hk : is_Some (migrations m !! p)).
  { unfold NewMigratorWithMigrations in Hnew.
    pose proof (add_migrations_spec ms ∅) as H.
    destruct (add_migrations ms ∅) as [err|migs]; [discriminate|].
    injection Hnew as <-. cbn [migrations]. destruct H as (_ & _ & _ & Hget).
    rewrite Hget. destruct (with_id p ms) eqn:E; [eauto|].
    apply with_id_None in E. contradiction. }
  assert (Hk1 : is_Some (migrations m1 !! p)) by (apply Hd1; exact Hk).
  assert (Hk2 : is_Some (migrations m2 !! p)) by (apply Hd2; exact Hk1).
  destruct Hk as [mig0 Hmig0], Hk1 as [mig1 Hmig1], Hk2 as [mig2 Hmig2].
  unfold status_at. rewrite Hmig0, Hmig1, Hmig2. cbn.
  rewrite (H0 p mig0 Hmig0), (H1 p mig1 Hmig1), (H2 p mig2 Hmig2). repeat split.
Qed.

End Lifecycle.

Lemma Migrate_then_RollbackAll_witness :
  Migrations Active (fst migrated_example) = Migrations (-1) example_migrator /\
  Migrations Inactive
    (match RollbackAll (memDriver Postgres) [1%N; 2%N]
             (fst migrated_example) (snd migrated_example) with
     | Done r _ => snd r
     | Halted _ _ => example_migrator
     end) = Migrations (-1) example_migrator /\
  forall p, In p (map ID [users_migration; posts_migration]) ->
    status_at example_migrator p = Some Inactive /\
    status_at (fst migrated_example) p = Some Active /\
    status_at (match RollbackAll (memDriver Postgres) [1%N; 2%N]
                       (fst migrated_example) (snd migrated_example) with
               | Done r _ => snd r
               | Halted _ _ => example_migrator
               end) p = Some Inactive.
Proof.
  refine (Migrate_then_RollbackAll (memDriver Postgres) Postgres
            [users_migration; posts_migration] example_migrator
            [1%N; 2%N] [1%N; 2%N] fresh_world (snd migrated_example)
            (fst migrated_example) (snd migrated_example)
            _
            (match RollbackAll (memDriver Postgres) [1%N; 2%N]
                     (fst migrated_example) (snd migrated_example) with
             | Done _ w => w
             | Halted _ w => w
             end) _ _ _ _).
  - vm_compute. reflexivity.
  - vm_compute. reflexivity.
  - vm_compute. reflexivity.
  - vm_compute. reflexivity.
Defined.

(** ** The MySQL splitter at its default delimiter *)

Lemma cut_loop_length rounds sep : forall s,
  length (cut_loop (count_loop rounds s sep) s sep) = S (count_loop rounds s sep).
Proof.
  induction rounds as [|r IH]; intros s; [reflexivity|].
  cbn [count_loop]. destruct (Index s sep) as [m|] eqn:E; [|reflexivity].
  cbn [cut_loop]. rewrite E. cbn [length]. rewrite IH. reflexivity.
Qed.

Lemma HasPrefix_refl s : HasPrefix s s = true.
Proof.
  induction s as [|a s IH]; [reflexivity|].
  cbn [HasPrefix]. rewrite Ascii.eqb_refl, IH. reflexivity.
Qed.

Lemma Index_at_end t sep : sep <> EmptyString -> Index (t +:+ sep) sep <> None.
Proof.
  intros Hne. induction t as [|c t IH].
  - rewrite append_empty. destruct sep as [|a sep]; [congruence|].
    cbn [Index]. rewrite HasPrefix_refl. discriminate.
  - rewrite append_String. cbn [Index].
    destruct (HasPrefix (String c (t +:+ sep)) sep); [discriminate|].
    destruct (Index (t +:+ sep) sep); [discriminate|contradiction].
Qed.

Lemma append_tail e : forall t r (c : ascii),
  e +:+ r = t +:+ String c EmptyString -> r <> EmptyString ->
  exists t', r = t' +:+ String c EmptyString.
Proof.
  induction e as [|a e IH]; intros t r c H Hr.
  - rewrite append_empty in H. eauto.
  - rewrite append_String in H. destruct t as [|b t].
    + rewrite append_empty in H. injection H as _ H.
      destruct e; [rewrite append_empty in H; contradiction|].
      rewrite append_String in H. discriminate.
    + rewrite append_String in H. injection H as _ H. exact (IH t r c H Hr).
Qed.

Lemma Join_last_empty (c : ascii) l : forall t,
  l <> [] ->
  Join l (String c EmptyString) = t +:+ String c EmptyString ->
  Forall (fun f => Index f (String c EmptyString) = None) l ->
  last l = Some EmptyString.
Proof.
  induction l as [|e l IH]; intros t Hne HJ Hall; [congruence|].
  destruct l as [|e2 l].
  - cbn [Join] in HJ. inversion Hall as [|? ? He _]; subst.
    exfalso. revert He. apply Index_at_end. discriminate.
  - rewrite Join_cons in HJ by discriminate.
    inversion Hall as [|? ? _ Hall']; subst.
    destruct (append_tail e t (String c EmptyString +:+ Join (e2 :: l) (String c EmptyString))
                c HJ) as [t1 H1].
    { rewrite append_String. discriminate. }
    rewrite append_String, append_empty in H1.
    change (last (e :: e2 :: l)) with (last (e2 :: l)).
    destruct (String.string_dec (Join (e2 :: l) (String c EmptyString)) EmptyString)
      as [E|E].
    + destruct l as [|e3 l].
      * cbn [Join] in E. subst e2. reflexivity.
      * rewrite Join_cons in E by discriminate. destruct e2; discriminate.
    + destruct (append_tail (String c EmptyString) t1
                  (Join (e2 :: l) (String c EmptyString)) c) as [t2 H2].
      { rewrite append_String, append_empty. exact H1. }
      { exact E. }
      apply (IH t2); [discriminate|exact H2|exact Hall'].
Qed.

Section MysqlDefaultDelimiter.

Variable explode : string -> Z -> list string.
Variable Unquote : string -> option string.

(** X15: a script without a delimiter directive is cut at every [;]: the
    MySQL-family splitter returns one command more than the script has
    semicolons.  A script without a semicolon is one command, the script
    itself, as the other adapters return it.  A script that ends in [;]
    yields an empty last command. *)
Theorem Mysql_GetMigrationCommands_default_delimiter sql :
  HasPrefix sql "delimiter " = false ->
  let commands := Mysql_GetMigrationCommands explode Unquote sql in
  length commands = S (Count sql ";") /\
  (Index sql ";" = None -> commands = Postgres_GetMigrationCommands sql) /\
  (forall body, sql = body +:+ ";" -> last commands = Some "").
Proof.
  intros Hp. cbv zeta. unfold Mysql_GetMigrationCommands. rewrite Hp.
  assert (Hne : ";" <> EmptyString) by discriminate.
  split; [|split].
  - rewrite Split_cut_loop by exact Hne. unfold Count. apply cut_loop_length.
  - intros Hi. rewrite Split_cut_loop by exact Hne. unfold Count.
    destruct (len sql); cbn [count_loop]; [reflexivity|]. rewrite Hi. reflexivity.
  - intros body ->.
    destruct (Split_sound explode (body +:+ ";") ";" Hne) as [HJ Hall].
    apply (Join_last_empty ";"%char _ body); [|exact HJ|exact Hall].
    rewrite Split_cut_loop by exact Hne. apply cut_loop_nonempty.
Qed.

End MysqlDefaultDelimiter.

Lemma Mysql_GetMigrationCommands_default_delimiter_witness :
  length (Mysql_GetMigrationCommands explode_bytes UnquotePlain
            "CREATE TABLE t(x int);DROP TABLE u;")
  = S (Count "CREATE TABLE t(x int);DROP TABLE u;" ";") /\
  (Index "CREATE TABLE t(x int);DROP TABLE u;" ";" = None ->
   Mysql_GetMigrationCommands explode_bytes UnquotePlain
     "CREATE TABLE t(x int);DROP TABLE u;"
   = Postgres_GetMigrationCommands "CREATE TABLE t(x int);DROP TABLE u;") /\
  (forall body, "CREATE TABLE t(x int);DROP TABLE u;" = body +:+ ";" ->
     last (Mysql_GetMigrationCommands explode_bytes UnquotePlain
             "CREATE TABLE t(x int);DROP TABLE u;") = Some "").
Proof.
  refine (Mysql_GetMigrationCommands_default_delimiter explode_bytes UnquotePlain
            "CREATE TABLE t(x int);DROP TABLE u;" _).
  vm_compute. reflexivity.
Defined.

(** The commands of a script with two statements, each closed by [;]. *)
Lemma Mysql_trailing_semicolon_example :
  Mysql_GetMigrationCommands explode_bytes UnquotePlain
    "CREATE TABLE t(x int);DROP TABLE u;"
  = ["CREATE TABLE t(x int)"; "DROP TABLE u"; ""].
Proof. vm_compute. reflexivity. Qed.

(** ** The errors that come back *)

Lemma apply_outcome_error migration mType calls e migration' x :
  apply_outcome migration mType calls e migration' -> e = Some x -> engine_error x.
Proof.
  intros H E. destruct H; try discriminate E; injection E as <-.
  - left. reflexivity.
  - right. eauto.
  - right. eauto.
  - right. eauto.
Qed.

Section ErrorsOfTheEngine.

Context {DB : Type}.
Variable drv : Driver DB.

Lemma apply_at_error p mType m (w : World DB) x :
  returned_error (apply_at drv p mType m w) = Some x -> engine_error x.
Proof.
  unfold apply_at. destruct (migrations m !! p) as [mig|]; [|discriminate].
  unfold bind, ret. pose proof (ApplyMigration_run drv m mig mType w) as H.
  destruct (select_script mig mType) as [sql|].
  - cbv zeta in H. destruct H as (e & mig' & w' & rest & -> & _ & Ho & _).
    cbn [returned_error fst]. exact (apply_outcome_error _ _ _ _ _ x Ho).
  - rewrite H. cbn [returned_error fst]. intros [= <-]. left. reflexivity.
Qed.

Lemma status_loop_error ps : forall m (w : World DB) x,
  returned_error (status_loop drv ps m w) = Some x -> exists y, x = External y.
Proof.
  induction ps as [|p ps IH]; intros m w x; cbn [status_loop]; [discriminate|].
  destruct (migrations m !! p) as [migration|]; [|apply IH].
  run. destruct (drvQueryRow drv _ _ (db w)) as [d [[|code]|]]; cbn [db trace fst snd].
  - apply IH.
  - cbn [returned_error]. intros [= <-]. eauto.
  - apply IH.
Qed.

Lemma migrate_loop_error ps : forall m (w : World DB) x,
  returned_error (migrate_loop drv ps m w) = Some x -> engine_error x.
Proof.
  induction ps as [|p ps IH]; intros m w x; cbn [migrate_loop]; [discriminate|].
  unfold bind. pose proof (apply_at_error p upMigration m w) as Ha.
  destruct (apply_at drv p upMigration m w) as [[[e|] m'] w'|h w']; cbn [fst snd].
  - cbn [returned_error] in *. intros [= <-]. apply Ha. reflexivity.
  - apply IH.
  - discriminate.
Qed.

Lemma rollback_loop_error migs lastMigration : forall k m (w : World DB) x,
  returned_error (rollback_loop drv migs lastMigration k m w) = Some x -> engine_error x.
Proof.
  induction k as [|i IH]; intros m w x; cbn [rollback_loop].
  - destruct (Z.of_nat 0 - 1 =? lastMigration); discriminate.
  - destruct (Z.of_nat (S i) - 1 =? lastMigration); [discriminate|].
    destruct (migs !! i) as [p|]; [|discriminate].
    unfold bind. pose proof (apply_at_error p downMigration m w) as Ha.
    destruct (apply_at drv p downMigration m w) as [[[e|] m'] w'|h w']; cbn [fst snd].
    + cbn [returned_error] in *. intros [= <-]. apply Ha. reflexivity.
    + apply IH.
    + discriminate.
Qed.

Lemma RollbackN_error order n m (w : World DB) x :
  returned_error (RollbackN drv order n m w) = Some x -> engine_error x.
Proof.
  unfold RollbackN, bind, getMigrationStatuses.
  pose proof (status_loop_error order m w) as Hs.
  destruct (status_loop drv order m w) as [[[e|] m1] w1|h w1]; cbn [fst snd].
  - cbn [returned_error] in *. intros [= <-]. right. apply Hs. reflexivity.
  - destruct (length (Migrations Active m1) =? 0)%nat; [discriminate|].
    apply rollback_loop_error.
  - discriminate.
Qed.

(** X16: the errors the Migrator methods return.  [Migrate], [RollbackN],
    [Rollback] and [RollbackAll] return nil, an error of the database passed
    through unchanged, or [InvalidMigrationType]; none of the other errors
    of the package comes out of them. *)
Theorem Migrator_methods_errors order m (w : World DB) :
  let returns (o : Outcome DB (option error * Migrator)) :=
    match returned_error o with Some x => engine_error x | None => True end in
  returns (Migrate drv order m w) /\
  (forall n, returns (RollbackN drv order n m w)) /\
  returns (Rollback drv order m w) /\
  returns (RollbackAll drv order m w).
Proof.
  cbv zeta.
  assert (Hr : forall n, match returned_error (RollbackN drv order n m w) with
                         | Some x => engine_error x | None => True end).
  { intros n. pose proof (RollbackN_error order n m w) as H.
    destruct (returned_error (RollbackN drv order n m w)); [apply H; reflexivity|exact I]. }
  split; [|split; [exact Hr|split; [apply Hr|apply Hr]]].
  assert (Hm : forall x, returned_error (Migrate drv order m w) = Some x -> engine_error x).
  { intros x. unfold Migrate, MigrationTableExists. run.
    destruct (drvQueryRow drv _ _ (db w)) as [d [[|code]|]]; cbn [db trace fst snd negb].
    - rewrite CreateMigrationsTable_run. cbv zeta. cbn [db trace].
      destruct (drvExec drv _ _ d) as [d2 [e|]]; cbn [fst snd].
      + destruct (Fatalf_exits (logger m)); [discriminate|].
        unfold getMigrationStatuses.
        match goal with |- context [status_loop drv order m ?w0] =>
          pose proof (status_loop_error order m w0) as Hs;
          destruct (status_loop drv order m w0) as [[[e'|] m1] w1|h w1] end;
          cbn [fst snd].
        * cbn [returned_error] in *. intros [= <-]. right. apply Hs. reflexivity.
        * apply migrate_loop_error.
        * discriminate.
      + unfold getMigrationStatuses.
        match goal with |- context [status_loop drv order m ?w0] =>
          pose proof (status_loop_error order m w0) as Hs;
          destruct (status_loop drv order m w0) as [[[e'|] m1] w1|h w1] end;
          cbn [fst snd].
        * cbn [returned_error] in *. intros [= <-]. right. apply Hs. reflexivity.
        * apply migrate_loop_error.
        * discriminate.
    - cbn [returned_error]. intros [= <-]. right. eauto.
    - unfold getMigrationStatuses.
      match goal with |- context [status_loop drv order m ?w0] =>
        pose proof (status_loop_error order m w0) as Hs;
        destruct (status_loop drv order m w0) as [[[e'|] m1] w1|h w1] end;
        cbn [fst snd].
      + cbn [returned_error] in *. intros [= <-]. right. apply Hs. reflexivity.
      + apply migrate_loop_error.
      + discriminate. }
  destruct (returned_error (Migrate drv order m w)); [apply Hm; reflexivity|exact I].
Qed.

End ErrorsOfTheEngine.

Section ErrorsOfTheLoader.

Context {DB : Type}.
Variable parseMigrationPath : string -> option (N * migrationType * string).
Variable fs : FileSystem.

Lemma load_matches_error matches : forall g (w : World DB) x w',
  load_matches parseMigrationPath fs matches g w = Done (inl x) w' ->
  exists y, x = External y.
Proof.
  induction matches as [|f matches IH]; intros g w x w'; cbn [load_matches];
    [discriminate|].
  destruct (parseMigrationPath f) as [[[num mType] name]|]; run; [|apply IH].
  destruct (ReadFile fs f) as [sql|e]; run.
  - destruct (g !! num); apply IH.
  - intros [= <- _]. eauto.
Qed.

Lemma validate_all_error ms : forall (w : World DB) x w',
  validate_all ms w = Done (Some x) w' -> x = InvalidMigrationPair.
Proof.
  induction ms as [|[p mig] ms IH]; intros w x w'; cbn [validate_all]; [discriminate|].
  destruct (Validate mig); run; [|apply IH]. intros [= <- _]. reflexivity.
Qed.

(** X17: the errors the loader returns.  [MigrationsFromPath] returns its
    migrations or one of three errors: the wrapped failure of the directory
    listing, the failure of a file read passed through unchanged, or the
    invalid-pair error.  In particular a file name that [parseMigrationPath]
    refuses never makes the load fail, and the error of [Validate] is
    replaced by the invalid-pair error. *)
Theorem MigrationsFromPath_errors order1 order2 path (w : World DB) :
  match returned (MigrationsFromPath parseMigrationPath fs order1 order2 path w) with
  | Some (inl x) => loader_error x
  | _ => True
  end.
Proof.
  unfold MigrationsFromPath, bind.
  destruct path as [|c rest]; [exact I|].
  rewrite normalize_path_nonempty. run.
  destruct (Glob fs _) as [matches|e].
  2:{ cbn [returned]. right. right. eauto. }
  match goal with |- context [load_matches _ _ matches ∅ ?w0] =>
    pose proof (load_matches_error matches ∅ w0) as He;
    destruct (load_matches parseMigrationPath fs matches ∅ w0) as [[x|g] w1|h w1]
  end; [| |exact I].
  - cbn [returned]. right. left. exact (He x w1 eq_refl).
  - pose proof (validate_all_error (range_map order1 g) w1) as Hv.
    destruct (validate_all (range_map order1 g) w1) as [[x|] w2|h w2]; [| |exact I].
    + cbn [returned]. left. exact (Hv x w2 eq_refl).
    + exact I.
Qed.

End ErrorsOfTheLoader.
